(** * TrafficAI v6 (app.js): signal phases, deterministic spawner,
      vehicle motion and adaptive timing, embedded in Rocq.

    JavaScript numbers are modelled as exact rationals ([Q]); rounding
    error of IEEE doubles is outside the model.  Phase keys are the
    strings of the source (['n'], ['ns_s'], ...), the object [greenDur]
    is a finite map keyed by them.  Arms, movements, lanes, sub-phases
    and vehicle life-cycle phases are closed enumerations. *)

From stdpp Require Import base option list gmap strings.
From Stdlib Require Import ZArith QArith Qround Qabs Lqa Lia Sorted.

Local Open Scope Z_scope.

(* ================================================================= *)
(** ** Configuration *)

Module CONFIG.
Definition CANVAS_W   : Q := 520.
Definition LANE_W     : Q := 20.
Definition N_LANES    : nat := 3.
Definition BOX_HALF   : Q := 56.
Definition CAR_L      : Q := 17.
Definition CAR_W      : Q := 10.
Definition CAR_GAP    : Q := 5.
Definition CAR_SPD    : Q := 16 # 10.
Definition FIXED_GREEN : Q := 15.
Definition YELLOW_DUR  : Q := 3.
Definition ALL_RED_DUR : Q := 1.
Definition SPAWN_RATE  : Q := 4 # 1000.
Definition LCG_SEED    : Z := 1337.
Definition JAM_THRESHOLD : Q := 40.
End CONFIG.

Definition W   : Q := CONFIG.CANVAS_W.
Definition MID : Q := W / 2.
Definition RH  : Q := inject_Z (Z.of_nat CONFIG.N_LANES) * CONFIG.LANE_W.

(* ================================================================= *)
(** ** Arms, movements, lanes *)

Inductive Arm := north | south | east | west.
Inductive Movement := left | straight | right.
Inductive Lane := lane0 | lane1 | lane2.

Definition Arm_eqb (a b : Arm) : bool :=
  match a, b with
  | north, north | south, south | east, east | west, west => true
  | _, _ => false
  end.

Definition Movement_eqb (a b : Movement) : bool :=
  match a, b with
  | left, left | straight, straight | right, right => true
  | _, _ => false
  end.

Definition Lane_eqb (a b : Lane) : bool :=
  match a, b with
  | lane0, lane0 | lane1, lane1 | lane2, lane2 => true
  | _, _ => false
  end.

Definition ARMS : list Arm := [north; south; east; west].
Definition LANES : list Lane := [lane0; lane1; lane2].

(** Numeric lane index. *)
Definition laneIdx (l : Lane) : Z :=
  match l with lane0 => 0 | lane1 => 1 | lane2 => 2 end.

Definition OPP_D (d : Arm) : Arm :=
  match d with north => south | south => north | east => west | west => east end.
Definition LEFT_D (d : Arm) : Arm :=
  match d with north => west | west => south | south => east | east => north end.
Definition RIGHT_D (d : Arm) : Arm :=
  match d with north => east | east => south | south => west | west => north end.

(** [LANE_MOVE = ['left','straight','right']], indexed by lane. *)
Definition LANE_MOVE (l : Lane) : Movement :=
  match l with lane0 => left | lane1 => straight | lane2 => right end.

(** Two arms are perpendicular when one is the left or the right
    neighbour of the other (neither equal nor opposite). *)
Definition perpendicular (a b : Arm) : bool :=
  Arm_eqb b (LEFT_D a) || Arm_eqb b (RIGHT_D a).

(* ================================================================= *)
(** ** Phase system *)

Module PH.
Definition N    : string := "n".
Definition E    : string := "e".
Definition S    : string := "s".
Definition W    : string := "w".
Definition NS_S : string := "ns_s".
Definition NS_L : string := "ns_l".
Definition NS_R : string := "ns_r".
Definition EW_S : string := "ew_s".
Definition EW_L : string := "ew_l".
Definition EW_R : string := "ew_r".
End PH.

Definition FIXED_PHASE_SEQ : list string := [PH.N; PH.E; PH.S; PH.W].
Definition AI_PHASE_SEQ : list string :=
  [PH.NS_S; PH.NS_L; PH.NS_R; PH.EW_S; PH.EW_L; PH.EW_R].
Definition ALL_PHASES : list string :=
  [PH.N; PH.E; PH.S; PH.W; PH.NS_S; PH.NS_L; PH.NS_R; PH.EW_S; PH.EW_L; PH.EW_R].

(** [PHASE_NUM_MAP] as its entries, in key order. *)
Definition PHASE_NUM_ENTRIES : list (Z * string) :=
  [ (1, PH.N); (2, PH.E); (3, PH.S); (4, PH.W);
    (5, PH.NS_S); (6, PH.NS_L); (7, PH.NS_R);
    (8, PH.EW_S); (9, PH.EW_L); (10, PH.EW_R) ].

(** [PHASE_NUM_MAP[k]]; [None] is JavaScript's [undefined]. *)
Definition PHASE_NUM_MAP (k : Z) : option string :=
  option_map snd (List.find (fun e => Z.eqb (fst e) k) PHASE_NUM_ENTRIES).

Definition phaseAllows (ph : string) (dir : Arm) (move : Movement) : bool :=
  if String.eqb ph PH.N then
    Arm_eqb dir north || (Movement_eqb move left && negb (Arm_eqb dir north))
  else if String.eqb ph PH.E then
    Arm_eqb dir east || (Movement_eqb move left && negb (Arm_eqb dir east))
  else if String.eqb ph PH.S then
    Arm_eqb dir south || (Movement_eqb move left && negb (Arm_eqb dir south))
  else if String.eqb ph PH.W then
    Arm_eqb dir west || (Movement_eqb move left && negb (Arm_eqb dir west))
  else
    let ns := Arm_eqb dir north || Arm_eqb dir south in
    let ew := Arm_eqb dir east || Arm_eqb dir west in
    if String.eqb ph PH.NS_S then ns && Movement_eqb move straight
    else if String.eqb ph PH.NS_L then ns && Movement_eqb move left
    else if String.eqb ph PH.NS_R then ns && Movement_eqb move right
    else if String.eqb ph PH.EW_S then ew && Movement_eqb move straight
    else if String.eqb ph PH.EW_L then ew && Movement_eqb move left
    else if String.eqb ph PH.EW_R then ew && Movement_eqb move right
    else false.

(** The arm a single-arm phase names, if [ph] is one. *)
Definition mainArm (ph : string) : option Arm :=
  if String.eqb ph PH.N then Some north
  else if String.eqb ph PH.E then Some east
  else if String.eqb ph PH.S then Some south
  else if String.eqb ph PH.W then Some west
  else None.

Local Open Scope Q_scope.

(* ================================================================= *)
(** ** JavaScript numbers and values *)

(** A JavaScript number: a finite value, [NaN] or an infinity. *)
Inductive JsNum := Fin (q : Q) | NaN | PInf | NInf.

(** A JavaScript value as it reaches [Number(...)], [typeof] and
    [Array.prototype.includes].  [VObject n] is an object or array whose
    conversion to a number yields [n]. *)
Inductive JsVal :=
| VUndefined
| VNull
| VBool (b : bool)
| VNumber (n : JsNum)
| VString (s : string)
| VObject (n : JsNum).

Definition Qlt_bool (a b : Q) : bool := negb (Qle_bool b a).

Module Js.
(** Truthiness of a number: [NaN] and zero are falsy. *)
Definition truthy (n : JsNum) : bool :=
  match n with
  | Fin q => negb (Qeq_bool q 0)
  | NaN => false
  | PInf | NInf => true
  end.

(** [a || b] on numbers. *)
Definition or (a b : JsNum) : JsNum := if truthy a then a else b.

Definition isFinite (n : JsNum) : bool :=
  match n with Fin _ => true | _ => false end.

(** [Math.round]: nearest integer, halves rounded towards +infinity. *)
Definition round (n : JsNum) : JsNum :=
  match n with
  | Fin q => Fin (inject_Z (Qfloor (q + (1 # 2))))
  | other => other
  end.

Definition min (a b : JsNum) : JsNum :=
  match a, b with
  | NaN, _ | _, NaN => NaN
  | NInf, _ | _, NInf => NInf
  | PInf, o | o, PInf => o
  | Fin p, Fin q => if Qle_bool p q then Fin p else Fin q
  end.

Definition max (a b : JsNum) : JsNum :=
  match a, b with
  | NaN, _ | _, NaN => NaN
  | PInf, _ | _, PInf => PInf
  | NInf, o | o, NInf => o
  | Fin p, Fin q => if Qle_bool p q then Fin q else Fin p
  end.

Definition sub (a b : JsNum) : JsNum :=
  match a, b with
  | NaN, _ | _, NaN => NaN
  | Fin p, Fin q => Fin (p - q)
  | Fin _, PInf => NInf
  | Fin _, NInf => PInf
  | PInf, PInf | NInf, NInf => NaN
  | PInf, _ => PInf
  | NInf, _ => NInf
  end.

Definition abs (a : JsNum) : JsNum :=
  match a with
  | Fin q => Fin (Qabs q)
  | NaN => NaN
  | PInf | NInf => PInf
  end.

(** [a < b]; any comparison with [NaN] is false. *)
Definition lt (a b : JsNum) : bool :=
  match a, b with
  | NaN, _ | _, NaN => false
  | Fin p, Fin q => Qlt_bool p q
  | NInf, NInf => false
  | NInf, _ => true
  | _, PInf => match a with PInf => false | _ => true end
  | _, _ => false
  end.
End Js.

Section Builtins.
(** The numeric value of a string ([StringToNumber] of the language
    standard) is left abstract. *)
Variable StringToNumber : string -> JsNum.

(** [Number(v)]. *)
Definition Number (v : JsVal) : JsNum :=
  match v with
  | VUndefined => NaN
  | VNull => Fin 0
  | VBool true => Fin 1
  | VBool false => Fin 0
  | VNumber n => n
  | VString s => StringToNumber s
  | VObject n => n
  end.
End Builtins.

(* ================================================================= *)
(** ** Geometry *)

Definition laneOff (lane : Lane) : Q :=
  (inject_Z (Z.of_nat CONFIG.N_LANES) - inject_Z (laneIdx lane) - (1 # 2)) * CONFIG.LANE_W.

Definition laneX (dir : Arm) (lane : Lane) : Q :=
  match dir with
  | north => MID - laneOff lane
  | _ => MID + laneOff lane
  end.

Definition laneY (dir : Arm) (lane : Lane) : Q :=
  match dir with
  | east => MID - laneOff lane
  | _ => MID + laneOff lane
  end.

(** Exit lanes are plain integers in the source (some negative). *)
Definition exitOff (lane : Z) : Q :=
  let i := if (Z.of_nat CONFIG.N_LANES <=? lane)%Z
           then (lane - Z.of_nat CONFIG.N_LANES)%Z else lane in
  (inject_Z i + (1 # 2)) * CONFIG.LANE_W.

Definition exitLaneX (dir : Arm) (lane : Z) : Q :=
  match dir with
  | north => MID + exitOff lane
  | _ => MID - exitOff lane
  end.

Definition exitLaneY (dir : Arm) (lane : Z) : Q :=
  match dir with
  | east => MID - exitOff lane
  | _ => MID + exitOff lane
  end.

Record Point := mkPoint { px : Q; py : Q }.

Definition spawnPos (dir : Arm) (lane : Lane) : Point :=
  let far := W + 30 in
  match dir with
  | north => mkPoint (laneX north lane) far
  | south => mkPoint (laneX south lane) (-30)
  | east => mkPoint (-30) (laneY east lane)
  | west => mkPoint far (laneY west lane)
  end.

Inductive Axis := axisX | axisY.
Record Stop := mkStop { axis : Axis; val : Q }.

Definition stopCoord (dir : Arm) : Stop :=
  let m := CONFIG.BOX_HALF + CONFIG.CAR_L * (1 # 2) + 3 in
  match dir with
  | north => mkStop axisY (MID + m)
  | south => mkStop axisY (MID - m)
  | east => mkStop axisX (MID - m)
  | west => mkStop axisX (MID + m)
  end.

(* ================================================================= *)
(** ** Vehicles *)

Inductive VPhase := approach | turning | exit.

Definition VPhase_eqb (a b : VPhase) : bool :=
  match a, b with
  | approach, approach | turning, turning | exit, exit => true
  | _, _ => false
  end.

(** A cubic Bezier path [{p0,p1,p2,p3}]. *)
Record Bezier := mkBezier { p0 : Point; p1 : Point; p2 : Point; p3 : Point }.

(** The fields of [class Vehicle] that the engine reads or writes
    ([id] and [color] only serve the renderer).  [None] is [null]. *)
Record Vehicle := mkVehicle {
  dir      : Arm;
  lane     : Lane;
  move     : Movement;
  x        : Q;
  y        : Q;
  phase    : VPhase;
  stopped  : bool;
  waiting  : bool;
  waitSec  : Q;
  done     : bool;
  turnT    : Q;
  turnPath : option Bezier;
  _pLen    : Q;
  exitDir  : option Arm;
  exitLane : option Z
}.

(** [new Vehicle(dir, lane)]. *)
Definition Vehicle_new (d : Arm) (l : Lane) : Vehicle :=
  let pos := spawnPos d l in
  mkVehicle d l (LANE_MOVE l) (px pos) (py pos) approach false false 0 false
            0 None 1 None None.

(** Field assignments. *)
Definition set_pos (v : Vehicle) (nx ny : Q) : Vehicle :=
  mkVehicle (dir v) (lane v) (move v) nx ny (phase v) (stopped v) (waiting v)
            (waitSec v) (done v) (turnT v) (turnPath v) (_pLen v) (exitDir v) (exitLane v).

Definition set_flags (v : Vehicle) (st wt : bool) : Vehicle :=
  mkVehicle (dir v) (lane v) (move v) (x v) (y v) (phase v) st wt
            (waitSec v) (done v) (turnT v) (turnPath v) (_pLen v) (exitDir v) (exitLane v).

Definition set_waitSec (v : Vehicle) (w : Q) : Vehicle :=
  mkVehicle (dir v) (lane v) (move v) (x v) (y v) (phase v) (stopped v) (waiting v)
            w (done v) (turnT v) (turnPath v) (_pLen v) (exitDir v) (exitLane v).

Definition set_phase (v : Vehicle) (ph : VPhase) : Vehicle :=
  mkVehicle (dir v) (lane v) (move v) (x v) (y v) ph (stopped v) (waiting v)
            (waitSec v) (done v) (turnT v) (turnPath v) (_pLen v) (exitDir v) (exitLane v).

Definition set_done (v : Vehicle) (b : bool) : Vehicle :=
  mkVehicle (dir v) (lane v) (move v) (x v) (y v) (phase v) (stopped v) (waiting v)
            (waitSec v) b (turnT v) (turnPath v) (_pLen v) (exitDir v) (exitLane v).

Definition set_turnT (v : Vehicle) (t : Q) : Vehicle :=
  mkVehicle (dir v) (lane v) (move v) (x v) (y v) (phase v) (stopped v) (waiting v)
            (waitSec v) (done v) t (turnPath v) (_pLen v) (exitDir v) (exitLane v).

Definition set_turnPath (v : Vehicle) (p : Bezier) (len : Q) : Vehicle :=
  mkVehicle (dir v) (lane v) (move v) (x v) (y v) (phase v) (stopped v) (waiting v)
            (waitSec v) (done v) (turnT v) (Some p) len (exitDir v) (exitLane v).

Definition set_exit (v : Vehicle) (d : Arm) (l : Z) : Vehicle :=
  mkVehicle (dir v) (lane v) (move v) (x v) (y v) (phase v) (stopped v) (waiting v)
            (waitSec v) (done v) (turnT v) (turnPath v) (_pLen v) (Some d) (Some l).

(** [pastStop(v)]: the front bumper has reached the stop coordinate. *)
Definition pastStop (v : Vehicle) : bool :=
  let s := stopCoord (dir v) in
  let half := CONFIG.CAR_L * (1 # 2) in
  match dir v with
  | north => Qle_bool (y v - half) (val s)
  | south => Qle_bool (val s) (y v + half)
  | east => Qle_bool (val s) (x v + half)
  | west => Qle_bool (x v - half) (val s)
  end.

(* ================================================================= *)
(** ** Bezier turn paths *)

Definition exitDirMap (d : Arm) (l : Lane) : Arm :=
  match d, l with
  | north, lane0 => west  | north, lane1 => north | north, lane2 => east
  | east, lane0 => north  | east, lane1 => east   | east, lane2 => south
  | south, lane0 => east  | south, lane1 => south | south, lane2 => west
  | west, lane0 => south  | west, lane1 => west   | west, lane2 => north
  end.

Definition exitLaneMap (d : Arm) (l : Lane) : Z :=
  match d, l with
  | north, lane0 => 2    | north, lane1 => -2 | north, lane2 => 3
  | east, lane0 => -3    | east, lane1 => 4   | east, lane2 => -1
  | south, lane0 => 2    | south, lane1 => -2 | south, lane2 => 3
  | west, lane0 => -3    | west, lane1 => 4   | west, lane2 => -1
  end.

(** [buildPath(v)]: stores the exit arm and exit lane on the vehicle and
    returns the path. *)
Definition buildPath (v : Vehicle) : Vehicle * Bezier :=
  let box := CONFIG.BOX_HALF in
  let eDir := exitDirMap (dir v) (lane v) in
  let eLane := exitLaneMap (dir v) (lane v) in
  let v' := set_exit v eDir eLane in
  let q0 := mkPoint (x v) (y v) in
  let edge := box + 1 in
  let q3 := match eDir with
            | north => mkPoint (exitLaneX north eLane) (MID - edge)
            | south => mkPoint (exitLaneX south eLane) (MID + edge)
            | east => mkPoint (MID + edge) (exitLaneY east eLane)
            | west => mkPoint (MID - edge) (exitLaneY west eLane)
            end in
  match move v with
  | straight =>
      match dir v with
      | north | south =>
          let dy := py q3 - py q0 in
          (v', mkBezier q0 (mkPoint (px q0) (py q0 + dy * (33 # 100)))
                           (mkPoint (px q3) (py q0 + dy * (66 # 100))) q3)
      | _ =>
          let dx := px q3 - px q0 in
          (v', mkBezier q0 (mkPoint (px q0 + dx * (33 # 100)) (py q0))
                           (mkPoint (px q0 + dx * (66 # 100)) (py q3)) q3)
      end
  | _ =>
      let r := box * (75 # 100) in
      let c :=
        match dir v, eDir with
        | north, west => mkPoint (MID - r) (MID + r)
        | north, east => mkPoint (MID + r) (MID + r)
        | south, east => mkPoint (MID + r) (MID - r)
        | south, west => mkPoint (MID - r) (MID - r)
        | east, south => mkPoint (MID - r) (MID + r)
        | east, north => mkPoint (MID - r) (MID - r)
        | west, north => mkPoint (MID + r) (MID - r)
        | west, south => mkPoint (MID + r) (MID + r)
        | _, _ => mkPoint MID MID
        end in
      let q1 := mkPoint (px q0 + (px c - px q0) * (60 # 100))
                        (py q0 + (py c - py q0) * (60 # 100)) in
      let q2 := mkPoint (px q3 + (px c - px q3) * (60 # 100))
                        (py q3 + (py c - py q3) * (60 # 100)) in
      (v', mkBezier q0 q1 q2 q3)
  end.

Definition bezAt (path : Bezier) (t : Q) : Point :=
  let m := 1 - t in
  mkPoint (m*m*m * px (p0 path) + 3*m*m*t * px (p1 path)
           + 3*m*t*t * px (p2 path) + t*t*t * px (p3 path))
          (m*m*m * py (p0 path) + 3*m*m*t * py (p1 path)
           + 3*m*t*t * py (p2 path) + t*t*t * py (p3 path)).

Section Sqrt.
(** [Math.sqrt], left abstract. *)
Variable Math_sqrt : Q -> Q.

(** [bezLen(path, steps = 24)]. *)
Definition bezLen (path : Bezier) : Q :=
  let steps := 24%nat in
  let acc :=
    fold_left
      (fun (a : Q * Point) (i : nat) =>
         let p := bezAt path (inject_Z (Z.of_nat i) / inject_Z (Z.of_nat steps)) in
         let dx := px p - px (snd a) in
         let dy := py p - py (snd a) in
         (fst a + Math_sqrt (dx * dx + dy * dy), p))
      (seq 1 steps) (0, bezAt path 0) in
  if Qle_bool 1 (fst acc) then fst acc else 1.
End Sqrt.

(* ================================================================= *)
(** ** TrafficMaster: deterministic seeded spawner *)

Record Event := mkEvent { ev_dir : Arm; ev_lane : Lane }.

(** A scheduled entry [{time, dir, lane}] of [_queue]. *)
Record Sched := mkSched { time : Q; s_dir : Arm; s_lane : Lane }.

Record TrafficMaster := mkMaster {
  _seed  : Z;
  _queue : list Sched;
  _t     : Q
}.

(** 32-bit conversions of the language. *)
Definition toUint32 (z : Z) : Z := (z mod 2 ^ 32)%Z.
Definition toInt32 (z : Z) : Z :=
  let m := (z mod 2 ^ 32)%Z in
  if (2 ^ 31 <=? m)%Z then (m - 2 ^ 32)%Z else m.

(** [Math.imul(a, b)]. *)
Definition imul (a b : Z) : Z := toInt32 (toInt32 a * toInt32 b)%Z.

Module Master.
(** The constructor; the source always passes [CONFIG.LCG_SEED]. *)
Definition new (seed : Z) : TrafficMaster := mkMaster seed [] 0.

Definition create : TrafficMaster := new CONFIG.LCG_SEED.

(** [_rng()]: the next seed and the value in [0,1) it yields. *)
Definition _rng (m : TrafficMaster) : TrafficMaster * Q :=
  let s := toUint32 (imul (_seed m) 1664525 + 1013904223)%Z in
  (mkMaster s (_queue m) (_t m), inject_Z s / inject_Z (2 ^ 32)).

(** [_sort()]: [Array.prototype.sort] with comparator
    [a.time - b.time] is a stable sort on [time]. *)
Fixpoint insert_by_time (e : Sched) (l : list Sched) : list Sched :=
  match l with
  | [] => [e]
  | h :: tl => if Qlt_bool (time e) (time h) then e :: h :: tl
               else h :: insert_by_time e tl
  end.

Definition sort_by_time (l : list Sched) : list Sched :=
  fold_left (fun acc e => insert_by_time e acc) l [].

Definition _sort (m : TrafficMaster) : TrafficMaster :=
  mkMaster (_seed m) (sort_by_time (_queue m)) (_t m).

Definition push (m : TrafficMaster) (e : Sched) : TrafficMaster :=
  mkMaster (_seed m) (_queue m ++ [e]) (_t m).

(** The drain loop of [tick]: shift entries whose time has come. *)
Fixpoint drain (now : Q) (q : list Sched) : list Event * list Sched :=
  match q with
  | [] => ([], [])
  | e :: tl =>
      if Qle_bool (time e) now
      then let r := drain now tl in (mkEvent (s_dir e) (s_lane e) :: fst r, snd r)
      else ([], q)
  end.

(** One background draw for [(dir, lane)]. *)
Definition draw (acc : TrafficMaster * list Event) (dl : Arm * Lane)
  : TrafficMaster * list Event :=
  let r := _rng (fst acc) in
  if Qlt_bool (snd r) CONFIG.SPAWN_RATE
  then (fst r, snd acc ++ [mkEvent (fst dl) (snd dl)])
  else (fst r, snd acc).

(** All (dir, lane) pairs in the order of the two nested loops. *)
Definition slots : list (Arm * Lane) :=
  d ← [north; south; east; west]; l ← LANES; [(d, l)].

Definition tick (m : TrafficMaster) (dt : Q) : TrafficMaster * list Event :=
  let now := _t m + dt in
  let dr := drain now (_queue m) in
  fold_left draw slots (mkMaster (_seed m) (snd dr) now, fst dr).

Definition injectDir (m : TrafficMaster) (d : Arm) : TrafficMaster :=
  _sort (fold_left
           (fun acc l =>
              push acc (mkSched (_t m + inject_Z (laneIdx l) * (4 # 10) + (5 # 100)) d l))
           LANES m).

(** First argument of [bulkAdd]: ['all'] or one arm. *)
Inductive Target := all | only (d : Arm).

Definition bulkAdd (m : TrafficMaster) (tg : Target) (n : nat) : TrafficMaster :=
  let dirs := match tg with all => [north; south; east; west] | only d => [d] end in
  _sort (fold_left
           (fun acc (dil : Arm * nat * Lane) =>
              let '(d, i, l) := dil in
              push acc (mkSched (_t m + inject_Z (Z.of_nat i) * (5 # 10)
                                 + inject_Z (laneIdx l) * (15 # 100)) d l))
           (d ← dirs; i ← seq 0 n; l ← LANES; [(d, i, l)]) m).

Definition reset (m : TrafficMaster) : TrafficMaster :=
  mkMaster CONFIG.LCG_SEED [] 0.

(** A call on the public interface, and the event lists a call
    sequence produces (one list per [tick]). *)
Inductive Call :=
| CTick (dt : Q)
| CInjectDir (d : Arm)
| CBulkAdd (tg : Target) (n : nat).

Fixpoint run (m : TrafficMaster) (cs : list Call) : list (list Event) :=
  match cs with
  | [] => []
  | CTick dt :: cs' => let r := tick m dt in snd r :: run (fst r) cs'
  | CInjectDir d :: cs' => run (injectDir m d) cs'
  | CBulkAdd tg n :: cs' => run (bulkAdd m tg n) cs'
  end.

(** Two calls carry identical arguments: the same operation, the same
    arm and count, numerically equal time steps. *)
Definition same_call (a b : Call) : Prop :=
  match a, b with
  | CTick d1, CTick d2 => d1 == d2
  | CInjectDir a1, CInjectDir a2 => a1 = a2
  | CBulkAdd t1 n1, CBulkAdd t2 n2 => t1 = t2 /\ n1 = n2
  | _, _ => False
  end.
End Master.

(* ================================================================= *)
(** ** TrafficLight *)

Inductive SubPhase := green | yellow | allred.
Inductive Mode := baseline | ai.
Inductive Signal := sigGreen | sigYellow | sigRed.

(** [_seq] is [FIXED_PHASE_SEQ] in both modes and never reassigned, so
    it is not a field here.  [onPhaseEnd] records whether a callback is
    installed; the call itself is the second component of [tick]. *)
Record TrafficLight := mkLight {
  l_mode        : Mode;
  subPhase      : SubPhase;
  timer         : Q;
  _seqIdx       : nat;
  _phaseKey     : string;
  greenDur      : gmap string JsNum;
  _nextOverride : option string;
  onPhaseEnd    : bool
}.

Module Light.
Definition _seq : list string := FIXED_PHASE_SEQ.

(** [indexOf]; [None] is the source's [-1]. *)
Fixpoint indexOf (l : list string) (k : string) : option nat :=
  match l with
  | [] => None
  | h :: tl => if String.eqb h k then Some 0%nat
               else option_map S (indexOf tl k)
  end.

Definition includes (l : list string) (k : string) : bool :=
  match indexOf l k with Some _ => true | None => false end.

Definition new (m : Mode) : TrafficLight :=
  mkLight m green 0 0 (nth 0 _seq PH.N)
          (fold_left (fun g ph => <[ph := Fin CONFIG.FIXED_GREEN]> g) ALL_PHASES ∅)
          None false.

Definition currentPhase (l : TrafficLight) : string := _phaseKey l.

Definition canGo (l : TrafficLight) (d : Arm) (mv : Movement) : bool :=
  match subPhase l with
  | green => phaseAllows (_phaseKey l) d mv
  | _ => false
  end.

Definition stateFor (l : TrafficLight) (d : Arm) (mv : Movement) : Signal :=
  if negb (phaseAllows (_phaseKey l) d mv) then sigRed
  else match subPhase l with
       | allred => sigRed
       | green => sigGreen
       | yellow => sigYellow
       end.

(** Target duration of the current sub-phase; [None] is [undefined]
    (a phase key absent from [greenDur]). *)
Definition dur (l : TrafficLight) : option JsNum :=
  match subPhase l with
  | green => greenDur l !! _phaseKey l
  | yellow => Some (Fin CONFIG.YELLOW_DUR)
  | allred => Some (Fin CONFIG.ALL_RED_DUR)
  end.

(** [this.timer < dur]; false when [dur] is [undefined]. *)
Definition timer_lt (t : Q) (d : option JsNum) : bool :=
  match d with
  | Some n => Js.lt (Fin t) n
  | None => false
  end.

(** [tick(dt)]: the new state and, when [onPhaseEnd] is called, its
    argument. *)
Definition tick (l : TrafficLight) (dt : Q) : TrafficLight * option string :=
  let t := timer l + dt in
  if timer_lt t (dur l) then
    (mkLight (l_mode l) (subPhase l) t (_seqIdx l) (_phaseKey l) (greenDur l)
             (_nextOverride l) (onPhaseEnd l), None)
  else
    match subPhase l with
    | green =>
        (mkLight (l_mode l) yellow 0 (_seqIdx l) (_phaseKey l) (greenDur l)
                 (_nextOverride l) (onPhaseEnd l), None)
    | yellow =>
        (mkLight (l_mode l) allred 0 (_seqIdx l) (_phaseKey l) (greenDur l)
                 (_nextOverride l) (onPhaseEnd l),
         if onPhaseEnd l then Some (_phaseKey l) else None)
    | allred =>
        match _nextOverride l with
        | Some k =>
            let idx := match indexOf _seq k with
                       | Some i => i
                       | None => _seqIdx l
                       end in
            (mkLight (l_mode l) green 0 idx k (greenDur l) None (onPhaseEnd l), None)
        | None =>
            let idx := ((_seqIdx l + 1) mod length _seq)%nat in
            (mkLight (l_mode l) green 0 idx (nth idx _seq PH.N) (greenDur l)
                     None (onPhaseEnd l), None)
        end
    end.

(** [PHASE_NUM_MAP[n]] for a number used as property key: only the
    integers 1..10 name a property. *)
Definition phaseOfNumber (n : JsNum) : option string :=
  match n with
  | Fin q => if Qeq_bool q (inject_Z (Qfloor q)) then PHASE_NUM_MAP (Qfloor q) else None
  | _ => None
  end.
End Light.

Section SetNextPhase.
Variable StringToNumber : string -> JsNum.

(** [setNextPhase(phaseId, duration)]. *)
Definition setNextPhase (l : TrafficLight) (phaseId duration : JsVal) : TrafficLight :=
  let phKey :=
    match phaseId with
    | VNumber n => Light.phaseOfNumber n
    | VString s => if Light.includes ALL_PHASES s then Some s else None
    | _ => None
    end in
  match phKey with
  | None => l
  | Some k =>
      let d := Js.max (Fin 5)
                 (Js.min (Fin 60)
                    (Js.round (Js.or (Number StringToNumber duration)
                                     (Fin CONFIG.FIXED_GREEN)))) in
      mkLight (l_mode l) (subPhase l) (timer l) (_seqIdx l) (_phaseKey l)
              (<[k := d]> (greenDur l)) (Some k) (onPhaseEnd l)
  end.
End SetNextPhase.

(* ================================================================= *)
(** ** Simulation engine *)

(** Kind of the text stored in [aiReason]. *)
Inductive Rationale := Awaiting | Fallback | Accepted | Rejected.

(** Locals of a suspended [_callAI] that its continuation uses. *)
Record Pending := mkPending {
  fixedNextId : Z;
  loadNext    : Q;
  targetDur   : JsNum
}.

(** The one [setNextPhase] call an invocation of [_callAI] makes. *)
Record Decision := mkDecision {
  d_next : Z;
  d_dur  : JsNum;
  d_why  : Rationale
}.

(** The parsed response body [data]. *)
Record Reply := mkReply {
  duration            : JsVal;
  improved_over_fixed : JsVal;
  next_phase          : JsVal;
  reason              : JsVal
}.

(** How the [fetch] settles: [Failed] is a transport error, the 9 s
    abort, a non-OK status or an unparsable body; [Replied None] is a
    body that parses to [null]. *)
Inductive FetchResult := Failed | Replied (data : option Reply).

(** [inflight] holds the locals of the suspended [_callAI], if any. *)
Record Simulation := mkSim {
  mode         : Mode;
  light        : TrafficLight;
  vehicles     : list Vehicle;
  simTime      : Q;
  totalPassed  : nat;
  totalWaitSec : Q;
  passedCount  : nat;
  aiPending    : bool;
  aiReason     : Rationale;
  inflight     : option Pending
}.

Definition set_light (s : Simulation) (l : TrafficLight) : Simulation :=
  mkSim (mode s) l (vehicles s) (simTime s) (totalPassed s) (totalWaitSec s)
        (passedCount s) (aiPending s) (aiReason s) (inflight s).

Definition set_vehicles (s : Simulation) (vs : list Vehicle) : Simulation :=
  mkSim (mode s) (light s) vs (simTime s) (totalPassed s) (totalWaitSec s)
        (passedCount s) (aiPending s) (aiReason s) (inflight s).

Definition set_simTime (s : Simulation) (t : Q) : Simulation :=
  mkSim (mode s) (light s) (vehicles s) t (totalPassed s) (totalWaitSec s)
        (passedCount s) (aiPending s) (aiReason s) (inflight s).

Definition set_ai (s : Simulation) (pend : bool) (fl : option Pending) : Simulation :=
  mkSim (mode s) (light s) (vehicles s) (simTime s) (totalPassed s) (totalWaitSec s)
        (passedCount s) pend (aiReason s) fl.

Definition set_aiReason (s : Simulation) (r : Rationale) : Simulation :=
  mkSim (mode s) (light s) (vehicles s) (simTime s) (totalPassed s) (totalWaitSec s)
        (passedCount s) (aiPending s) r (inflight s).

(** The three accumulator updates of [_exit]. *)
Definition count_passed (s : Simulation) (w : Q) : Simulation :=
  mkSim (mode s) (light s) (vehicles s) (simTime s) (S (totalPassed s))
        (totalWaitSec s + w) (S (passedCount s)) (aiPending s) (aiReason s) (inflight s).

Module Sim.
Definition new (m : Mode) : Simulation :=
  let l := Light.new m in
  let l' := match m with
            | ai => mkLight (l_mode l) (subPhase l) (timer l) (_seqIdx l) (_phaseKey l)
                            (greenDur l) (_nextOverride l) true
            | baseline => l
            end in
  mkSim m l' [] 0 0 0 0 false Awaiting None.

Definition spawn (s : Simulation) (d : Arm) (l : Lane) : Simulation :=
  set_vehicles s (vehicles s ++ [Vehicle_new d l]).

(** [laneQueues()[dir_move]]. *)
Definition laneQueues (s : Simulation) (d : Arm) (mv : Movement) : nat :=
  length (List.filter (fun v => VPhase_eqb (phase v) approach
                           && Arm_eqb (dir v) d && Movement_eqb (move v) mv)
                 (vehicles s)).

(** [dirQueues()[dir]]. *)
Definition dirQueues (s : Simulation) (d : Arm) : nat :=
  length (List.filter (fun v => VPhase_eqb (phase v) approach && Arm_eqb (dir v) d)
                 (vehicles s)).

Definition avgWait (s : Simulation) : Q :=
  match passedCount s with
  | O => 0
  | S _ => totalWaitSec s / inject_Z (Z.of_nat (passedCount s))
  end.

(** [_gap(v)] over the other vehicles of the list; [PInf] is the
    initial [Infinity]. *)
Definition _gap (others : list Vehicle) (v : Vehicle) : JsNum :=
  fold_left
    (fun (mn : JsNum) (o : Vehicle) =>
       if negb (Arm_eqb (dir o) (dir v)) || negb (Lane_eqb (lane o) (lane v))
          || negb (VPhase_eqb (phase o) approach)
       then mn
       else
         let gap := match dir v with
                    | north => y v - y o - CONFIG.CAR_L
                    | south => y o - y v - CONFIG.CAR_L
                    | east => x o - x v - CONFIG.CAR_L
                    | west => x v - x o - CONFIG.CAR_L
                    end in
         if Qle_bool 0 gap && Js.lt (Fin gap) mn then Fin gap else mn)
    others PInf.

(** One step of [CAR_SPD] along the travel direction [d]. *)
Definition advance (v : Vehicle) (d : Arm) : Vehicle :=
  match d with
  | north => set_pos v (x v) (y v - CONFIG.CAR_SPD)
  | south => set_pos v (x v) (y v + CONFIG.CAR_SPD)
  | east => set_pos v (x v + CONFIG.CAR_SPD) (y v)
  | west => set_pos v (x v - CONFIG.CAR_SPD) (y v)
  end.
End Sim.

Section Engine.
Variable Math_sqrt : Q -> Q.
Variable StringToNumber : string -> JsNum.
(** [CONFIG.CLOUD_FN_URL]. *)
Variable CLOUD_FN_URL : string.

(** *** Movement *)

(** [_approach(v, dt)]; [others] are the vehicles of the list other
    than [v], in their current state. *)
Definition _approach (l : TrafficLight) (others : list Vehicle)
           (v : Vehicle) (dt : Q) : Vehicle :=
  let isGreen := Light.canGo l (dir v) (move v) in
  let atStop := pastStop v in
  if atStop && negb isGreen then
    set_waitSec (set_flags v true true) (waitSec v + dt)
  else
    let gap := Sim._gap others v in
    if Js.lt gap (Fin CONFIG.CAR_GAP) then set_flags v true false
    else
      let v1 := Sim.advance (set_flags v false false) (dir v) in
      if pastStop v1 && isGreen then
        let bp := buildPath v1 in
        let v2 := set_phase (fst bp) turning in
        let v3 := set_turnPath v2 (snd bp) (bezLen Math_sqrt (snd bp)) in
        let v4 := set_turnT v3 0 in
        let p := bezAt (snd bp) 0 in
        set_pos v4 (px p) (py p)
      else v1.

(** [_turn(v)].  A vehicle is in phase ['turning'] only after
    [buildPath]; with [turnPath = null] the source would throw, the
    model leaves the vehicle as it is.  A [null] exit lane is read as
    lane 0 by the arithmetic of [exitLaneY]. *)
Definition _turn (v : Vehicle) : Vehicle :=
  match turnPath v with
  | None => v
  | Some path =>
      let t0 := turnT v + CONFIG.CAR_SPD / _pLen v in
      let t := if Qle_bool 1 t0 then 1 else t0 in
      let p := bezAt path t in
      let v1 := set_pos (set_turnT v t) (px p) (py p) in
      if Qle_bool 1 t then
        let v2 := set_phase v1 exit in
        let el := match exitLane v with Some k => k | None => 0%Z end in
        match exitDir v with
        | Some north => set_pos v2 (exitLaneX north el) (y v2)
        | Some south => set_pos v2 (exitLaneX south el) (y v2)
        | Some east => set_pos v2 (x v2) (exitLaneY east el)
        | Some west | None => set_pos v2 (x v2) (exitLaneY west el)
        end
      else v1
  end.

(** [_exit(v)]: the vehicle and the simulation's accumulators. *)
Definition _exit (s : Simulation) (v : Vehicle) : Simulation * Vehicle :=
  let v1 := Sim.advance v (match exitDir v with Some d => d | None => west end) in
  if Qlt_bool (x v1) (-50) || Qlt_bool (W + 50) (x v1)
     || Qlt_bool (y v1) (-50) || Qlt_bool (W + 50) (y v1)
  then (count_passed s (waitSec v1), set_done v1 true)
  else (s, v1).

(** [_move(v, dt)]. *)
Definition _move (s : Simulation) (others : list Vehicle) (v : Vehicle) (dt : Q)
  : Simulation * Vehicle :=
  match phase v with
  | exit => _exit s v
  | turning => (s, _turn v)
  | approach => (s, _approach (light s) others v dt)
  end.

(** The loop [for (const v of this.vehicles) if (!v.done) this._move(v, dt)].
    The array is mutated in place: [before] holds the vehicles already
    visited, in their new state, [rest] those still to visit. *)
Fixpoint moveEach (s : Simulation) (before rest : list Vehicle) (dt : Q)
  : Simulation * list Vehicle :=
  match rest with
  | [] => (s, before)
  | v :: rest' =>
      let r := if done v then (s, v) else _move s (before ++ rest') v dt in
      moveEach (fst r) (before ++ [snd r]) rest' dt
  end.

(** *** Adaptive timing: [_callAI] *)

Definition clamp (n lo hi : JsNum) : JsNum := Js.max lo (Js.min hi n).

Definition cw : list Z := [1; 2; 3; 4]%Z.

(** [Object.entries(PHASE_NUM_MAP).find(([,v]) => v === contextPhase)?.[0] | 0];
    a [null] context is [None]. *)
Definition curIdOf (contextPhase : option string) : Z :=
  match contextPhase with
  | None => 0
  | Some k =>
      match List.find (fun e => String.eqb (snd e) k) PHASE_NUM_ENTRIES with
      | Some e => fst e
      | None => 0
      end
  end%Z.

Fixpoint indexOfZ (l : list Z) (k : Z) : option nat :=
  match l with
  | [] => None
  | h :: tl => if Z.eqb h k then Some 0%nat else option_map S (indexOfZ tl k)
  end.

(** [cw[(cw.indexOf(cur) + 1) % 4]] with [cur] forced into [cw]. *)
Definition nextClockwise (curId : Z) : Z :=
  let cur := match indexOfZ cw curId with Some _ => curId | None => 1%Z end in
  match indexOfZ cw cur with
  | Some i => nth ((i + 1) mod 4)%nat cw 0%Z
  | None => nth 0%nat cw 0%Z
  end.

(** [demand[id]]. *)
Definition demand (s : Simulation) (id : Z) : Q :=
  let q d mv := inject_Z (Z.of_nat (Sim.laneQueues s d mv)) in
  match id with
  | 1%Z => q north straight + q north right + (25 # 100) * q north left
  | 2%Z => q east straight + q east right + (25 # 100) * q east left
  | 3%Z => q south straight + q south right + (25 # 100) * q south left
  | 4%Z => q west straight + q west right + (25 # 100) * q west left
  | _ => 0
  end.

(** The heuristic target for a load. *)
Definition heuristicDur (load : Q) : JsNum :=
  clamp (Js.round (Fin (8 + load * (18 # 10)))) (Fin 5) (Fin 45).

(** The locals computed before the request is sent. *)
Definition prepare (s : Simulation) (contextPhase : option string) : Pending :=
  let next := nextClockwise (curIdOf contextPhase) in
  let load := demand s next in
  mkPending next load (heuristicDur load).

(** [heuristic(reason)]. *)
Definition heuristic (p : Pending) : Decision :=
  mkDecision (fixedNextId p) (targetDur p) Fallback.

(** The body of the [try] block once the [fetch] has settled. *)
Definition resolve (p : Pending) (r : FetchResult) : Decision :=
  match r with
  | Failed | Replied None => heuristic p
  | Replied (Some data) =>
      let fixedDur := Fin CONFIG.FIXED_GREEN in
      let aiDurRaw := Number StringToNumber (duration data) in
      let aiDur := clamp (Js.round (Js.or aiDurRaw fixedDur)) (Fin 5) (Fin 45) in
      let modelImproved :=
        match improved_over_fixed data with
        | VBool b => b
        | _ => Js.lt (Js.abs (Js.sub aiDur (targetDur p)))
                     (Js.abs (Js.sub fixedDur (targetDur p)))
        end in
      if Js.isFinite aiDurRaw && modelImproved
      then mkDecision (fixedNextId p) aiDur Accepted
      else if Js.isFinite aiDurRaw
      then mkDecision (fixedNextId p) fixedDur Rejected
      else heuristic p
  end.

(** [this.light.setNextPhase(id, dur); this.aiReason = ...]. *)
Definition applyDecision (s : Simulation) (d : Decision) : Simulation :=
  set_aiReason
    (set_light s (setNextPhase StringToNumber (light s)
                               (VNumber (Fin (inject_Z (d_next d)))) (VNumber (d_dur d))))
    (d_why d).

Definition includes (s sub : string) : bool :=
  match String.index 0 sub s with Some _ => true | None => false end.

Definition urlReady : bool :=
  negb (String.eqb CLOUD_FN_URL "")
  && negb (includes CLOUD_FN_URL "YOUR_")
  && negb (includes CLOUD_FN_URL "your_").

(** [_callAI(contextPhase)] up to its first [await]. *)
Definition callAI_begin (s : Simulation) (contextPhase : option string) : Simulation :=
  if aiPending s then s
  else
    let p := prepare s contextPhase in
    if negb urlReady
    then set_ai (applyDecision s (heuristic p)) false None
    else set_ai s true (Some p).

(** The continuation of [_callAI], run when the [fetch] settles. *)
Definition callAI_end (s : Simulation) (r : FetchResult) : Simulation :=
  match inflight s with
  | None => s
  | Some p => set_ai (applyDecision s (resolve p r)) false None
  end.

(** *** Tick *)

Definition tick (s : Simulation) (dt : Q) : Simulation :=
  let s1 := set_simTime s (simTime s + dt) in
  let lt := Light.tick (light s1) dt in
  let s2 := set_light s1 (fst lt) in
  let s3 := match snd lt with
            | Some ph => callAI_begin s2 (Some ph)
            | None => s2
            end in
  let mv := moveEach s3 [] (vehicles s3) dt in
  set_vehicles (fst mv) (List.filter (fun v => negb (done v)) (snd mv)).

(** Calls made on a simulation from outside. *)
Inductive Cmd :=
| Spawn (d : Arm) (l : Lane)
| Tick (dt : Q)
| CallAI (contextPhase : option string)
| Settle (r : FetchResult).

Definition exec (s : Simulation) (c : Cmd) : Simulation :=
  match c with
  | Spawn d l => Sim.spawn s d l
  | Tick dt => tick s dt
  | CallAI ctx => callAI_begin s ctx
  | Settle r => callAI_end s r
  end.

Definition run (s : Simulation) (cs : list Cmd) : Simulation :=
  fold_left exec cs s.
End Engine.

(* ================================================================= *)
(** ** Predicates used in the statements *)

(** [id] names the phase [k]: a number equal to one of the keys 1..10 of
    [PHASE_NUM_MAP], or the key string itself. *)
Definition names_phase (id : JsVal) (k : string) : Prop :=
  (exists (q : Q) (z : Z), id = VNumber (Fin q) /\ q == inject_Z z
                           /\ In (z, k) PHASE_NUM_ENTRIES)
  \/ (id = VString k /\ In k ALL_PHASES).

(** The calls that act on a [TrafficLight]. *)
Inductive LightOp :=
| LTick (dt : Q)
| LSetNextPhase (phaseId duration : JsVal).

Definition lightExec (S2N : string -> JsNum) (l : TrafficLight) (op : LightOp)
  : TrafficLight :=
  match op with
  | LTick dt => fst (Light.tick l dt)
  | LSetNextPhase id d => setNextPhase S2N l id d
  end.

(** A stored duration is a finite number of seconds within [lo, hi]. *)
Definition within (lo hi : Q) (n : JsNum) : Prop :=
  exists q : Q, n = Fin q /\ lo <= q <= hi.

(** Every stored green duration lies in [5, 60], each of the ten phases
    has one, and the current phase is one of the ten. *)
Definition durations_ok (l : TrafficLight) : Prop :=
  map_Forall (fun _ d => within 5 60 d) (greenDur l)
  /\ (forall k, In k ALL_PHASES -> exists d, greenDur l !! k = Some d)
  /\ In (_phaseKey l) ALL_PHASES
  /\ (forall k, _nextOverride l = Some k -> In k ALL_PHASES).

(** The clockwise successor of a phase in the rotation N, E, S, W, as
    the specification words it. *)
Definition cwSuccessor (ph : string) : option string :=
  match Light.indexOf FIXED_PHASE_SEQ ph with
  | Some i => FIXED_PHASE_SEQ !! ((i + 1) mod length FIXED_PHASE_SEQ)%nat
  | None => None
  end.

(** The heuristic target as the specification words it:
    round(8 + demand * 1.8), clamped to 5..45 seconds. *)
Definition spec_target (load : Q) : Z :=
  Z.max 5 (Z.min 45 (Qfloor (8 + load * (18 # 10) + (1 # 2)))).

(** The request fails, the body is [null], or the duration of the reply
    converts to [NaN] or an infinity. *)
Definition no_usable_duration (S2N : string -> JsNum) (r : FetchResult) : Prop :=
  match r with
  | Failed | Replied None => True
  | Replied (Some data) => Js.isFinite (Number S2N (duration data)) = false
  end.

(** The fixed exit table as the specification words it: the exit arm
    of a movement, and the lane of the exit arm counted from the centre
    line (0 inner, 1 middle, 2 outer). *)
Definition spec_exit_arm (d : Arm) (mv : Movement) : Arm :=
  match mv with
  | left => LEFT_D d
  | straight => d
  | right => RIGHT_D d
  end.

Definition spec_exit_band (mv : Movement) : Z :=
  match mv with left => 2 | straight => 1 | right => 0 end.

(** The coordinate across the exit arm at which exit lane [k] lies, as
    [_turn] and [buildPath] compute it. *)
Definition exitCoord (d : Arm) (k : Z) : Q :=
  match d with
  | north | south => exitLaneX d k
  | east | west => exitLaneY d k
  end.

(** The coordinate of a point across the travel axis of arm [d]. *)
Definition lateral (d : Arm) (p : Point) : Q :=
  match d with
  | north | south => px p
  | east | west => py p
  end.

(** The lane strip, counted from the centre line, a coordinate across
    the road lies in. *)
Definition laneBand (c : Q) : Z := Qfloor (Qabs (c - MID) / CONFIG.LANE_W).

(** A vehicle that leaves in this tick, as the specification words it:
    it is in the exit phase and one step along its exit arm takes it
    past the extended boundary, 50 px beyond the canvas. *)
Definition leavesBounds (v : Vehicle) : bool :=
  let v1 := Sim.advance v (match exitDir v with Some d => d | None => west end) in
  VPhase_eqb (phase v) exit && negb (done v)
  && (Qlt_bool (x v1) (-50) || Qlt_bool (W + 50) (x v1)
      || Qlt_bool (y v1) (-50) || Qlt_bool (W + 50) (y v1)).

(** Total of the accumulated waits of a list of vehicles. *)
Definition sumWait (l : list Vehicle) : Q :=
  fold_right (fun v a => waitSec v + a) 0 l.

(** How far the leading edge of a vehicle lies past the stop coordinate
    of its arm, measured along the direction of travel (negative while
    the vehicle is still short of it). *)
Definition overshoot (v : Vehicle) : Q :=
  let s := val (stopCoord (dir v)) in
  let half := CONFIG.CAR_L * (1 # 2) in
  match dir v with
  | north => s - (y v - half)
  | south => (y v + half) - s
  | east => (x v + half) - s
  | west => s - (x v - half)
  end.

(** The distance of the stop coordinate from the edge of the
    intersection box: half a car length plus the safety margin. *)
Definition stopMargin : Q := CONFIG.CAR_L * (1 # 2) + 3.

(** An approaching vehicle is less than one step past its stop
    coordinate. *)
Definition approach_ok (v : Vehicle) : Prop :=
  phase v = approach -> overshoot v < CONFIG.CAR_SPD.

(** The simulation and the vehicles array as the loop
    [for (const v of this.vehicles) if (!v.done) this._move(v, dt)] of
    [Simulation.tick] leaves them, before the vehicles that are done
    are filtered out: the array has the vehicles of the state before
    the tick, each in its new state, in the same order. *)
Definition tickLoop (sq : Q -> Q) (S2N : string -> JsNum) (url : string)
           (s : Simulation) (dt : Q) : Simulation * list Vehicle :=
  let s1 := set_simTime s (simTime s + dt) in
  let lt := Light.tick (light s1) dt in
  let s2 := set_light s1 (fst lt) in
  let s3 := match snd lt with
            | Some ph => callAI_begin S2N url s2 (Some ph)
            | None => s2
            end in
  moveEach sq s3 [] (vehicles s3) dt.

(** A vehicle that was approaching before a step and is not after it
    had a green signal for its movement on light [l]. *)
Definition entered_on_green (l : TrafficLight) (v v' : Vehicle) : Prop :=
  phase v = approach -> phase v' <> approach ->
  Light.canGo l (dir v) (move v) = true /\ phase v' = turning.

(** Two scheduled entries, and two spawners, hold the same values:
    times are compared as numbers. *)
Definition same_sched (a b : Sched) : Prop :=
  time a == time b /\ s_dir a = s_dir b /\ s_lane a = s_lane b.

Definition same_master (a b : TrafficMaster) : Prop :=
  _seed a = _seed b /\ Forall2 same_sched (_queue a) (_queue b) /\ _t a == _t b.

(** The controller of a simulation stays within the rotation N, E, S,
    W: its current phase, its pending override and the next phase of a
    request in flight. *)
Definition rotation_ok (s : Simulation) : Prop :=
  In (_phaseKey (light s)) FIXED_PHASE_SEQ
  /\ (forall k, _nextOverride (light s) = Some k -> In k FIXED_PHASE_SEQ)
  /\ (forall p, inflight s = Some p -> In (fixedNextId p) cw).

(* ================================================================= *)
(** ** Further operations and predicates *)

(** The state a spawner is left in by one call, and by a call
    sequence. *)
Definition masterExec (m : TrafficMaster) (c : Master.Call) : TrafficMaster :=
  match c with
  | Master.CTick dt => fst (Master.tick m dt)
  | Master.CInjectDir d => Master.injectDir m d
  | Master.CBulkAdd tg n => Master.bulkAdd m tg n
  end.

Definition masterRun (m : TrafficMaster) (cs : list Master.Call) : TrafficMaster :=
  fold_left masterExec cs m.

(** The event [{dir, lane}] that [tick] pushes for a scheduled entry. *)
Definition toEvent (e : Sched) : Event := mkEvent (s_dir e) (s_lane e).

(** Ascending order of times. *)
Definition time_le (a b : Sched) : Prop := time a <= time b.

(** One generator step on the integers, without the 32-bit detour. *)
Definition lcg_next (s : Z) : Z := ((1664525 * s + 1013904223) mod 2 ^ 32)%Z.

(** [remaining()]: seconds left in the current sub-phase; an
    [undefined] duration makes the difference [NaN]. *)
Definition remaining (l : TrafficLight) : JsNum :=
  Js.max (Fin 0)
         (Js.sub (match Light.dur l with Some d => d | None => NaN end) (Fin (timer l))).

(** The rotation pointer agrees with the current phase whenever that
    phase belongs to the rotation. *)
Definition pointer_ok (l : TrafficLight) : Prop :=
  (_seqIdx l < length Light._seq)%nat
  /\ (In (_phaseKey l) Light._seq -> Light._seq !! _seqIdx l = Some (_phaseKey l)).

(** The coordinate across the road of approach lane [l] of arm [d]. *)
Definition laneCoord (d : Arm) (l : Lane) : Q :=
  match d with
  | north | south => laneX d l
  | east | west => laneY d l
  end.

(** The coordinate of a point along the travel axis of arm [d]. *)
Definition along (d : Arm) (p : Point) : Q :=
  match d with
  | north | south => py p
  | east | west => px p
  end.

(** What holds of a vehicle in each phase of its life cycle: its
    movement is that of its lane; while approaching it is on its lane
    line; while turning it has a path of length at least 1, a progress
    in [0, 1) and its exit arm and lane; once exiting it is on the line
    of its exit lane. *)
Definition lifecycle_ok (v : Vehicle) : Prop :=
  move v = LANE_MOVE (lane v)
  /\ match phase v with
     | approach =>
         lateral (dir v) (mkPoint (x v) (y v)) = laneCoord (dir v) (lane v)
     | turning =>
         (exists p, turnPath v = Some p) /\ 1 <= _pLen v
         /\ 0 <= turnT v /\ turnT v < 1
         /\ exitDir v = Some (exitDirMap (dir v) (lane v))
         /\ exitLane v = Some (exitLaneMap (dir v) (lane v))
     | exit =>
         exitDir v = Some (exitDirMap (dir v) (lane v))
         /\ exitLane v = Some (exitLaneMap (dir v) (lane v))
         /\ lateral (exitDirMap (dir v) (lane v)) (mkPoint (x v) (y v))
            = exitCoord (exitDirMap (dir v) (lane v)) (exitLaneMap (dir v) (lane v))
     end.

(** Number of [spawn] calls in a command sequence. *)
Definition spawnCount (cs : list Cmd) : nat :=
  length (List.filter (fun c => match c with Spawn _ _ => true | _ => false end) cs).

(** Bumper-to-bumper gap from [v] to a vehicle [o] ahead of it, as
    [_gap] computes it. *)
Definition gapTo (v o : Vehicle) : Q :=
  match dir v with
  | north => y v - y o - CONFIG.CAR_L
  | south => y o - y v - CONFIG.CAR_L
  | east => x o - x v - CONFIG.CAR_L
  | west => x v - x o - CONFIG.CAR_L
  end.

(** [o] is one of the vehicles [_gap] looks at for [v]. *)
Definition sameQueue (v o : Vehicle) : bool :=
  Arm_eqb (dir o) (dir v) && Lane_eqb (lane o) (lane v) && VPhase_eqb (phase o) approach.

(** [r] is a finite number not above [g]. *)
Definition atMost (r : JsNum) (g : Q) : Prop :=
  match r with Fin q => q <= g | _ => False end.

(** The reply carries no boolean [improved_over_fixed]. *)
Definition no_flag (r : FetchResult) : Prop :=
  match r with
  | Replied (Some data) =>
      match improved_over_fixed data with VBool _ => False | _ => True end
  | _ => True
  end.

(** The time steps of the [tick] calls of a command sequence, in order. *)
Definition tickSteps (cs : list Cmd) : list Q :=
  flat_map (fun c => match c with Tick dt => [dt] | _ => [] end) cs.

(** The command is a [spawn] or a [tick]. *)
Definition plain (c : Cmd) : Prop :=
  match c with Spawn _ _ | Tick _ => True | _ => False end.

(** [_detectJams()]: the flag it stores for arm [d]. *)
Definition _detectJams (s : Simulation) (d : Arm) : bool :=
  let T := CONFIG.JAM_THRESHOLD in
  let hl := CONFIG.CAR_L / 2 in
  existsb (fun v =>
             VPhase_eqb (phase v) approach && Arm_eqb (dir v) d
             && match d with
                | north => Qle_bool (W - T) (y v + hl)
                | south => Qle_bool (y v - hl) T
                | east => Qle_bool (x v - hl) T
                | west => Qle_bool (W - T) (x v + hl)
                end)
          (vehicles s).

(* ================================================================= *)
(** ** The advisory endpoint (functions/index.js) *)

(** Truthiness of a value, [a || b] and [a ?? b] on values. *)
Definition truthyV (v : JsVal) : bool :=
  match v with
  | VUndefined | VNull => false
  | VBool b => b
  | VNumber n => Js.truthy n
  | VString s => negb (String.eqb s "")
  | VObject _ => true
  end.

Definition orV (a b : JsVal) : JsVal := if truthyV a then a else b.

Definition nullish (a b : JsVal) : JsVal :=
  match a with VUndefined | VNull => b | _ => a end.

(** [a + b], [a * b] and [a !== b] on numbers. *)
Definition Js_add (a b : JsNum) : JsNum :=
  match a, b with
  | NaN, _ | _, NaN => NaN
  | Fin p, Fin q => Fin (p + q)
  | PInf, NInf | NInf, PInf => NaN
  | PInf, _ | _, PInf => PInf
  | NInf, _ | _, NInf => NInf
  end.

Definition Js_sign_mul (pos : bool) (q : Q) : JsNum :=
  if Qeq_bool q 0 then NaN
  else if Qlt_bool 0 q then (if pos then PInf else NInf)
       else (if pos then NInf else PInf).

Definition Js_mul (a b : JsNum) : JsNum :=
  match a, b with
  | NaN, _ | _, NaN => NaN
  | Fin p, Fin q => Fin (p * q)
  | PInf, Fin q | Fin q, PInf => Js_sign_mul true q
  | NInf, Fin q | Fin q, NInf => Js_sign_mul false q
  | PInf, PInf | NInf, NInf => PInf
  | PInf, NInf | NInf, PInf => NInf
  end.

Definition Js_strictNe (a b : JsNum) : bool :=
  match a, b with
  | NaN, _ | _, NaN => true
  | Fin p, Fin q => negb (Qeq_bool p q)
  | PInf, PInf | NInf, NInf => false
  | _, _ => true
  end.

Module FN_CONFIG.
Definition MIN_GREEN  : Q := 5.
Definition MAX_GREEN  : Q := 15.
Definition BASE_GREEN : Q := 15.
End FN_CONFIG.

(** What the handler sends back: [next_phase], [duration] and, on the
    fallback path only, [improved_over_fixed]. *)
Record ServerReply := mkServerReply {
  r_next     : Z;
  r_duration : JsNum;
  r_improved : option bool
}.

Section Endpoint.
Variable StringToNumber : string -> JsNum.

(** [Number(b.current_phase_id || b.current_phase || b.ended_phase || 0)]. *)
Definition currentPhaseId (current_phase_id current_phase ended_phase : JsVal) : JsNum :=
  Number StringToNumber
         (orV (orV (orV current_phase_id current_phase) ended_phase) (VNumber (Fin 0))).

(** [cw.indexOf(n)] on numbers; [None] is [-1]. *)
Fixpoint indexOfNum (l : list Z) (n : JsNum) : option nat :=
  match l with
  | [] => None
  | h :: tl =>
      if match n with Fin q => Qeq_bool q (inject_Z h) | _ => false end
      then Some 0%nat else option_map S (indexOfNum tl n)
  end.

(** [cw[(cw.indexOf(cur) + 1) % 4]] with
    [cur = cw.includes(currentPhaseId) ? currentPhaseId : 1]. *)
Definition serverNextId (currentPhase : JsNum) : Z :=
  let cur := match indexOfNum cw currentPhase with
             | Some _ => currentPhase
             | None => Fin 1
             end in
  match indexOfNum cw cur with
  | Some i => nth ((i + 1) mod 4)%nat cw 0%Z
  | None => nth 0%nat cw 0%Z
  end.

(** [fixedGreen], from [b.fixed_green]. *)
Definition serverFixedGreen (fixed_green : JsVal) : JsNum :=
  clamp (Js.round
           (Js.or (Number StringToNumber
                          (nullish fixed_green (VNumber (Fin FN_CONFIG.BASE_GREEN))))
                  (Fin FN_CONFIG.BASE_GREEN)))
        (Fin FN_CONFIG.MIN_GREEN) (Fin FN_CONFIG.MAX_GREEN).

(** The reply on the success path, for the [duration] of the model's
    JSON object. *)
Definition serverSuccess (next : Z) (fixedGreen : JsNum) (duration : JsVal)
  : ServerReply :=
  let durRaw := Number StringToNumber duration in
  let durNum := clamp (Js.round (Js.or durRaw fixedGreen))
                      (Fin FN_CONFIG.MIN_GREEN) (Fin FN_CONFIG.MAX_GREEN) in
  mkServerReply next durNum None.

(** [fallback(reason)], for the number [demand[fixedNextId]]. *)
Definition serverFallback (next : Z) (fixedGreen : JsNum) (demandNext : JsNum)
  : ServerReply :=
  let load := Js.or demandNext (Fin 0) in
  let targetDur := clamp (Js.round (Js_add (Fin 8) (Js_mul load (Fin (18 # 10)))))
                         (Fin FN_CONFIG.MIN_GREEN) (Fin FN_CONFIG.MAX_GREEN) in
  mkServerReply next targetDur (Some (Js_strictNe targetDur fixedGreen)).
End Endpoint.

(** The reply body as the client parses it; [why] is the text of its
    [reason]. *)
Definition asReply (sr : ServerReply) (why : string) : Reply :=
  mkReply (VNumber (r_duration sr))
          (match r_improved sr with Some b => VBool b | None => VUndefined end)
          (VNumber (Fin (inject_Z (r_next sr))))
          (VString why).

(** A reply that one of the two paths of the handler produces. *)
Definition server_reply (S2N : string -> JsNum) (sr : ServerReply) : Prop :=
  exists (cur : JsNum) (fg : JsVal),
    (exists duration, sr = serverSuccess S2N (serverNextId cur)
                                         (serverFixedGreen S2N fg) duration)
    \/ (exists dm, sr = serverFallback (serverNextId cur) (serverFixedGreen S2N fg) dm).

(** The vehicle after [n] calls of [_move] in a row. *)
Definition moveSteps (sq : Q -> Q) (s : Simulation) (others : list Vehicle) (dt : Q)
           (n : nat) (v : Vehicle) : Vehicle :=
  Nat.iter n (fun u => snd (_move sq s others u dt)) v.

(* ================================================================= *)
(** * Properties *)

(** ** Phase predicates *)

Lemma In_ALL_PHASES_cases (ph : string) :
  In ph ALL_PHASES ->
  ph = PH.N \/ ph = PH.E \/ ph = PH.S \/ ph = PH.W \/ ph = PH.NS_S \/ ph = PH.NS_L
  \/ ph = PH.NS_R \/ ph = PH.EW_S \/ ph = PH.EW_L \/ ph = PH.EW_R.
Proof.
  unfold ALL_PHASES; simpl; intuition.
Qed.

(** C1, counterexample.  In the single-arm phase ['n'] the perpendicular
    arms north and east are green together: north straight (the phase's
    own arm) and east left (left turns of the other arms). *)
Lemma phaseAllows_perpendicular_both_green :
  In PH.N ALL_PHASES /\ perpendicular north east = true
  /\ phaseAllows PH.N north straight = true
  /\ phaseAllows PH.N east left = true.
Proof.
  repeat split; try reflexivity. unfold ALL_PHASES; simpl; auto.
Qed.

(** C1, amended.  For every phase of the ten-phase catalog and every
    pair of perpendicular arms, two movements are green together only
    in a single-arm phase, and then at least one of them is a left turn
    on an arm other than the phase's own arm; in particular the six
    paired-axis phases never show green to two perpendicular arms. *)
Theorem phaseAllows_conflicts_only_left (ph : string) (a1 a2 : Arm) (m1 m2 : Movement) :
  In ph ALL_PHASES ->
  perpendicular a1 a2 = true ->
  phaseAllows ph a1 m1 = true ->
  phaseAllows ph a2 m2 = true ->
  In ph FIXED_PHASE_SEQ
  /\ ((m1 = left /\ mainArm ph <> Some a1) \/ (m2 = left /\ mainArm ph <> Some a2)).
Proof.
  intros Hin Hperp H1 H2.
  apply In_ALL_PHASES_cases in Hin.
  repeat (destruct Hin as [-> | Hin]); try subst ph;
    destruct a1, a2; try discriminate Hperp;
    destruct m1; try discriminate H1;
    destruct m2; try discriminate H2;
    (split; [unfold FIXED_PHASE_SEQ; simpl; tauto
            | first [ left; split; [reflexivity | discriminate]
                    | right; split; [reflexivity | discriminate] ] ]).
Qed.

Lemma phaseAllows_conflicts_only_left_witness :
  In PH.N FIXED_PHASE_SEQ
  /\ ((straight = left /\ mainArm PH.N <> Some north)
      \/ (left = left /\ mainArm PH.N <> Some east)).
Proof.
  apply (phaseAllows_conflicts_only_left PH.N north east straight left).
  - unfold ALL_PHASES; simpl; auto.
  - reflexivity.
  - reflexivity.
  - reflexivity.
Defined.

(** Paired-axis phases are conflict-free on perpendicular arms. *)
Lemma paired_phases_conflict_free (ph : string) (a1 a2 : Arm) (m1 m2 : Movement) :
  In ph AI_PHASE_SEQ ->
  perpendicular a1 a2 = true ->
  phaseAllows ph a1 m1 && phaseAllows ph a2 m2 = false.
Proof.
  unfold AI_PHASE_SEQ; simpl; intros Hin Hperp.
  repeat (destruct Hin as [<- | Hin]); try contradiction;
    destruct a1, a2; try discriminate Hperp; destruct m1, m2; reflexivity.
Qed.

(* ================================================================= *)
(** ** Comparisons on [Q] *)

Lemma Qle_bool_false (a b : Q) : Qle_bool a b = false -> b < a.
Proof.
  intros H. apply Qnot_le_lt. intros Hle.
  apply Qle_bool_iff in Hle. congruence.
Qed.

Lemma Qlt_bool_true (a b : Q) : Qlt_bool a b = true <-> a < b.
Proof.
  unfold Qlt_bool. split.
  - intros H. apply Qle_bool_false. now destruct (Qle_bool b a).
  - intros H. destruct (Qle_bool b a) eqn:E; [| reflexivity].
    apply Qle_bool_iff in E. lra.
Qed.

Lemma Qlt_bool_false (a b : Q) : Qlt_bool a b = false <-> b <= a.
Proof.
  unfold Qlt_bool. split.
  - intros H. apply Qle_bool_iff. now destruct (Qle_bool b a).
  - intros H. apply Qle_bool_iff in H. now rewrite H.
Qed.

Ltac qcases :=
  repeat match goal with
  | |- context [Qle_bool ?a ?b] =>
      let E := fresh "E" in
      destruct (Qle_bool a b) eqn:E;
      [apply Qle_bool_iff in E | apply Qle_bool_false in E]
  | |- context [Qlt_bool ?a ?b] =>
      let E := fresh "E" in
      destruct (Qlt_bool a b) eqn:E;
      [apply Qlt_bool_true in E | apply Qlt_bool_false in E]
  end.

(** [Math.round] stays within half a unit. *)
Lemma round_bounds (q : Q) :
  q - (1 # 2) < inject_Z (Qfloor (q + (1 # 2))) <= q + (1 # 2).
Proof.
  pose proof (Qfloor_le (q + (1 # 2))).
  pose proof (Qlt_floor (q + (1 # 2))) as Hlt.
  rewrite inject_Z_plus in Hlt. change (inject_Z 1) with 1 in Hlt.
  split; lra.
Qed.

Lemma inject_Z_le_iff (a b : Z) : inject_Z a <= inject_Z b <-> (a <= b)%Z.
Proof. now rewrite <- Zle_Qle. Qed.

(* ================================================================= *)
(** ** TrafficLight: phase-end notification *)

(** C6, counterexample.  With a callback installed, the tick that takes
    the light from green to yellow calls nothing; the call comes with the
    next transition, yellow to all-red. *)
Lemma onPhaseEnd_not_at_green_to_yellow :
  let l0 := light (Sim.new ai) in
  let r1 := Light.tick l0 15 in
  let r2 := Light.tick (fst r1) 3 in
  onPhaseEnd l0 = true
  /\ subPhase l0 = green /\ subPhase (fst r1) = yellow /\ snd r1 = None
  /\ subPhase (fst r2) = allred /\ snd r2 = Some PH.N.
Proof.
  vm_compute. repeat split; reflexivity.
Qed.

(** C6, amended.  [tick] calls [onPhaseEnd] exactly at the transition
    from yellow to all-red (and only when a callback is installed); the
    argument is the key of the phase that is ending, which is still the
    current phase after the transition. *)
Theorem onPhaseEnd_exactly_at_yellow_to_allred (l : TrafficLight) (dt : Q) (k : string) :
  snd (Light.tick l dt) = Some k
  <-> (onPhaseEnd l = true /\ subPhase l = yellow
       /\ subPhase (fst (Light.tick l dt)) = allred
       /\ k = _phaseKey l /\ _phaseKey (fst (Light.tick l dt)) = k).
Proof.
  unfold Light.tick.
  destruct (Light.timer_lt (timer l + dt) (Light.dur l)) eqn:Hlt.
  - simpl. split; [discriminate |].
    intros (_ & Hy & Ha & _). rewrite Hy in Ha. discriminate.
  - destruct (subPhase l) eqn:Hs.
    + simpl. split; [discriminate | intros (_ & Hy & _); discriminate].
    + simpl. destruct (onPhaseEnd l).
      * split.
        -- intros [= <-]. repeat split; reflexivity.
        -- intros (_ & _ & _ & -> & _). reflexivity.
      * split; [discriminate | intros (Hc & _); discriminate].
    + destruct (_nextOverride l); simpl;
        (split; [discriminate | intros (_ & Hy & _); discriminate]).
Qed.

(* ================================================================= *)
(** ** TrafficLight: [setNextPhase] *)

Lemma PHASE_NUM_MAP_spec (z : Z) (k : string) :
  PHASE_NUM_MAP z = Some k <-> In (z, k) PHASE_NUM_ENTRIES.
Proof.
  unfold PHASE_NUM_MAP, PHASE_NUM_ENTRIES. split.
  - intros H. cbv [List.find fst] in H.
    repeat match type of H with
           | context [Z.eqb ?a z] =>
               destruct (Z.eqb_spec a z) as [<- |];
               [injection H as <-; simpl; tauto |]
           end.
    discriminate.
  - simpl. intros H.
    repeat (destruct H as [[= <- <-] | H]; [reflexivity |]). contradiction.
Qed.

Lemma PHASE_NUM_MAP_known (z : Z) (k : string) :
  PHASE_NUM_MAP z = Some k -> In k ALL_PHASES.
Proof.
  intros H. apply PHASE_NUM_MAP_spec in H. simpl in H.
  repeat (destruct H as [[= <- <-] | H]; [unfold ALL_PHASES; simpl; tauto |]).
  contradiction.
Qed.

Lemma includes_In (l : list string) (k : string) :
  Light.includes l k = true <-> In k l.
Proof.
  unfold Light.includes. induction l as [| h tl IH]; simpl.
  - split; [discriminate | contradiction].
  - destruct (String.eqb_spec h k) as [-> | Hne].
    + split; auto.
    + destruct (Light.indexOf tl k); simpl in *.
      * split; intros _; [right; apply IH; reflexivity | reflexivity].
      * split; [discriminate |].
        intros [? | Hin]; [congruence | apply IH in Hin; discriminate].
Qed.

Lemma Qeq_floor_integer (q : Q) (z : Z) : q == inject_Z z -> Qfloor q = z.
Proof.
  intros H. rewrite H. apply Qfloor_Z.
Qed.

Lemma phaseOfNumber_spec (n : JsNum) (k : string) :
  Light.phaseOfNumber n = Some k <-> names_phase (VNumber n) k.
Proof.
  unfold Light.phaseOfNumber, names_phase. split.
  - destruct n as [q | | |]; try discriminate.
    destruct (Qeq_bool q (inject_Z (Qfloor q))) eqn:E; [| discriminate].
    intros H. left. exists q, (Qfloor q). split; [reflexivity |].
    split; [now apply Qeq_bool_iff | now apply PHASE_NUM_MAP_spec].
  - intros [(q & z & [= ->] & Hq & Hin) | [[=] _]].
    rewrite (Qeq_floor_integer q z Hq).
    assert (Qeq_bool q (inject_Z z) = true) as -> by now apply Qeq_bool_iff.
    now apply PHASE_NUM_MAP_spec.
Qed.

Lemma names_phase_known (id : JsVal) (k : string) :
  names_phase id k -> In k ALL_PHASES.
Proof.
  intros [(q & z & _ & _ & Hin) | [_ Hin]]; [| exact Hin].
  apply PHASE_NUM_MAP_spec in Hin. now apply PHASE_NUM_MAP_known in Hin.
Qed.

(** The value [setNextPhase] stores for a [duration] argument. *)
Lemma setNextPhase_known (S2N : string -> JsNum) (l : TrafficLight)
      (id d : JsVal) (k : string) :
  names_phase id k ->
  setNextPhase S2N l id d =
  mkLight (l_mode l) (subPhase l) (timer l) (_seqIdx l) (_phaseKey l)
          (<[k := Js.max (Fin 5)
                    (Js.min (Fin 60)
                       (Js.round (Js.or (Number S2N d) (Fin CONFIG.FIXED_GREEN))))]>
             (greenDur l))
          (Some k) (onPhaseEnd l).
Proof.
  intros H. unfold setNextPhase. destruct H as [(q & z & -> & Hq & Hin) | [-> Hin]].
  - assert (Light.phaseOfNumber (Fin q) = Some k) as ->; [| reflexivity].
    apply phaseOfNumber_spec. left. now exists q, z.
  - apply includes_In in Hin. now rewrite Hin.
Qed.

Lemma setNextPhase_unknown (S2N : string -> JsNum) (l : TrafficLight) (id d : JsVal) :
  (forall k, ~ names_phase id k) -> setNextPhase S2N l id d = l.
Proof.
  intros H. unfold setNextPhase. destruct id as [| | b | n | s | n]; try reflexivity.
  - destruct (Light.phaseOfNumber n) as [k |] eqn:E; [| reflexivity].
    apply phaseOfNumber_spec in E. now apply H in E.
  - destruct (Light.includes ALL_PHASES s) eqn:E; [| reflexivity].
    exfalso. apply (H s). right. split; [reflexivity | now apply includes_In].
Qed.

(** Whatever the argument converts to, the stored duration is a finite
    number in [5, 60]. *)
Lemma stored_duration_range (n : JsNum) :
  within 5 60
    (Js.max (Fin 5) (Js.min (Fin 60) (Js.round (Js.or n (Fin CONFIG.FIXED_GREEN))))).
Proof.
  unfold within, Js.or, Js.truthy.
  destruct n as [q | | |].
  - destruct (Qeq_bool q 0); cbn [negb].
    + exists 15. split; [reflexivity | lra].
    + cbn [Js.round Js.min Js.max]. qcases; eexists; (split; [reflexivity | lra]).
  - exists 15. split; [reflexivity | lra].
  - exists 60. split; [reflexivity | lra].
  - exists 5. split; [reflexivity | lra].
Qed.

Lemma stored_duration_low (q : Q) :
  ~ q == 0 -> q < 5 ->
  Js.max (Fin 5) (Js.min (Fin 60) (Js.round (Js.or (Fin q) (Fin CONFIG.FIXED_GREEN))))
  = Fin 5.
Proof.
  intros Hnz Hlt. unfold Js.or, Js.truthy.
  destruct (Qeq_bool q 0) eqn:E; [apply Qeq_bool_iff in E; contradiction |].
  cbn [negb Js.round]. pose proof (round_bounds q) as [_ Hr].
  set (r := Qfloor (q + (1 # 2))) in *.
  assert (r <= 5)%Z as Hr5.
  { assert (inject_Z r < inject_Z 6) as H6 by (change (inject_Z 6) with 6; lra).
    rewrite <- Zlt_Qlt in H6. lia. }
  assert (inject_Z r <= 5) as Hq5.
  { change 5 with (inject_Z 5). now rewrite <- Zle_Qle. }
  assert (Qle_bool 60 (inject_Z r) = false) as H60.
  { destruct (Qle_bool 60 (inject_Z r)) eqn:E60; [| reflexivity].
    apply Qle_bool_iff in E60. lra. }
  cbn [Js.min]. rewrite H60. cbn [Js.max].
  destruct (Qle_bool 5 (inject_Z r)) eqn:E5; [| reflexivity].
  apply Qle_bool_iff in E5. change 5 with (inject_Z 5) in E5.
  rewrite <- Zle_Qle in E5. replace r with 5%Z by lia. reflexivity.
Qed.

Lemma stored_duration_high (q : Q) :
  60 < q ->
  Js.max (Fin 5) (Js.min (Fin 60) (Js.round (Js.or (Fin q) (Fin CONFIG.FIXED_GREEN))))
  = Fin 60.
Proof.
  intros Hgt. unfold Js.or, Js.truthy.
  destruct (Qeq_bool q 0) eqn:E; [apply Qeq_bool_iff in E; lra |].
  cbn [negb Js.round]. pose proof (round_bounds q) as [Hr _].
  set (r := Qfloor (q + (1 # 2))) in *.
  assert (60 <= r)%Z as Hr60.
  { assert (inject_Z 59 < inject_Z r) as H59 by (change (inject_Z 59) with 59; lra).
    rewrite <- Zlt_Qlt in H59. lia. }
  assert (Qle_bool 60 (inject_Z r) = true) as H60.
  { apply Qle_bool_iff. change 60 with (inject_Z 60). now rewrite <- Zle_Qle. }
  cbn [Js.min]. rewrite H60. reflexivity.
Qed.

(** C7, counterexample.  A known phase with the out-of-range duration
    100 changes the light: the duration of ['e'] goes from 15 to 60 and
    ['e'] becomes the pending override. *)
Lemma setNextPhase_out_of_range_changes_state :
  let l := Light.new baseline in
  let l' := setNextPhase (fun _ => NaN) l (VString PH.E) (VNumber (Fin 100)) in
  greenDur l !! PH.E = Some (Fin 15) /\ greenDur l' !! PH.E = Some (Fin 60)
  /\ _nextOverride l = None /\ _nextOverride l' = Some PH.E.
Proof.
  vm_compute. repeat split; reflexivity.
Qed.

(** C7, amended.  A call with an unknown phase id is a no-op.  A call
    with a known phase id and an out-of-range (non-zero) duration is
    applied after clamping: below 5 the phase's green duration becomes
    5, above 60 it becomes 60, and the phase becomes the pending
    override; the other phases' durations, the current phase, the
    sub-phase, the timer and the rotation index are unchanged. *)
Theorem setNextPhase_noop_or_clamped (S2N : string -> JsNum) (l : TrafficLight)
        (id d : JsVal) :
  ((forall k, ~ names_phase id k) -> setNextPhase S2N l id d = l)
  /\ (forall (k : string) (q : Q),
        names_phase id k -> Number S2N d = Fin q -> ~ q == 0 ->
        let l' := setNextPhase S2N l id d in
        (q < 5 -> greenDur l' !! k = Some (Fin 5))
        /\ (60 < q -> greenDur l' !! k = Some (Fin 60))
        /\ _nextOverride l' = Some k
        /\ (forall k', k' <> k -> greenDur l' !! k' = greenDur l !! k')
        /\ _phaseKey l' = _phaseKey l /\ subPhase l' = subPhase l
        /\ timer l' = timer l /\ _seqIdx l' = _seqIdx l).
Proof.
  split; [apply setNextPhase_unknown |].
  intros k q Hk Hq Hnz l'. subst l'.
  rewrite (setNextPhase_known S2N l id d k Hk). simpl. rewrite Hq.
  repeat split.
  - intros Hlt. rewrite lookup_insert_eq. f_equal. now apply stored_duration_low.
  - intros Hgt. rewrite lookup_insert_eq. f_equal. now apply stored_duration_high.
  - intros k' Hne. now rewrite lookup_insert_ne.
Qed.

Lemma setNextPhase_noop_or_clamped_witness :
  setNextPhase (fun _ => NaN) (Light.new ai) (VString "x") (VNumber (Fin 100))
  = Light.new ai
  /\ greenDur (setNextPhase (fun _ => NaN) (Light.new ai) (VNumber (Fin 2))
                            (VNumber (Fin 100))) !! PH.E = Some (Fin 60).
Proof.
  pose proof (setNextPhase_noop_or_clamped (fun _ => NaN) (Light.new ai)
                (VString "x") (VNumber (Fin 100))) as [Hnoop _].
  pose proof (setNextPhase_noop_or_clamped (fun _ => NaN) (Light.new ai)
                (VNumber (Fin 2)) (VNumber (Fin 100))) as [_ Hclamp].
  split.
  - apply Hnoop. intros k [(q & z & [=] & _) | [[= <-] Hin]].
    unfold ALL_PHASES in Hin; simpl in Hin.
    repeat (destruct Hin as [[=] | Hin]). contradiction.
  - apply (Hclamp PH.E 100).
    + left. exists 2, 2%Z. repeat split. unfold PHASE_NUM_ENTRIES; simpl; tauto.
    + reflexivity.
    + intros H; vm_compute in H; discriminate.
    + reflexivity.
Defined.

(* ================================================================= *)
(** ** TrafficLight: green durations stay admissible *)

Lemma setNextPhase_cases (S2N : string -> JsNum) (l : TrafficLight) (id d : JsVal) :
  setNextPhase S2N l id d = l
  \/ exists k, names_phase id k
               /\ setNextPhase S2N l id d =
                  mkLight (l_mode l) (subPhase l) (timer l) (_seqIdx l) (_phaseKey l)
                    (<[k := Js.max (Fin 5)
                              (Js.min (Fin 60)
                                 (Js.round (Js.or (Number S2N d)
                                                  (Fin CONFIG.FIXED_GREEN))))]>
                       (greenDur l))
                    (Some k) (onPhaseEnd l).
Proof.
  assert (forall k, names_phase id k ->
                    exists k0, names_phase id k0
                               /\ setNextPhase S2N l id d =
                                  mkLight (l_mode l) (subPhase l) (timer l) (_seqIdx l)
                                    (_phaseKey l)
                                    (<[k0 := Js.max (Fin 5)
                                               (Js.min (Fin 60)
                                                  (Js.round (Js.or (Number S2N d)
                                                     (Fin CONFIG.FIXED_GREEN))))]>
                                       (greenDur l))
                                    (Some k0) (onPhaseEnd l)) as Hk.
  { intros k Hk. exists k. split; [exact Hk | now apply setNextPhase_known]. }
  destruct id as [| | b | n | s | n];
    try (left; reflexivity).
  - destruct (Light.phaseOfNumber n) as [k |] eqn:E.
    + right. apply (Hk k). now apply phaseOfNumber_spec.
    + left. unfold setNextPhase. now rewrite E.
  - destruct (Light.includes ALL_PHASES s) eqn:E.
    + right. apply (Hk s). right. split; [reflexivity | now apply includes_In].
    + left. unfold setNextPhase. now rewrite E.
Qed.

Lemma durations_ok_new (m : Mode) : durations_ok (Light.new m).
Proof.
  unfold durations_ok, Light.new. cbn [greenDur _phaseKey _nextOverride].
  split; [| split; [| split]].
  - unfold ALL_PHASES. cbn [fold_left].
    repeat (apply map_Forall_insert_2; [exists 15; split; [reflexivity | lra] |]).
    apply map_Forall_empty.
  - intros k Hk. apply In_ALL_PHASES_cases in Hk.
    repeat (destruct Hk as [-> | Hk]); try subst k;
      (exists (Fin CONFIG.FIXED_GREEN); vm_compute; reflexivity).
  - unfold ALL_PHASES; simpl; tauto.
  - discriminate.
Qed.

Lemma seq_entry_known (i : nat) : In (nth (i mod 4) FIXED_PHASE_SEQ PH.N) ALL_PHASES.
Proof.
  pose proof (Nat.mod_upper_bound i 4 ltac:(lia)) as Hlt.
  destruct (i mod 4)%nat as [| [| [| [| n]]]]; try lia;
    unfold ALL_PHASES; simpl; tauto.
Qed.

Lemma durations_ok_tick (l : TrafficLight) (dt : Q) :
  durations_ok l -> durations_ok (fst (Light.tick l dt)).
Proof.
  intros (Hall & Hkeys & Hcur & Hov). unfold Light.tick.
  destruct (Light.timer_lt (timer l + dt) (Light.dur l)).
  - repeat split; assumption.
  - destruct (subPhase l).
    + repeat split; assumption.
    + repeat split; assumption.
    + destruct (_nextOverride l) as [k |] eqn:E; cbn [fst].
      * split; [exact Hall | split; [exact Hkeys | split]].
        -- cbn [_phaseKey]. now apply Hov.
        -- discriminate.
      * split; [exact Hall | split; [exact Hkeys | split]].
        -- cbn [_phaseKey]. apply seq_entry_known.
        -- discriminate.
Qed.

Lemma durations_ok_setNextPhase (S2N : string -> JsNum) (l : TrafficLight)
      (id d : JsVal) :
  durations_ok l -> durations_ok (setNextPhase S2N l id d).
Proof.
  intros (Hall & Hkeys & Hcur & Hov).
  destruct (setNextPhase_cases S2N l id d) as [-> | (k & Hk & ->)].
  - repeat split; assumption.
  - split; [| split; [| split]]; cbn [greenDur _phaseKey _nextOverride].
    + apply map_Forall_insert_2; [apply stored_duration_range | exact Hall].
    + intros k' Hk'. destruct (decide (k = k')) as [-> | Hne].
      * rewrite lookup_insert_eq. eauto.
      * rewrite lookup_insert_ne by exact Hne. now apply Hkeys.
    + exact Hcur.
    + intros k' [= <-]. now apply names_phase_known in Hk.
Qed.

Lemma durations_ok_reachable (S2N : string -> JsNum) (ops : list LightOp)
      (l : TrafficLight) :
  durations_ok l -> durations_ok (fold_left (lightExec S2N) ops l).
Proof.
  revert l. induction ops as [| op ops IH]; intros l Hl; [exact Hl |].
  cbn [fold_left]. apply IH. destruct op as [dt | id d]; cbn [lightExec].
  - now apply durations_ok_tick.
  - now apply durations_ok_setNextPhase.
Qed.

(** With admissible durations the target of every sub-phase is a
    positive finite number. *)
Lemma dur_positive (l : TrafficLight) :
  durations_ok l -> exists q, Light.dur l = Some (Fin q) /\ 0 < q.
Proof.
  intros (Hall & Hkeys & Hcur & _). unfold Light.dur.
  destruct (subPhase l).
  - destruct (Hkeys _ Hcur) as (d & Hd).
    destruct (Hall _ _ Hd) as (q & -> & Hq). exists q. split; [exact Hd | lra].
  - exists CONFIG.YELLOW_DUR. split; [reflexivity | reflexivity].
  - exists CONFIG.ALL_RED_DUR. split; [reflexivity | reflexivity].
Qed.

(** C10.  After construction every one of the ten phases has the green
    duration 15; after any sequence of [tick] and [setNextPhase] calls
    with arbitrary arguments every stored green duration is a finite
    number in [5, 60], all ten phases still have one, and the target
    duration of the current sub-phase is finite and positive, so that a
    tick whose timer reaches it leaves the sub-phase. *)
Theorem greenDur_always_admissible (S2N : string -> JsNum) (m : Mode)
        (ops : list LightOp) :
  let l := fold_left (lightExec S2N) ops (Light.new m) in
  Forall (fun k => greenDur (Light.new m) !! k = Some (Fin 15)) ALL_PHASES
  /\ map_Forall (fun _ d => within 5 60 d) (greenDur l)
  /\ Forall (fun k => exists d, greenDur l !! k = Some d /\ within 5 60 d) ALL_PHASES
  /\ exists q, Light.dur l = Some (Fin q) /\ 0 < q
               /\ forall dt, q <= timer l + dt ->
                             subPhase (fst (Light.tick l dt)) <> subPhase l
                             /\ timer (fst (Light.tick l dt)) = 0.
Proof.
  intros l.
  assert (durations_ok l) as Hok.
  { apply durations_ok_reachable, durations_ok_new. }
  split; [| split; [| split]].
  - unfold ALL_PHASES. repeat constructor.
  - apply Hok.
  - apply Forall_forall. intros k Hk. apply list_elem_of_In in Hk.
    destruct Hok as (Hall & Hkeys & _).
    destruct (Hkeys k Hk) as (d & Hd). exists d. split; [exact Hd |].
    exact (Hall _ _ Hd).
  - destruct (dur_positive l Hok) as (q & Hq & Hpos).
    exists q. split; [exact Hq | split; [exact Hpos |]].
    intros dt Hdt. unfold Light.tick. rewrite Hq.
    assert (Light.timer_lt (timer l + dt) (Some (Fin q)) = false) as ->.
    { cbn. now apply Qlt_bool_false. }
    destruct (subPhase l); [| | destruct (_nextOverride l)];
      cbn; split; (discriminate || reflexivity).
Qed.

(* ================================================================= *)
(** ** Adaptive timing: the next phase *)

Lemma nextClockwise_values (c : Z) :
  nextClockwise c =
  (if Z.eqb c 1 then 2 else if Z.eqb c 2 then 3 else if Z.eqb c 3 then 4
   else if Z.eqb c 4 then 1 else 2)%Z.
Proof.
  unfold nextClockwise, cw. cbn [indexOfZ].
  destruct (Z.eqb_spec 1 c) as [<- |]; [reflexivity |].
  destruct (Z.eqb_spec 2 c) as [<- |]; [reflexivity |].
  destruct (Z.eqb_spec 3 c) as [<- |]; [reflexivity |].
  destruct (Z.eqb_spec 4 c) as [<- |]; [reflexivity |].
  destruct (Z.eqb_spec c 1); [congruence |].
  destruct (Z.eqb_spec c 2); [congruence |].
  destruct (Z.eqb_spec c 3); [congruence |].
  destruct (Z.eqb_spec c 4); [congruence |].
  reflexivity.
Qed.



Lemma resolve_next (S2N : string -> JsNum) (p : Pending) (r : FetchResult) :
  d_next (resolve S2N p r) = fixedNextId p.
Proof.
  unfold resolve. destruct r as [| [data |]]; try reflexivity.
  destruct (Js.isFinite (Number S2N (duration data)));
    [destruct (improved_over_fixed data) as [| | [] | | |] |]; cbn [andb];
    try reflexivity;
    match goal with |- context [if ?c then _ else _] => destruct c end; reflexivity.
Qed.

Lemma applyDecision_override (S2N : string -> JsNum) (s : Simulation)
      (d : Decision) (k : string) :
  PHASE_NUM_MAP (d_next d) = Some k ->
  _nextOverride (light (applyDecision S2N s d)) = Some k
  /\ greenDur (light (applyDecision S2N s d)) !! k
     = Some (Js.max (Fin 5)
               (Js.min (Fin 60) (Js.round (Js.or (d_dur d) (Fin CONFIG.FIXED_GREEN))))).
Proof.
  intros Hk. unfold applyDecision. cbn [light set_aiReason set_light].
  rewrite (setNextPhase_known S2N (light s) _ (VNumber (d_dur d)) k).
  - cbn [_nextOverride greenDur Number]. now rewrite lookup_insert_eq.
  - left. exists (inject_Z (d_next d)), (d_next d).
    split; [reflexivity | split; [reflexivity |]]. now apply PHASE_NUM_MAP_spec.
Qed.

(** *** Only phases of the rotation ever end *)

Lemma nextClockwise_in_cw (c : Z) : In (nextClockwise c) cw.
Proof.
  rewrite nextClockwise_values. unfold cw.
  destruct (Z.eqb c 1); [simpl; tauto |].
  destruct (Z.eqb c 2); [simpl; tauto |].
  destruct (Z.eqb c 3); [simpl; tauto |].
  destruct (Z.eqb c 4); simpl; tauto.
Qed.

Lemma cw_phase (z : Z) :
  In z cw -> exists k, PHASE_NUM_MAP z = Some k /\ In k FIXED_PHASE_SEQ.
Proof.
  unfold cw. simpl. intros [<- | [<- | [<- | [<- | []]]]];
    eexists; (split; [reflexivity | unfold FIXED_PHASE_SEQ; simpl; tauto]).
Qed.

Lemma setNextPhase_phaseKey (S2N : string -> JsNum) (l : TrafficLight) (id d : JsVal) :
  _phaseKey (setNextPhase S2N l id d) = _phaseKey l.
Proof.
  destruct (setNextPhase_cases S2N l id d) as [-> | (k & _ & ->)]; reflexivity.
Qed.

Lemma applyDecision_rotation (S2N : string -> JsNum) (s : Simulation) (d : Decision) :
  In (d_next d) cw ->
  In (_phaseKey (light s)) FIXED_PHASE_SEQ ->
  In (_phaseKey (light (applyDecision S2N s d))) FIXED_PHASE_SEQ
  /\ (forall k, _nextOverride (light (applyDecision S2N s d)) = Some k ->
                In k FIXED_PHASE_SEQ).
Proof.
  intros Hd Hcur. destruct (cw_phase _ Hd) as (k & Hk & Hin).
  destruct (applyDecision_override S2N s d k Hk) as [Hov _]. split.
  - unfold applyDecision. cbn [light set_aiReason set_light].
    now rewrite setNextPhase_phaseKey.
  - intros k' Hk'. rewrite Hov in Hk'. now injection Hk' as <-.
Qed.

Lemma tick_note_key (l : TrafficLight) (dt : Q) (k : string) :
  snd (Light.tick l dt) = Some k -> k = _phaseKey l.
Proof.
  unfold Light.tick.
  destruct (Light.timer_lt (timer l + dt) (Light.dur l)); [discriminate |].
  destruct (subPhase l); [discriminate | | destruct (_nextOverride l); discriminate].
  cbn [snd]. destruct (onPhaseEnd l); [now intros [= <-] | discriminate].
Qed.

Lemma seq_entry_in_rotation (i : nat) : In (nth (i mod 4) FIXED_PHASE_SEQ PH.N) FIXED_PHASE_SEQ.
Proof.
  pose proof (Nat.mod_upper_bound i 4 ltac:(lia)) as Hlt.
  destruct (i mod 4)%nat as [| [| [| [| n]]]]; try lia;
    unfold FIXED_PHASE_SEQ; simpl; tauto.
Qed.

Lemma light_tick_rotation (l : TrafficLight) (dt : Q) :
  In (_phaseKey l) FIXED_PHASE_SEQ ->
  (forall k, _nextOverride l = Some k -> In k FIXED_PHASE_SEQ) ->
  In (_phaseKey (fst (Light.tick l dt))) FIXED_PHASE_SEQ
  /\ (forall k, _nextOverride (fst (Light.tick l dt)) = Some k -> In k FIXED_PHASE_SEQ).
Proof.
  intros Hcur Hov. unfold Light.tick.
  destruct (Light.timer_lt (timer l + dt) (Light.dur l)); [split; assumption |].
  destruct (subPhase l); [split; assumption | split; assumption |].
  destruct (_nextOverride l) as [k |] eqn:E; cbn [fst _phaseKey _nextOverride].
  - split; [now apply Hov | discriminate].
  - split; [apply seq_entry_in_rotation | discriminate].
Qed.

Lemma callAI_begin_rotation (S2N : string -> JsNum) (url : string) (s : Simulation)
      (ctx : option string) :
  rotation_ok s -> rotation_ok (callAI_begin S2N url s ctx).
Proof.
  intros (Hcur & Hov & Hfl). unfold callAI_begin.
  destruct (aiPending s); [split; [exact Hcur | split; [exact Hov | exact Hfl]] |].
  destruct (negb (urlReady url)).
  - destruct (applyDecision_rotation S2N s (heuristic (prepare s ctx))) as [H1 H2];
      [apply nextClockwise_in_cw | exact Hcur |].
    split; [exact H1 | split; [exact H2 | discriminate]].
  - split; [exact Hcur | split; [exact Hov |]].
    cbn [inflight set_ai]. intros p [= <-]. apply nextClockwise_in_cw.
Qed.

Lemma callAI_end_rotation (S2N : string -> JsNum) (s : Simulation) (r : FetchResult) :
  rotation_ok s -> rotation_ok (callAI_end S2N s r).
Proof.
  intros (Hcur & Hov & Hfl). unfold callAI_end.
  destruct (inflight s) as [p |] eqn:E;
    [| split; [exact Hcur | split; [exact Hov | now rewrite E]]].
  destruct (applyDecision_rotation S2N s (resolve S2N p r)) as [H1 H2];
    [rewrite resolve_next; now apply Hfl | exact Hcur |].
  split; [exact H1 | split; [exact H2 | discriminate]].
Qed.

Lemma move_keeps_control (sq : Q -> Q) (s : Simulation) (others : list Vehicle)
      (v : Vehicle) (dt : Q) :
  light (fst (_move sq s others v dt)) = light s
  /\ inflight (fst (_move sq s others v dt)) = inflight s.
Proof.
  unfold _move. destruct (phase v); [split; reflexivity | split; reflexivity |].
  unfold _exit. match goal with |- context [if ?c then _ else _] => destruct c end;
    split; reflexivity.
Qed.

Lemma moveEach_keeps_control (sq : Q -> Q) (dt : Q) (rest : list Vehicle) :
  forall (s : Simulation) (before : list Vehicle),
    light (fst (moveEach sq s before rest dt)) = light s
    /\ inflight (fst (moveEach sq s before rest dt)) = inflight s.
Proof.
  induction rest as [| v rest IH]; intros s before; cbn [moveEach].
  - split; reflexivity.
  - destruct (IH (fst (if done v then (s, v) else _move sq s (before ++ rest) v dt))
                 (before ++ [snd (if done v then (s, v)
                                  else _move sq s (before ++ rest) v dt)])) as [-> ->].
    destruct (done v); [split; reflexivity | apply move_keeps_control].
Qed.

Lemma tick_rotation (sq : Q -> Q) (S2N : string -> JsNum) (url : string)
      (s : Simulation) (dt : Q) :
  rotation_ok s -> rotation_ok (tick sq S2N url s dt).
Proof.
  intros (Hcur & Hov & Hfl). unfold tick.
  set (s1 := set_simTime s (simTime s + dt)).
  set (s2 := set_light s1 (fst (Light.tick (light s1) dt))).
  assert (rotation_ok s2) as H2.
  { destruct (light_tick_rotation (light s) dt Hcur Hov) as [Ha Hb].
    split; [exact Ha | split; [exact Hb | exact Hfl]]. }
  set (s3 := match snd (Light.tick (light s1) dt) with
             | Some ph => callAI_begin S2N url s2 (Some ph)
             | None => s2
             end).
  assert (rotation_ok s3) as H3.
  { unfold s3. destruct (snd (Light.tick (light s1) dt));
      [now apply callAI_begin_rotation | exact H2]. }
  destruct (moveEach_keeps_control sq dt (vehicles s3) s3 []) as [Hl Hi].
  unfold rotation_ok. cbn [light inflight set_vehicles]. now rewrite Hl, Hi.
Qed.

Lemma rotation_ok_run (sq : Q -> Q) (S2N : string -> JsNum) (url : string)
      (cs : list Cmd) :
  forall s, rotation_ok s -> rotation_ok (run sq S2N url s cs).
Proof.
  unfold run. induction cs as [| c cs IH]; intros s H; cbn [fold_left]; [exact H |].
  apply IH. destruct c as [d l | dt | ctx | r]; cbn [exec].
  - exact H.
  - now apply tick_rotation.
  - now apply callAI_begin_rotation.
  - now apply callAI_end_rotation.
Qed.

(** In every state a simulation reaches, the key a tick hands to
    [onPhaseEnd] is a phase of the rotation, so it has a clockwise
    successor. *)
Lemma phase_end_key_in_rotation (sq : Q -> Q) (S2N : string -> JsNum) (url : string)
      (m : Mode) (cs : list Cmd) (dt : Q) (k : string) :
  snd (Light.tick (light (run sq S2N url (Sim.new m) cs)) dt) = Some k ->
  exists succ, cwSuccessor k = Some succ.
Proof.
  intros Hk. apply tick_note_key in Hk.
  assert (rotation_ok (run sq S2N url (Sim.new m) cs)) as (Hcur & _).
  { apply rotation_ok_run. destruct m; (split; [| split]);
      cbn; try discriminate; unfold FIXED_PHASE_SEQ; simpl; tauto. }
  rewrite <- Hk in Hcur. unfold FIXED_PHASE_SEQ in Hcur. simpl in Hcur.
  destruct Hcur as [<- | [<- | [<- | [<- | []]]]]; eexists; reflexivity.
Qed.



(* ================================================================= *)
(** ** Adaptive timing: the heuristic duration *)

Lemma Qfloor_half (z : Z) : Qfloor (inject_Z z + (1 # 2)) = z.
Proof.
  set (f := Qfloor (inject_Z z + (1 # 2))).
  assert (inject_Z z < inject_Z (f + 1)) as Hlo.
  { pose proof (Qlt_floor (inject_Z z + (1 # 2))). fold f in H. lra. }
  assert (inject_Z f < inject_Z (z + 1)) as Hhi.
  { pose proof (Qfloor_le (inject_Z z + (1 # 2))). fold f in H.
    rewrite inject_Z_plus. change (inject_Z 1) with 1. lra. }
  rewrite <- Zlt_Qlt in Hlo, Hhi. lia.
Qed.

(** The source computes the heuristic target exactly as specified. *)
Lemma heuristicDur_spec (load : Q) :
  heuristicDur load = Fin (inject_Z (spec_target load)).
Proof.
  unfold heuristicDur, clamp, spec_target. cbn [Js.round].
  set (r := Qfloor (8 + load * (18 # 10) + (1 # 2))).
  cbn [Js.min].
  destruct (Qle_bool 45 (inject_Z r)) eqn:E45.
  - apply Qle_bool_iff in E45. change 45 with (inject_Z 45) in E45.
    rewrite <- Zle_Qle in E45.
    rewrite (Z.min_l 45 r) by lia. reflexivity.
  - apply Qle_bool_false in E45. change 45 with (inject_Z 45) in E45.
    rewrite <- Zlt_Qlt in E45.
    rewrite (Z.min_r 45 r) by lia. cbn [Js.max].
    destruct (Qle_bool 5 (inject_Z r)) eqn:E5.
    + apply Qle_bool_iff in E5. change 5 with (inject_Z 5) in E5.
      rewrite <- Zle_Qle in E5. rewrite (Z.max_r 5 r) by lia. reflexivity.
    + apply Qle_bool_false in E5. change 5 with (inject_Z 5) in E5.
      rewrite <- Zlt_Qlt in E5. rewrite (Z.max_l 5 r) by lia. reflexivity.
Qed.

Lemma spec_target_range (load : Q) : (5 <= spec_target load <= 45)%Z.
Proof. unfold spec_target. lia. Qed.

(** [setNextPhase] stores an integral duration of 5..60 s unchanged. *)
Lemma stored_duration_integral (z : Z) :
  (5 <= z <= 60)%Z ->
  Js.max (Fin 5)
    (Js.min (Fin 60) (Js.round (Js.or (Fin (inject_Z z)) (Fin CONFIG.FIXED_GREEN))))
  = Fin (inject_Z z).
Proof.
  intros Hz. unfold Js.or, Js.truthy.
  assert (Qeq_bool (inject_Z z) 0 = false) as ->.
  { destruct (Qeq_bool (inject_Z z) 0) eqn:E; [| reflexivity].
    apply Qeq_bool_iff in E. unfold Qeq in E. simpl in E. lia. }
  cbn [negb Js.round]. rewrite Qfloor_half. cbn [Js.min].
  destruct (Qle_bool 60 (inject_Z z)) eqn:E60.
  - apply Qle_bool_iff in E60. change 60 with (inject_Z 60) in E60.
    rewrite <- Zle_Qle in E60. replace z with 60%Z by lia. reflexivity.
  - cbn [Js.max].
    assert (Qle_bool 5 (inject_Z z) = true) as ->; [| reflexivity].
    apply Qle_bool_iff. change 5 with (inject_Z 5). rewrite <- Zle_Qle. lia.
Qed.

Lemma resolve_fallback (S2N : string -> JsNum) (p : Pending) (r : FetchResult) :
  no_usable_duration S2N r -> resolve S2N p r = heuristic p.
Proof.
  unfold no_usable_duration, resolve. destruct r as [| [data |]]; try reflexivity.
  intros ->. reflexivity.
Qed.

(** C5, failing input.  A reply whose duration is [null] is not
    numeric, yet [Number(null)] is the finite number 0, so it passes
    the [Number.isFinite] test that sends a bad response to the
    heuristic: with empty queues the heuristic target is 8 s, but the
    reply is treated as a rejected timing and the controller receives
    the fixed 15 s.  The same reply without a duration ([undefined],
    which converts to [NaN]) does take the bad-response branch and the
    controller receives the 8 s. *)
Lemma null_duration_not_fallback :
  let S2N := fun _ : string => NaN in
  let s := callAI_begin S2N "https://example.invalid/fn" (Sim.new ai) (Some PH.N) in
  let data := mkReply VNull VUndefined VUndefined VUndefined in
  let s' := callAI_end S2N s (Replied (Some data)) in
  let missing := mkReply VUndefined VUndefined VUndefined VUndefined in
  let s'' := callAI_end S2N s (Replied (Some missing)) in
  option_map targetDur (inflight s) = Some (Fin 8)
  /\ aiReason s' = Rejected
  /\ _nextOverride (light s') = Some PH.E
  /\ greenDur (light s') !! PH.E = Some (Fin 15)
  /\ aiReason s'' = Fallback
  /\ _nextOverride (light s'') = Some PH.E
  /\ greenDur (light s'') !! PH.E = Some (Fin 8).
Proof.
  vm_compute. repeat split; reflexivity.
Qed.

(** The paths of [_callAI] that do reach the heuristic.  The
    heuristic target is round(8 + demand * 1.8) clamped to 5..45 s,
    where demand is the demand of the next phase; it lies in that range
    for every demand.  It is the duration handed to [setNextPhase], and
    the duration the controller then stores for the next phase, when no
    endpoint is configured, when the request fails or times out, when
    the body is [null], and when the duration of the reply converts to
    [NaN] or an infinity (a missing duration, unparsable text). *)
Theorem heuristic_target_applied_on_fallback
        (S2N : string -> JsNum) (url : string) (s : Simulation)
        (ctx : option string) (k : string) :
  let p := prepare s ctx in
  PHASE_NUM_MAP (fixedNextId p) = Some k ->
  targetDur p = Fin (inject_Z (spec_target (demand s (fixedNextId p))))
  /\ (forall load, within 5 45 (heuristicDur load))
  /\ (forall r, no_usable_duration S2N r ->
                resolve S2N p r = mkDecision (fixedNextId p) (targetDur p) Fallback)
  /\ (forall s' r, inflight s' = Some p -> no_usable_duration S2N r ->
                   greenDur (light (callAI_end S2N s' r)) !! k = Some (targetDur p)
                   /\ aiReason (callAI_end S2N s' r) = Fallback)
  /\ (aiPending s = false -> urlReady url = false ->
      greenDur (light (callAI_begin S2N url s ctx)) !! k = Some (targetDur p)
      /\ aiReason (callAI_begin S2N url s ctx) = Fallback).
Proof.
  intros p Hk.
  assert (targetDur p = Fin (inject_Z (spec_target (demand s (fixedNextId p))))) as Ht.
  { apply heuristicDur_spec. }
  assert (Js.max (Fin 5)
            (Js.min (Fin 60) (Js.round (Js.or (targetDur p) (Fin CONFIG.FIXED_GREEN))))
          = targetDur p) as Hstore.
  { rewrite Ht. apply stored_duration_integral.
    pose proof (spec_target_range (demand s (fixedNextId p))). lia. }
  split; [exact Ht |]. split.
  { intros load. rewrite heuristicDur_spec. eexists. split; [reflexivity |].
    pose proof (spec_target_range load) as [H5 H45].
    apply inject_Z_le_iff in H5, H45. split; assumption. }
  split; [intros r Hr; now apply resolve_fallback |]. split.
  - intros s' r Hfl Hr. unfold callAI_end. rewrite Hfl.
    rewrite (resolve_fallback S2N p r Hr). cbn [light aiReason set_ai].
    destruct (applyDecision_override S2N s' (heuristic p) k Hk) as [_ Hg].
    rewrite Hg. cbn [d_dur heuristic]. rewrite Hstore. split; reflexivity.
  - intros Hpend Hurl. unfold callAI_begin. rewrite Hpend, Hurl. fold p.
    cbn [negb light aiReason set_ai].
    destruct (applyDecision_override S2N s (heuristic p) k Hk) as [_ Hg].
    rewrite Hg. cbn [d_dur heuristic]. rewrite Hstore. split; reflexivity.
Qed.

Lemma heuristic_target_applied_on_fallback_witness :
  targetDur (prepare (Sim.new ai) (Some PH.N)) = Fin 8
  /\ resolve (fun _ => NaN) (prepare (Sim.new ai) (Some PH.N)) Failed
     = mkDecision 2 (Fin 8) Fallback.
Proof.
  assert (PHASE_NUM_MAP (fixedNextId (prepare (Sim.new ai) (Some PH.N))) = Some PH.E)
    as Hk by reflexivity.
  pose proof (heuristic_target_applied_on_fallback
                (fun _ => NaN) "" (Sim.new ai) (Some PH.N) PH.E Hk) as (Ht & _ & Hr & _).
  split.
  - exact Ht.
  - exact (Hr Failed I).
Defined.

(* ================================================================= *)
(** ** Exit arm and exit lane *)

Lemma buildPath_exit (v : Vehicle) :
  exitDir (fst (buildPath v)) = Some (exitDirMap (dir v) (lane v))
  /\ exitLane (fst (buildPath v)) = Some (exitLaneMap (dir v) (lane v))
  /\ dir (fst (buildPath v)) = dir v /\ lane (fst (buildPath v)) = lane v
  /\ move (fst (buildPath v)) = move v /\ phase (fst (buildPath v)) = phase v.
Proof.
  unfold buildPath. destruct v as [d l mv ? ? ? ? ? ? ? ? ? ? ? ?]. cbn.
  destruct mv, d; repeat split; reflexivity.
Qed.

Lemma buildPath_end (v : Vehicle) :
  lateral (exitDirMap (dir v) (lane v)) (p3 (snd (buildPath v)))
  = exitCoord (exitDirMap (dir v) (lane v)) (exitLaneMap (dir v) (lane v)).
Proof.
  unfold buildPath. destruct v as [d l mv ? ? ? ? ? ? ? ? ? ? ? ?]. cbn.
  destruct mv, d, l; reflexivity.
Qed.

Lemma advance_fields (v : Vehicle) (d : Arm) :
  dir (Sim.advance v d) = dir v /\ lane (Sim.advance v d) = lane v
  /\ move (Sim.advance v d) = move v /\ phase (Sim.advance v d) = phase v
  /\ waitSec (Sim.advance v d) = waitSec v /\ done (Sim.advance v d) = done v
  /\ exitDir (Sim.advance v d) = exitDir v /\ exitLane (Sim.advance v d) = exitLane v.
Proof.
  destruct d; repeat split; reflexivity.
Qed.

(** What [_approach] returns when it does not halt the vehicle. *)
Lemma approach_turning_exit (sq : Q -> Q) (l : TrafficLight) (others : list Vehicle)
      (v : Vehicle) (dt : Q) :
  phase v = approach ->
  phase (_approach sq l others v dt) = turning ->
  exitDir (_approach sq l others v dt) = Some (exitDirMap (dir v) (lane v))
  /\ exitLane (_approach sq l others v dt) = Some (exitLaneMap (dir v) (lane v)).
Proof.
  intros Hph. unfold _approach.
  destruct (pastStop v && negb (Light.canGo l (dir v) (move v))).
  { cbn [phase set_waitSec set_flags]. rewrite Hph. intros [=]. }
  destruct (Js.lt (Sim._gap others v) (Fin CONFIG.CAR_GAP)).
  { cbn [phase set_flags]. rewrite Hph. intros [=]. }
  set (v1 := Sim.advance (set_flags v false false) (dir v)).
  assert (dir v1 = dir v /\ lane v1 = lane v /\ phase v1 = phase v) as (Hd & Hl & Hp).
  { destruct (advance_fields (set_flags v false false) (dir v)) as (? & ? & ? & ? & _).
    auto. }
  destruct (pastStop v1 && Light.canGo l (dir v) (move v)).
  - intros _. cbn. destruct (buildPath_exit v1) as (He & Hk & _).
    rewrite He, Hk, Hd, Hl. split; reflexivity.
  - rewrite Hp, Hph. intros [=].
Qed.

(** C8.  For each entry arm and lane (hence movement), the exit arm
    stored when the vehicle enters its turn is the arm to the left of,
    the same as, or the arm to the right of the entry arm for a left,
    straight or right movement, the table of one entry arm being that
    of the previous one rotated clockwise; the stored exit lane places
    the vehicle (end point of the path and the snap of [_turn]) in the
    outer strip of the exit arm for a left-turner, the middle strip for
    a straight-through vehicle and the inner strip for a right-turner. *)
Theorem exit_arm_and_lane_table (sq : Q -> Q) (v : Vehicle) :
  move v = LANE_MOVE (lane v) ->
  let v' := fst (buildPath v) in
  let e := spec_exit_arm (dir v) (move v) in
  exitDir v' = Some e
  /\ (exists k, exitLane v' = Some k
                /\ laneBand (exitCoord e k) = spec_exit_band (move v)
                /\ lateral e (p3 (snd (buildPath v))) = exitCoord e k)
  /\ exitDirMap (RIGHT_D (dir v)) (lane v) = RIGHT_D (exitDirMap (dir v) (lane v))
  /\ (forall l others dt,
        phase v = approach ->
        phase (_approach sq l others v dt) = turning ->
        exitDir (_approach sq l others v dt) = exitDir v'
        /\ exitLane (_approach sq l others v dt) = exitLane v').
Proof.
  intros Hmv v' e.
  destruct (buildPath_exit v) as (He & Hk & _).
  assert (exitDirMap (dir v) (lane v) = e) as Htab.
  { unfold e. rewrite Hmv. destruct (dir v), (lane v); reflexivity. }
  split; [unfold v'; now rewrite He, Htab |]. split.
  - exists (exitLaneMap (dir v) (lane v)). split; [exact Hk |]. split.
    + unfold e. rewrite Hmv. destruct (dir v), (lane v); vm_compute; reflexivity.
    + rewrite <- Htab. apply buildPath_end.
  - split; [destruct (dir v), (lane v); reflexivity |].
    intros l others dt Hph Ht. unfold v'. rewrite He, Hk.
    now apply approach_turning_exit.
Qed.

Lemma exit_arm_and_lane_table_witness :
  exitDir (fst (buildPath (Vehicle_new north lane0))) = Some west.
Proof.
  assert (move (Vehicle_new north lane0) = LANE_MOVE (lane (Vehicle_new north lane0)))
    as Hmv by reflexivity.
  exact (proj1 (exit_arm_and_lane_table (fun q => q) (Vehicle_new north lane0) Hmv)).
Defined.

(* ================================================================= *)
(** ** Wait accounting *)

Lemma buildPath_keeps (v : Vehicle) :
  done (fst (buildPath v)) = done v /\ waitSec (fst (buildPath v)) = waitSec v
  /\ x (fst (buildPath v)) = x v /\ y (fst (buildPath v)) = y v.
Proof.
  unfold buildPath. destruct v as [d l mv ? ? ? ? ? ? ? ? ? ? ? ?]. cbn.
  destruct mv, d; repeat split; reflexivity.
Qed.

Lemma approach_keeps_done (sq : Q -> Q) (l : TrafficLight) (others : list Vehicle)
      (v : Vehicle) (dt : Q) :
  done (_approach sq l others v dt) = done v.
Proof.
  unfold _approach.
  destruct (pastStop v && negb (Light.canGo l (dir v) (move v))); [reflexivity |].
  destruct (Js.lt (Sim._gap others v) (Fin CONFIG.CAR_GAP)); [reflexivity |].
  set (v1 := Sim.advance (set_flags v false false) (dir v)).
  assert (done v1 = done v) as Hd.
  { destruct (advance_fields (set_flags v false false) (dir v))
      as (_ & _ & _ & _ & _ & H & _). exact H. }
  destruct (pastStop v1 && Light.canGo l (dir v) (move v)); [| exact Hd].
  cbn. destruct (buildPath_keeps v1) as (H & _). now rewrite H.
Qed.

Lemma turn_keeps_done (v : Vehicle) : done (_turn v) = done v.
Proof.
  unfold _turn. destruct (turnPath v); [| reflexivity].
  match goal with |- context [if ?c then _ else _] => destruct c end; cbn.
  - repeat match goal with
           | |- context [match ?e with Some _ => _ | None => _ end] => destruct e
           | |- context [match ?e with north => _ | south => _ | east => _ | west => _ end]
             => destruct e
           | |- context [if ?c then _ else _] => destruct c
           end; reflexivity.
  - repeat match goal with
           | |- context [match ?e with Some _ => _ | None => _ end] => destruct e
           | |- context [match ?e with north => _ | south => _ | east => _ | west => _ end]
             => destruct e
           | |- context [if ?c then _ else _] => destruct c
           end; reflexivity.
Qed.

(** What one call of [_move] does to the accumulators. *)
Lemma move_accounting (sq : Q -> Q) (s : Simulation) (others : list Vehicle)
      (v : Vehicle) (dt : Q) :
  done v = false ->
  done (snd (_move sq s others v dt)) = leavesBounds v
  /\ (leavesBounds v = true ->
      fst (_move sq s others v dt) = count_passed s (waitSec v))
  /\ (leavesBounds v = false -> fst (_move sq s others v dt) = s).
Proof.
  intros Hd. unfold _move, leavesBounds. rewrite Hd.
  destruct (phase v) eqn:Hph; cbn [VPhase_eqb andb negb fst snd].
  - rewrite approach_keeps_done, Hd.
    split; [reflexivity | split; [intros [=] | reflexivity]].
  - rewrite turn_keeps_done, Hd.
    split; [reflexivity | split; [intros [=] | reflexivity]].
  - unfold _exit.
    set (v1 := Sim.advance v match exitDir v with Some d => d | None => west end).
    destruct (advance_fields v match exitDir v with Some d => d | None => west end)
      as (_ & _ & _ & _ & Hw & Hdn & _). fold v1 in Hw, Hdn.
    destruct (Qlt_bool (x v1) (-50) || Qlt_bool (W + 50) (x v1)
              || Qlt_bool (y v1) (-50) || Qlt_bool (W + 50) (y v1));
      cbn [fst snd]; rewrite ?Hw.
    + split; [reflexivity | split; [reflexivity | intros [=]]].
    + split; [now rewrite Hdn | split; [intros [=] | reflexivity]].
Qed.

Lemma leavesBounds_not_done (v : Vehicle) : done v = true -> leavesBounds v = false.
Proof.
  intros H. unfold leavesBounds. rewrite H. cbn [negb].
  now rewrite andb_false_r.
Qed.

Lemma moveEach_accounting (sq : Q -> Q) (dt : Q) (rest : list Vehicle) :
  forall (s : Simulation) (before : list Vehicle),
    let r := moveEach sq s before rest dt in
    passedCount (fst r) = (passedCount s + length (List.filter leavesBounds rest))%nat
    /\ totalWaitSec (fst r) == totalWaitSec s + sumWait (List.filter leavesBounds rest)
    /\ (List.filter leavesBounds rest = [] -> totalWaitSec (fst r) = totalWaitSec s).
Proof.
  induction rest as [| v rest IH]; intros s before; cbn [moveEach List.filter].
  - cbn. split; [lia | split; [lra | reflexivity]].
  - set (step := if done v then (s, v) else _move sq s (before ++ rest) v dt).
    specialize (IH (fst step) (before ++ [snd step])).
    destruct IH as (Hc & Hw & Hn).
    assert ((leavesBounds v = true /\ fst step = count_passed s (waitSec v))
            \/ (leavesBounds v = false /\ fst step = s)) as Hcase.
    { unfold step. destruct (done v) eqn:Hd.
      - right. split; [now apply leavesBounds_not_done | reflexivity].
      - destruct (move_accounting sq s (before ++ rest) v dt Hd) as (_ & Ht & Hf).
        destruct (leavesBounds v); [left | right]; auto. }
    destruct Hcase as [[Hl Hs] | [Hl Hs]]; rewrite Hl; rewrite Hs in Hc, Hw, Hn |- *.
    + cbn [length sumWait fold_right]. cbn [passedCount totalWaitSec count_passed] in *.
      fold (sumWait (List.filter leavesBounds rest)).
      split; [lia | split; [lra | discriminate]].
    + auto.
Qed.

Lemma callAI_begin_keeps (S2N : string -> JsNum) (url : string) (s : Simulation)
      (ctx : option string) :
  vehicles (callAI_begin S2N url s ctx) = vehicles s
  /\ passedCount (callAI_begin S2N url s ctx) = passedCount s
  /\ totalWaitSec (callAI_begin S2N url s ctx) = totalWaitSec s
  /\ mode (callAI_begin S2N url s ctx) = mode s.
Proof.
  unfold callAI_begin. destruct (aiPending s); [auto |].
  destruct (negb (urlReady url)); cbn; auto.
Qed.

Lemma callAI_end_keeps (S2N : string -> JsNum) (s : Simulation) (r : FetchResult) :
  vehicles (callAI_end S2N s r) = vehicles s
  /\ passedCount (callAI_end S2N s r) = passedCount s
  /\ totalWaitSec (callAI_end S2N s r) = totalWaitSec s
  /\ mode (callAI_end S2N s r) = mode s.
Proof.
  unfold callAI_end. destruct (inflight s); cbn; auto.
Qed.

(** The state in which [tick] starts the loop over the vehicles. *)
Lemma tick_unfold (sq : Q -> Q) (S2N : string -> JsNum) (url : string)
      (s : Simulation) (dt : Q) :
  exists s3,
    vehicles s3 = vehicles s /\ passedCount s3 = passedCount s
    /\ totalWaitSec s3 = totalWaitSec s
    /\ tick sq S2N url s dt =
       set_vehicles (fst (moveEach sq s3 [] (vehicles s) dt))
                    (List.filter (fun v => negb (done v))
                                 (snd (moveEach sq s3 [] (vehicles s) dt))).
Proof.
  unfold tick.
  set (s1 := set_simTime s (simTime s + dt)).
  set (s2 := set_light s1 (fst (Light.tick (light s1) dt))).
  destruct (snd (Light.tick (light s1) dt)) as [ph |].
  - exists (callAI_begin S2N url s2 (Some ph)).
    destruct (callAI_begin_keeps S2N url s2 (Some ph)) as (Hv & Hc & Hw & _).
    rewrite Hv. repeat split; assumption.
  - exists s2. repeat split; reflexivity.
Qed.

(** C9.  A tick raises the passed-vehicle count by the number of
    vehicles that leave in it and the total wait by the sum of their
    accumulated waits: each call of [_move] that takes a vehicle from
    exit to done adds exactly 1 and exactly that vehicle's wait, every
    other call leaves the simulation's accumulators alone, and a tick in
    which no vehicle leaves changes neither.  Vehicles that left are
    dropped from the list, so none is counted twice.  The average wait
    is the total divided by the count, and 0 when the count is 0. *)
Theorem wait_accounting (sq : Q -> Q) (S2N : string -> JsNum) (url : string)
        (s : Simulation) (dt : Q) :
  let leaving := List.filter leavesBounds (vehicles s) in
  let s' := tick sq S2N url s dt in
  passedCount s' = (passedCount s + length leaving)%nat
  /\ totalWaitSec s' == totalWaitSec s + sumWait leaving
  /\ (leaving = [] -> passedCount s' = passedCount s /\ totalWaitSec s' = totalWaitSec s)
  /\ (forall others v,
        done v = false ->
        done (snd (_move sq s others v dt)) = leavesBounds v
        /\ (leavesBounds v = true ->
            passedCount (fst (_move sq s others v dt)) = S (passedCount s)
            /\ totalWaitSec (fst (_move sq s others v dt)) = totalWaitSec s + waitSec v)
        /\ (leavesBounds v = false -> fst (_move sq s others v dt) = s))
  /\ Forall (fun v => done v = false) (vehicles s')
  /\ Sim.avgWait s = (if Nat.eqb (passedCount s) 0 then 0
                      else totalWaitSec s / inject_Z (Z.of_nat (passedCount s))).
Proof.
  intros leaving s'.
  destruct (tick_unfold sq S2N url s dt) as (s3 & Hv & Hc & Hw & Ht).
  fold s' in Ht.
  destruct (moveEach_accounting sq dt (vehicles s) s3 []) as (Mc & Mw & Mn).
  cbv zeta in Mc, Mw, Mn. fold leaving in Mc, Mw, Mn.
  rewrite Hc in Mc. rewrite Hw in Mw, Mn.
  assert (passedCount s' = passedCount (fst (moveEach sq s3 [] (vehicles s) dt))
          /\ totalWaitSec s' = totalWaitSec (fst (moveEach sq s3 [] (vehicles s) dt))
          /\ vehicles s' = List.filter (fun v => negb (done v))
                                       (snd (moveEach sq s3 [] (vehicles s) dt)))
    as (Pc & Pw & Pv) by (rewrite Ht; repeat split; reflexivity).
  split; [now rewrite Pc |]. split; [now rewrite Pw |]. split.
  { intros Hnil. split.
    - rewrite Pc, Mc, Hnil. cbn. lia.
    - rewrite Pw. now apply Mn. }
  split.
  { intros others v Hd.
    destruct (move_accounting sq s others v dt Hd) as (H1 & H2 & H3).
    split; [exact H1 |]. split; [| exact H3].
    intros Hl. rewrite (H2 Hl). split; reflexivity. }
  split.
  { rewrite Pv. apply Forall_forall. intros v Hin.
    apply list_elem_of_In, List.filter_In in Hin. destruct Hin as [_ Hnd].
    now destruct (done v). }
  unfold Sim.avgWait. destruct (passedCount s); reflexivity.
Qed.

Lemma wait_accounting_witness :
  let v := mkVehicle east lane1 straight 569 230 exit false false 3 false
                     1 None 1 (Some east) (Some 4%Z) in
  let s := set_vehicles (Sim.new baseline) [v] in
  passedCount (tick (fun q => q) (fun _ => NaN) "" s (1 # 60)) = 1%nat.
Proof.
  intros v s.
  exact (proj1 (wait_accounting (fun q => q) (fun _ => NaN) "" s (1 # 60))).
Defined.

(* ================================================================= *)
(** ** Stopping at the stop line *)

Lemma pastStop_overshoot (v : Vehicle) : pastStop v = true <-> 0 <= overshoot v.
Proof.
  unfold pastStop, overshoot. destruct v as [d ? ? vx vy ? ? ? ? ? ? ? ? ? ?]. cbn.
  destruct d; cbn; rewrite Qle_bool_iff; split; intros H; lra.
Qed.

Lemma overshoot_advance (v : Vehicle) :
  overshoot (Sim.advance v (dir v)) == overshoot v + CONFIG.CAR_SPD.
Proof.
  unfold overshoot, Sim.advance. destruct v as [d ? ? vx vy ? ? ? ? ? ? ? ? ? ?]. cbn.
  destruct d; cbn; lra.
Qed.

Lemma overshoot_new (d : Arm) (l : Lane) : overshoot (Vehicle_new d l) < 0.
Proof.
  destruct d, l; vm_compute; reflexivity.
Qed.

Lemma approach_ok_new (d : Arm) (l : Lane) : approach_ok (Vehicle_new d l).
Proof.
  intros _. pose proof (overshoot_new d l). unfold CONFIG.CAR_SPD. lra.
Qed.

Lemma approach_ok_approach (sq : Q -> Q) (l : TrafficLight) (others : list Vehicle)
      (v : Vehicle) (dt : Q) :
  phase v = approach -> approach_ok v -> approach_ok (_approach sq l others v dt).
Proof.
  intros Hph Hok. specialize (Hok Hph). unfold _approach.
  destruct (pastStop v && negb (Light.canGo l (dir v) (move v))) eqn:Hred.
  { intros _. exact Hok. }
  destruct (Js.lt (Sim._gap others v) (Fin CONFIG.CAR_GAP)).
  { intros _. exact Hok. }
  set (v0 := set_flags v false false).
  assert (overshoot (Sim.advance v0 (dir v)) == overshoot v + CONFIG.CAR_SPD) as Hadv.
  { apply (overshoot_advance v0). }
  destruct (pastStop (Sim.advance v0 (dir v)) && Light.canGo l (dir v) (move v)) eqn:Hgo.
  - intros Hturn. cbn in Hturn. discriminate.
  - intros _. rewrite Hadv.
    destruct (pastStop v) eqn:Hp.
    + exfalso. cbn [andb] in Hred. apply negb_false_iff in Hred.
      rewrite Hred, andb_true_r in Hgo.
      apply pastStop_overshoot in Hp.
      assert (pastStop (Sim.advance v0 (dir v)) = true) as Hp1.
      { apply pastStop_overshoot. rewrite Hadv. unfold CONFIG.CAR_SPD. lra. }
      congruence.
    + assert (~ 0 <= overshoot v) as Hneg.
      { intros H. apply pastStop_overshoot in H. congruence. }
      lra.
Qed.

Lemma turn_phase (v : Vehicle) :
  phase v = turning -> phase (_turn v) = turning \/ phase (_turn v) = exit.
Proof.
  intros Hph. unfold _turn. destruct (turnPath v); [| now left].
  match goal with |- context [if Qle_bool 1 ?t then _ else _] =>
    destruct (Qle_bool 1 t) end.
  - right. destruct (exitDir v) as [[] |]; reflexivity.
  - left. exact Hph.
Qed.

Lemma exit_phase (s : Simulation) (v : Vehicle) : phase (snd (_exit s v)) = phase v.
Proof.
  unfold _exit.
  destruct (advance_fields v match exitDir v with Some d => d | None => west end)
    as (_ & _ & _ & Hp & _).
  match goal with |- context [if ?c then _ else _] => destruct c end; cbn; exact Hp.
Qed.

Lemma approach_ok_move (sq : Q -> Q) (s : Simulation) (others : list Vehicle)
      (v : Vehicle) (dt : Q) :
  approach_ok v -> approach_ok (snd (_move sq s others v dt)).
Proof.
  intros Hok. unfold _move. destruct (phase v) eqn:Hph; cbn [snd].
  - now apply approach_ok_approach.
  - intros H. destruct (turn_phase v Hph) as [Ht | Ht]; congruence.
  - intros H. rewrite exit_phase in H. congruence.
Qed.

Lemma approach_ok_moveEach (sq : Q -> Q) (dt : Q) (rest : list Vehicle) :
  forall (s : Simulation) (before : list Vehicle),
    List.Forall approach_ok before -> List.Forall approach_ok rest ->
    List.Forall approach_ok (snd (moveEach sq s before rest dt)).
Proof.
  induction rest as [| v rest IH]; intros s before Hb Hr; cbn [moveEach].
  - exact Hb.
  - apply List.Forall_cons_iff in Hr. destruct Hr as [Hv Hr].
    apply IH; [| exact Hr].
    apply List.Forall_app. split; [exact Hb |].
    constructor; [| constructor].
    destruct (done v); cbn [snd]; [exact Hv | now apply approach_ok_move].
Qed.

Lemma approach_ok_filter (f : Vehicle -> bool) (l : list Vehicle) :
  List.Forall approach_ok l -> List.Forall approach_ok (List.filter f l).
Proof.
  intros H. apply List.Forall_forall. intros v Hin.
  apply List.filter_In in Hin. destruct Hin as [Hin _].
  rewrite List.Forall_forall in H. now apply H.
Qed.

Lemma approach_ok_exec (sq : Q -> Q) (S2N : string -> JsNum) (url : string)
      (s : Simulation) (c : Cmd) :
  List.Forall approach_ok (vehicles s) ->
  List.Forall approach_ok (vehicles (exec sq S2N url s c)).
Proof.
  intros H. destruct c as [d l | dt | ctx | r]; cbn [exec].
  - unfold Sim.spawn. cbn [vehicles set_vehicles].
    apply List.Forall_app. split; [exact H |].
    constructor; [apply approach_ok_new | constructor].
  - destruct (tick_unfold sq S2N url s dt) as (s3 & _ & _ & _ & ->).
    cbn [vehicles set_vehicles]. apply approach_ok_filter.
    apply approach_ok_moveEach; [constructor | exact H].
  - destruct (callAI_begin_keeps S2N url s ctx) as (-> & _). exact H.
  - destruct (callAI_end_keeps S2N s r) as (-> & _). exact H.
Qed.

Lemma approach_ok_run (sq : Q -> Q) (S2N : string -> JsNum) (url : string)
      (cs : list Cmd) :
  forall s, List.Forall approach_ok (vehicles s) ->
            List.Forall approach_ok (vehicles (run sq S2N url s cs)).
Proof.
  unfold run. induction cs as [| c cs IH]; intros s H; cbn [fold_left].
  - exact H.
  - apply IH. now apply approach_ok_exec.
Qed.

Lemma move_on_green (sq : Q -> Q) (s : Simulation) (others : list Vehicle)
      (v : Vehicle) (dt : Q) :
  entered_on_green (light s) v (snd (_move sq s others v dt)).
Proof.
  intros Hph Hout. unfold _move in *. rewrite Hph in *. cbn [snd] in *.
  unfold _approach in *.
  destruct (pastStop v && negb (Light.canGo (light s) (dir v) (move v))).
  { exfalso. apply Hout. exact Hph. }
  destruct (Js.lt (Sim._gap others v) (Fin CONFIG.CAR_GAP)).
  { exfalso. apply Hout. exact Hph. }
  destruct (pastStop (Sim.advance (set_flags v false false) (dir v))
            && Light.canGo (light s) (dir v) (move v)) eqn:Hgo.
  - apply andb_true_iff in Hgo. split; [apply Hgo | reflexivity].
  - exfalso. apply Hout.
    destruct (advance_fields (set_flags v false false) (dir v)) as (_ & _ & _ & -> & _).
    exact Hph.
Qed.

Lemma moveEach_on_green (sq : Q -> Q) (dt : Q) (rest : list Vehicle) :
  forall (s : Simulation) (before : list Vehicle),
  exists after,
    snd (moveEach sq s before rest dt) = before ++ after
    /\ Forall2 (entered_on_green (light s)) rest after.
Proof.
  induction rest as [| v rest IH]; intros s before; cbn [moveEach].
  - exists []. split; [now rewrite app_nil_r | constructor].
  - set (r := if done v then (s, v) else _move sq s (before ++ rest) v dt).
    destruct (IH (fst r) (before ++ [snd r])) as (after & Heq & Hall).
    exists (snd r :: after). split.
    + rewrite Heq, <- app_assoc. reflexivity.
    + assert (light (fst r) = light s) as Hl.
      { unfold r. destruct (done v); [reflexivity | apply move_keeps_control]. }
      rewrite Hl in Hall. constructor; [| exact Hall].
      unfold r. destruct (done v); cbn [snd].
      * intros Hph Hout. contradiction.
      * apply move_on_green.
Qed.

Lemma tick_light_is_loop_light (sq : Q -> Q) (S2N : string -> JsNum) (url : string)
      (s : Simulation) (dt : Q) :
  light (tick sq S2N url s dt)
  = light (match snd (Light.tick (light s) dt) with
           | Some ph =>
               callAI_begin S2N url
                 (set_light (set_simTime s (simTime s + dt)) (fst (Light.tick (light s) dt)))
                 (Some ph)
           | None =>
               set_light (set_simTime s (simTime s + dt)) (fst (Light.tick (light s) dt))
           end).
Proof.
  unfold tick. cbn [light set_vehicles set_simTime].
  match goal with |- light (fst (moveEach sq ?s3 [] ?vs dt)) = _ =>
    destruct (moveEach_keeps_control sq dt vs s3 []) as [-> _] end.
  reflexivity.
Qed.

Lemma tickLoop_on_green (sq : Q -> Q) (S2N : string -> JsNum) (url : string)
      (s : Simulation) (dt : Q) :
  Forall2 (entered_on_green
             (light (match snd (Light.tick (light s) dt) with
                     | Some ph =>
                         callAI_begin S2N url
                           (set_light (set_simTime s (simTime s + dt))
                                      (fst (Light.tick (light s) dt)))
                           (Some ph)
                     | None =>
                         set_light (set_simTime s (simTime s + dt))
                                   (fst (Light.tick (light s) dt))
                     end)))
          (vehicles s) (snd (tickLoop sq S2N url s dt)).
Proof.
  unfold tickLoop. cbn [light set_simTime].
  set (s3 := match snd (Light.tick (light s) dt) with
             | Some ph => _ | None => _ end).
  assert (vehicles s3 = vehicles s) as Hv.
  { unfold s3. destruct (snd (Light.tick (light s) dt)) as [ph |]; [| reflexivity].
    now destruct (callAI_begin_keeps S2N url
                    (set_light (set_simTime s (simTime s + dt))
                               (fst (Light.tick (light s) dt))) (Some ph)) as (-> & _). }
  rewrite Hv.
  destruct (moveEach_on_green sq dt (vehicles s) s3 []) as (after & -> & Hall).
  exact Hall.
Qed.

(** C2, counterexample.  A vehicle spawned on the east arm's straight
    lane while phase ['n'] is green reaches the stop line after 134
    ticks of 1/60 s: it is still approaching, its movement is red, and
    its leading edge lies 0.4 px past the stop coordinate. *)
Lemma leading_edge_past_stop_on_red :
  let s := run (fun q => q) (fun _ => NaN) "" (Sim.new baseline)
               (Spawn east lane1 :: repeat (Tick (1 # 60)) 134) in
  map (fun v => (phase v, Light.canGo (light s) (dir v) (move v),
                 Qlt_bool 0 (overshoot v), Qeq_bool (overshoot v) (4 # 10)))
      (vehicles s)
  = [(approach, false, true, true)].
Proof.
  vm_compute. reflexivity.
Qed.

(** C2, amended.  In every state the simulation reaches, the leading
    edge of a vehicle in the approach phase lies less than one step
    (CAR_SPD = 1.6 px) past its arm's stop coordinate, hence short of
    the intersection box.  A vehicle whose leading edge has reached the
    stop coordinate while its movement is not green does not move: it
    halts and accrues the tick's [dt] of wait time.  A vehicle halted
    only by an insufficient gap to the car ahead does not move and
    accrues no wait time.  No vehicle runs the light: a call of [_move]
    takes a vehicle out of the approach phase only when [canGo] holds
    for its movement, and in every tick, from any state, each vehicle
    that was approaching before the tick and is not at the end of the
    loop over the vehicles has turned on a signal that is green on the
    light as the tick leaves it. *)
Theorem approach_stops_within_one_step
        (sq : Q -> Q) (S2N : string -> JsNum) (url : string) (m : Mode) (cs : list Cmd) :
  let s := run sq S2N url (Sim.new m) cs in
  List.Forall (fun v => phase v = approach ->
                        overshoot v < CONFIG.CAR_SPD /\ overshoot v < stopMargin)
              (vehicles s)
  /\ (forall l others v dt,
        pastStop v = true -> Light.canGo l (dir v) (move v) = false ->
        let v' := _approach sq l others v dt in
        x v' = x v /\ y v' = y v /\ phase v' = phase v
        /\ stopped v' = true /\ waiting v' = true /\ waitSec v' = waitSec v + dt)
  /\ (forall l others v dt,
        pastStop v && negb (Light.canGo l (dir v) (move v)) = false ->
        Js.lt (Sim._gap others v) (Fin CONFIG.CAR_GAP) = true ->
        let v' := _approach sq l others v dt in
        x v' = x v /\ y v' = y v /\ phase v' = phase v
        /\ stopped v' = true /\ waiting v' = false /\ waitSec v' = waitSec v)
  /\ (forall s0 others v dt,
        entered_on_green (light s0) v (snd (_move sq s0 others v dt)))
  /\ (forall s0 dt,
        tick sq S2N url s0 dt
        = set_vehicles (fst (tickLoop sq S2N url s0 dt))
                       (List.filter (fun v => negb (done v))
                                    (snd (tickLoop sq S2N url s0 dt)))
        /\ Forall2 (entered_on_green (light (tick sq S2N url s0 dt)))
                   (vehicles s0) (snd (tickLoop sq S2N url s0 dt))).
Proof.
  intros s. split; [| split; [| split; [| split]]].
  - assert (List.Forall approach_ok (vehicles s)) as H.
    { apply approach_ok_run. constructor. }
    eapply List.Forall_impl; [| exact H].
    intros v Hv Hph. specialize (Hv Hph).
    split; [exact Hv |]. unfold stopMargin, CONFIG.CAR_L. unfold CONFIG.CAR_SPD in Hv. lra.
  - intros l others v dt Hp Hred v'. unfold v', _approach.
    rewrite Hp, Hred. cbn. repeat split; reflexivity.
  - intros l others v dt Hn Hgap v'. unfold v', _approach.
    rewrite Hn, Hgap. cbn. repeat split; reflexivity.
  - intros s0 others v dt. apply move_on_green.
  - intros s0 dt. split; [reflexivity |].
    rewrite tick_light_is_loop_light. apply tickLoop_on_green.
Qed.

Lemma approach_stops_within_one_step_witness :
  let v := set_pos (Vehicle_new east lane1) (1844 # 10) 230 in
  let v' := _approach (fun q => q) (Light.new baseline) [] v (1 # 60) in
  x v' = x v /\ y v' = y v /\ phase v' = phase v
  /\ stopped v' = true /\ waiting v' = true /\ waitSec v' = waitSec v + (1 # 60).
Proof.
  intros v.
  assert (pastStop v = true) as Hp by reflexivity.
  assert (Light.canGo (Light.new baseline) (dir v) (move v) = false) as Hred
      by reflexivity.
  exact (proj1 (proj2 (approach_stops_within_one_step
                         (fun q => q) (fun _ => NaN) "" baseline []))
               (Light.new baseline) [] v (1 # 60) Hp Hred).
Defined.

(* ================================================================= *)
(** ** TrafficMaster: determinism *)

Lemma Qlt_bool_compat (a a' b b' : Q) :
  a == a' -> b == b' -> Qlt_bool a b = Qlt_bool a' b'.
Proof.
  intros Ha Hb.
  destruct (Qlt_bool a b) eqn:E, (Qlt_bool a' b') eqn:E'; try reflexivity.
  - apply Qlt_bool_true in E. apply Qlt_bool_false in E'. lra.
  - apply Qlt_bool_false in E. apply Qlt_bool_true in E'. lra.
Qed.

Lemma Qle_bool_compat (a a' b b' : Q) :
  a == a' -> b == b' -> Qle_bool a b = Qle_bool a' b'.
Proof.
  intros Ha Hb.
  destruct (Qle_bool a b) eqn:E, (Qle_bool a' b') eqn:E'; try reflexivity.
  - apply Qle_bool_iff in E. apply Qle_bool_false in E'. lra.
  - apply Qle_bool_false in E. apply Qle_bool_iff in E'. lra.
Qed.

Lemma insert_by_time_same (e e' : Sched) (l l' : list Sched) :
  same_sched e e' -> Forall2 same_sched l l' ->
  Forall2 same_sched (Master.insert_by_time e l) (Master.insert_by_time e' l').
Proof.
  intros He Hl. induction Hl as [| h h' tl tl' Hh Htl IH]; cbn [Master.insert_by_time].
  - constructor; [exact He | constructor].
  - rewrite (Qlt_bool_compat (time e) (time e') (time h) (time h'))
      by (apply He || apply Hh).
    destruct (Qlt_bool (time e') (time h')).
    + constructor; [exact He | constructor; assumption].
    + constructor; assumption.
Qed.

Lemma sort_by_time_same (l l' : list Sched) :
  Forall2 same_sched l l' ->
  Forall2 same_sched (Master.sort_by_time l) (Master.sort_by_time l').
Proof.
  unfold Master.sort_by_time.
  assert (forall acc acc', Forall2 same_sched acc acc' ->
                           Forall2 same_sched l l' ->
                           Forall2 same_sched
                             (fold_left (fun a e => Master.insert_by_time e a) l acc)
                             (fold_left (fun a e => Master.insert_by_time e a) l' acc'))
    as H.
  { intros acc acc' Hacc Hl. revert acc acc' Hacc.
    induction Hl as [| h h' tl tl' Hh Htl IH]; intros acc acc' Hacc; cbn [fold_left].
    - exact Hacc.
    - apply IH. now apply insert_by_time_same. }
  intros Hl. apply H; [constructor | exact Hl].
Qed.

Lemma sort_same (a b : TrafficMaster) :
  same_master a b -> same_master (Master._sort a) (Master._sort b).
Proof.
  intros (Hs & Hq & Ht). unfold Master._sort, same_master. cbn.
  split; [exact Hs | split; [now apply sort_by_time_same | exact Ht]].
Qed.

Lemma push_same (a b : TrafficMaster) (e e' : Sched) :
  same_master a b -> same_sched e e' ->
  same_master (Master.push a e) (Master.push b e').
Proof.
  intros (Hs & Hq & Ht) He. unfold Master.push, same_master. cbn.
  split; [exact Hs | split; [| exact Ht]].
  apply Forall2_app; [exact Hq | constructor; [exact He | constructor]].
Qed.

Lemma drain_same (now now' : Q) (q q' : list Sched) :
  now == now' -> Forall2 same_sched q q' ->
  fst (Master.drain now q) = fst (Master.drain now' q')
  /\ Forall2 same_sched (snd (Master.drain now q)) (snd (Master.drain now' q')).
Proof.
  intros Hn Hq. induction Hq as [| e e' tl tl' He Htl IH]; cbn [Master.drain].
  - split; [reflexivity | constructor].
  - destruct He as (Ht & Hd & Hl).
    rewrite (Qle_bool_compat (time e) (time e') now now' Ht Hn).
    destruct (Qle_bool (time e') now'); cbn [fst snd].
    + destruct IH as [IH1 IH2]. split; [| exact IH2].
      now rewrite IH1, Hd, Hl.
    + split; [reflexivity |]. constructor; [repeat split; assumption | exact Htl].
Qed.

Lemma draw_same (a b : TrafficMaster) (ev : list Event) (dl : Arm * Lane) :
  same_master a b ->
  same_master (fst (Master.draw (a, ev) dl)) (fst (Master.draw (b, ev) dl))
  /\ snd (Master.draw (a, ev) dl) = snd (Master.draw (b, ev) dl).
Proof.
  intros (Hs & Hq & Ht). unfold Master.draw, Master._rng. cbn [fst snd].
  rewrite <- Hs.
  destruct (Qlt_bool _ CONFIG.SPAWN_RATE); cbn [fst snd];
    (split; [repeat split; assumption | reflexivity]).
Qed.

Lemma draws_same (sl : list (Arm * Lane)) :
  forall (a b : TrafficMaster) (ev : list Event),
    same_master a b ->
    same_master (fst (fold_left Master.draw sl (a, ev)))
                (fst (fold_left Master.draw sl (b, ev)))
    /\ snd (fold_left Master.draw sl (a, ev)) = snd (fold_left Master.draw sl (b, ev)).
Proof.
  induction sl as [| dl sl IH]; intros a b ev Hab; cbn [fold_left].
  - split; [exact Hab | reflexivity].
  - destruct (draw_same a b ev dl Hab) as [Hm He].
    destruct (Master.draw (a, ev) dl) as [a1 ev1], (Master.draw (b, ev) dl) as [b1 ev2].
    cbn [fst snd] in Hm, He. subst ev2. now apply IH.
Qed.

Lemma tick_same (a b : TrafficMaster) (dt dt' : Q) :
  same_master a b -> dt == dt' ->
  same_master (fst (Master.tick a dt)) (fst (Master.tick b dt'))
  /\ snd (Master.tick a dt) = snd (Master.tick b dt').
Proof.
  intros (Hs & Hq & Ht) Hdt. unfold Master.tick.
  assert (_t a + dt == _t b + dt') as Hnow by (rewrite Ht, Hdt; reflexivity).
  destruct (drain_same _ _ _ _ Hnow Hq) as [Hev Hrest].
  rewrite Hev. apply draws_same. repeat split; assumption.
Qed.

Lemma fold_same {A : Type} (F G : TrafficMaster -> A -> TrafficMaster) (l : list A) :
  (forall a b i, same_master a b -> same_master (F a i) (G b i)) ->
  forall a b, same_master a b -> same_master (fold_left F l a) (fold_left G l b).
Proof.
  intros HFG. induction l as [| i l IH]; intros a b Hab; cbn [fold_left].
  - exact Hab.
  - apply IH. now apply HFG.
Qed.

Lemma injectDir_same (a b : TrafficMaster) (d : Arm) :
  same_master a b -> same_master (Master.injectDir a d) (Master.injectDir b d).
Proof.
  intros Hab. unfold Master.injectDir. apply sort_same.
  apply fold_same; [| exact Hab].
  intros a0 b0 l H0. apply push_same; [exact H0 |].
  destruct Hab as (_ & _ & Ht). repeat split. cbn [time]. now rewrite Ht.
Qed.

Lemma bulkAdd_same (a b : TrafficMaster) (tg : Master.Target) (n : nat) :
  same_master a b -> same_master (Master.bulkAdd a tg n) (Master.bulkAdd b tg n).
Proof.
  intros Hab. unfold Master.bulkAdd. apply sort_same.
  apply fold_same; [| exact Hab].
  intros a0 b0 [[d i] l] H0. apply push_same; [exact H0 |].
  destruct Hab as (_ & _ & Ht). repeat split. cbn [time]. now rewrite Ht.
Qed.

Lemma run_same (cs cs' : list Master.Call) :
  Forall2 Master.same_call cs cs' ->
  forall a b, same_master a b -> Master.run a cs = Master.run b cs'.
Proof.
  induction 1 as [| c c' cs cs' Hc Hcs IH]; intros a b Hab; [reflexivity |].
  destruct c as [dt | d | tg n], c' as [dt' | d' | tg' n'];
    cbn [Master.same_call] in Hc; try contradiction; cbn [Master.run].
  - destruct (tick_same a b dt dt' Hab Hc) as [Hm He].
    rewrite He. f_equal. now apply IH.
  - subst d'. apply IH. now apply injectDir_same.
  - destruct Hc as [<- <-]. apply IH. now apply bulkAdd_same.
Qed.

(** Every [tick] advances the seed by one generator step per
    (arm, lane) slot, twelve in all, whatever it emits. *)
Lemma draws_seed (sl : list (Arm * Lane)) :
  forall acc : TrafficMaster * list Event,
    _seed (fst (fold_left Master.draw sl acc))
    = fold_left (fun s _ => toUint32 (imul s 1664525 + 1013904223)%Z) sl (_seed (fst acc)).
Proof.
  induction sl as [| dl sl IH]; intros acc; cbn [fold_left]; [reflexivity |].
  rewrite IH. f_equal. unfold Master.draw, Master._rng. cbn [fst snd].
  destruct (Qlt_bool _ CONFIG.SPAWN_RATE); reflexivity.
Qed.

Lemma tick_seed (m : TrafficMaster) (dt : Q) :
  _seed (fst (Master.tick m dt))
  = fold_left (fun s _ => toUint32 (imul s 1664525 + 1013904223)%Z)
              Master.slots (_seed m)
  /\ length Master.slots = 12%nat.
Proof.
  split; [| reflexivity]. unfold Master.tick. now rewrite draws_seed.
Qed.

(** C3.  Two spawners constructed with the same seed and driven by the
    same sequence of [tick], [injectDir] and [bulkAdd] calls with
    identical arguments return, tick by tick, the same event lists:
    the same events in the same order. *)
Theorem spawner_deterministic (seed : Z) (cs cs' : list Master.Call) :
  Forall2 Master.same_call cs cs' ->
  Master.run (Master.new seed) cs = Master.run (Master.new seed) cs'.
Proof.
  intros H. apply (run_same cs cs' H).
  repeat split. constructor.
Qed.

Lemma spawner_deterministic_witness :
  Master.run (Master.new 1337) [Master.CInjectDir north; Master.CTick (1 # 2)]
  = Master.run (Master.new 1337) [Master.CInjectDir north; Master.CTick (2 # 4)].
Proof.
  apply (spawner_deterministic 1337).
  constructor; [reflexivity |]. constructor; [reflexivity | constructor].
Defined.

(* ================================================================= *)
(** * Further properties *)

(** ** TrafficMaster: generator, schedule and drain *)

Lemma toInt32_mod (z : Z) : (toInt32 z mod 2 ^ 32 = z mod 2 ^ 32)%Z.
Proof.
  unfold toInt32. destruct (2 ^ 31 <=? z mod 2 ^ 32)%Z.
  - rewrite <- (Z.mod_add (z mod 2 ^ 32 - 2 ^ 32) 1 (2 ^ 32)) by lia.
    replace (z mod 2 ^ 32 - 2 ^ 32 + 1 * 2 ^ 32)%Z with (z mod 2 ^ 32)%Z by lia.
    apply Z.mod_mod. lia.
  - apply Z.mod_mod. lia.
Qed.

Lemma imul_mod (a b : Z) : (imul a b mod 2 ^ 32 = (a * b) mod 2 ^ 32)%Z.
Proof.
  unfold imul. rewrite toInt32_mod.
  rewrite Z.mul_mod by lia. rewrite !toInt32_mod.
  rewrite <- Z.mul_mod by lia. reflexivity.
Qed.

(** X1.  [_rng] is the linear congruential generator with multiplier
    1664525, increment 1013904223 and modulus 2^32, for every integer
    seed: [Math.imul] and [>>> 0] lose nothing.  The new seed is a
    32-bit unsigned integer, the value returned lies in [0, 1), and the
    schedule and the clock are untouched. *)
Theorem rng_is_lcg (m : TrafficMaster) :
  let r := Master._rng m in
  _seed (fst r) = lcg_next (_seed m)
  /\ (0 <= _seed (fst r) < 2 ^ 32)%Z
  /\ snd r == inject_Z (lcg_next (_seed m)) / inject_Z (2 ^ 32)
  /\ 0 <= snd r /\ snd r < 1
  /\ _queue (fst r) = _queue m /\ _t (fst r) = _t m.
Proof.
  intros r.
  assert (_seed (fst r) = lcg_next (_seed m)) as Hs.
  { unfold r, Master._rng, lcg_next, toUint32. cbn [fst _seed].
    rewrite Z.add_mod by lia. rewrite imul_mod.
    rewrite <- Z.add_mod by lia. f_equal. lia. }
  assert (0 <= lcg_next (_seed m) < 2 ^ 32)%Z as Hr.
  { unfold lcg_next. apply Z.mod_pos_bound. lia. }
  assert (snd r = inject_Z (_seed (fst r)) / inject_Z (2 ^ 32)) as Hv by reflexivity.
  assert (0 < inject_Z (2 ^ 32)) as Hpos by reflexivity.
  split; [exact Hs |]. split; [now rewrite Hs |].
  split; [now rewrite Hv, Hs |]. rewrite Hv, Hs.
  split; [| split; [| split; reflexivity]].
  - apply Qle_shift_div_l; [exact Hpos |].
    rewrite Qmult_0_l. change 0 with (inject_Z 0). rewrite <- Zle_Qle. lia.
  - apply Qlt_shift_div_r; [exact Hpos |].
    rewrite Qmult_1_l. rewrite <- Zlt_Qlt. lia.
Qed.

Lemma insert_by_time_perm (e : Sched) (l : list Sched) :
  Master.insert_by_time e l ≡ₚ e :: l.
Proof.
  induction l as [| h tl IH]; cbn [Master.insert_by_time]; [reflexivity |].
  destruct (Qlt_bool (time e) (time h)); [reflexivity |].
  rewrite IH. apply Permutation_swap.
Qed.

Lemma insert_by_time_sorted (e : Sched) (l : list Sched) :
  StronglySorted time_le l -> StronglySorted time_le (Master.insert_by_time e l).
Proof.
  induction 1 as [| h tl Hs IH Hh]; cbn [Master.insert_by_time].
  - repeat constructor.
  - destruct (Qlt_bool (time e) (time h)) eqn:E.
    + apply Qlt_bool_true in E. constructor; [constructor; assumption |].
      constructor; [unfold time_le; lra |].
      eapply List.Forall_impl; [| exact Hh]. unfold time_le. intros a Ha. lra.
    + apply Qlt_bool_false in E. constructor; [exact IH |].
      rewrite insert_by_time_perm. constructor; [exact E | exact Hh].
Qed.

Lemma sort_by_time_spec (l : list Sched) :
  StronglySorted time_le (Master.sort_by_time l) /\ Master.sort_by_time l ≡ₚ l.
Proof.
  unfold Master.sort_by_time.
  assert (forall acc, StronglySorted time_le acc ->
            StronglySorted time_le
              (fold_left (fun a e => Master.insert_by_time e a) l acc)
            /\ fold_left (fun a e => Master.insert_by_time e a) l acc ≡ₚ acc ++ l) as H.
  { induction l as [| e l IH]; intros acc Hacc; cbn [fold_left].
    - split; [exact Hacc | now rewrite app_nil_r].
    - destruct (IH (Master.insert_by_time e acc)) as [Hs Hp];
        [now apply insert_by_time_sorted |].
      split; [exact Hs |]. rewrite Hp, insert_by_time_perm.
      cbn [app]. apply Permutation_middle. }
  destruct (H [] ltac:(constructor)) as [Hs Hp]. split; [exact Hs | exact Hp].
Qed.

(** X2.  [_sort] leaves the schedule in ascending order of time and
    only reorders it: no entry is lost, added or changed, and the seed
    and the clock are untouched. *)
Theorem sort_ascending_permutation (m : TrafficMaster) :
  StronglySorted time_le (_queue (Master._sort m))
  /\ _queue (Master._sort m) ≡ₚ _queue m
  /\ _seed (Master._sort m) = _seed m /\ _t (Master._sort m) = _t m.
Proof.
  unfold Master._sort. cbn [_queue _seed _t].
  destruct (sort_by_time_spec (_queue m)) as [Hs Hp].
  repeat split; assumption.
Qed.

Lemma pushes_spec {A : Type} (F : TrafficMaster -> A -> TrafficMaster)
      (f : A -> Sched) (l : list A) :
  (forall acc i, F acc i = Master.push acc (f i)) ->
  forall m, _queue (fold_left F l m) = _queue m ++ map f l
            /\ _seed (fold_left F l m) = _seed m /\ _t (fold_left F l m) = _t m.
Proof.
  intros HF. induction l as [| i l IH]; intros m; cbn [fold_left map].
  - now rewrite app_nil_r.
  - destruct (IH (F m i)) as (Hq & Hs & Ht). rewrite Hq, Hs, Ht, HF.
    unfold Master.push. cbn [_queue _seed _t]. now rewrite <- app_assoc.
Qed.

(** X3.  [injectDir] schedules exactly one entry per lane of the arm,
    at 0.05, 0.45 and 0.85 s after the current clock, and [bulkAdd]
    [n] entries per lane of each arm it names, entry [i] of lane [l]
    at [i * 0.5 + l * 0.15] s; both keep every entry already scheduled
    and leave the schedule in ascending order. *)
Theorem inject_and_bulk_schedule (m : TrafficMaster) (d : Arm) (tg : Master.Target)
        (n : nat) :
  let dirs := match tg with Master.all => [north; south; east; west]
                       | Master.only a => [a] end in
  _queue (Master.injectDir m d)
    ≡ₚ _queue m ++ map (fun l => mkSched (_t m + inject_Z (laneIdx l) * (4 # 10) + (5 # 100))
                                     d l) LANES
  /\ StronglySorted time_le (_queue (Master.injectDir m d))
  /\ _queue (Master.bulkAdd m tg n)
       ≡ₚ _queue m ++ map (fun dil : Arm * nat * Lane =>
                             mkSched (_t m + inject_Z (Z.of_nat (snd (fst dil))) * (5 # 10)
                                      + inject_Z (laneIdx (snd dil)) * (15 # 100))
                                     (fst (fst dil)) (snd dil))
                          (a ← dirs; i ← seq 0 n; l ← LANES; [(a, i, l)])
  /\ StronglySorted time_le (_queue (Master.bulkAdd m tg n))
  /\ length (_queue (Master.injectDir m d)) = (length (_queue m) + 3)%nat
  /\ length (_queue (Master.bulkAdd m tg n))
     = (length (_queue m) + 3 * n * length dirs)%nat.
Proof.
  intros dirs.
  pose proof (pushes_spec
                (fun acc l => Master.push acc
                   (mkSched (_t m + inject_Z (laneIdx l) * (4 # 10) + (5 # 100)) d l))
                (fun l => mkSched (_t m + inject_Z (laneIdx l) * (4 # 10) + (5 # 100)) d l)
                LANES (fun _ _ => eq_refl) m) as (Hi & _).
  pose proof (pushes_spec
                (fun acc (dil : Arm * nat * Lane) =>
                   let '(a, i, l) := dil in
                   Master.push acc
                     (mkSched (_t m + inject_Z (Z.of_nat i) * (5 # 10)
                               + inject_Z (laneIdx l) * (15 # 100)) a l))
                (fun dil : Arm * nat * Lane =>
                   mkSched (_t m + inject_Z (Z.of_nat (snd (fst dil))) * (5 # 10)
                            + inject_Z (laneIdx (snd dil)) * (15 # 100))
                           (fst (fst dil)) (snd dil))
                (a ← dirs; i ← seq 0 n; l ← LANES; [(a, i, l)])
                (fun _ '(a, i, l) => eq_refl) m) as (Hb & _).
  assert (_queue (Master.injectDir m d)
            ≡ₚ _queue m ++ map (fun l => mkSched (_t m + inject_Z (laneIdx l) * (4 # 10)
                                                  + (5 # 100)) d l) LANES) as Pi.
  { unfold Master.injectDir, Master._sort. cbn [_queue].
    rewrite (proj2 (sort_by_time_spec _)). now rewrite Hi. }
  assert (_queue (Master.bulkAdd m tg n)
            ≡ₚ _queue m ++ map (fun dil : Arm * nat * Lane =>
                                  mkSched (_t m + inject_Z (Z.of_nat (snd (fst dil))) * (5 # 10)
                                           + inject_Z (laneIdx (snd dil)) * (15 # 100))
                                          (fst (fst dil)) (snd dil))
                               (a ← dirs; i ← seq 0 n; l ← LANES; [(a, i, l)])) as Pb.
  { unfold Master.bulkAdd, Master._sort. fold dirs. cbn [_queue].
    rewrite (proj2 (sort_by_time_spec _)). now rewrite Hb. }
  split; [exact Pi |].
  split; [apply sort_by_time_spec |].
  split; [exact Pb |].
  split; [apply sort_by_time_spec |].
  split.
  - rewrite Pi, length_app, length_map. reflexivity.
  - rewrite Pb, length_app, length_map. f_equal.
    assert (forall ds : list Arm,
              length (a ← ds; i ← seq 0 n; l ← LANES; [(a, i, l)]) = (3 * n * length ds)%nat)
      as Hlen.
    { assert (forall (a : Arm) (k : nat) (ks : list nat),
                length (i ← ks; l ← LANES; [(a, i, l)]) = (3 * length ks)%nat) as Hin.
      { intros a k ks. induction ks as [| i ks IH]; [reflexivity |].
        cbn [mbind list_bind] in *. rewrite length_app. cbn [length] in *.
        rewrite IH. cbn. lia. }
      induction ds as [| a ds IH]; [cbn; lia |].
      cbn [mbind list_bind] in *. rewrite length_app, IH.
      rewrite (Hin a 0%nat (seq 0 n)), length_seq. cbn [length]. lia. }
    apply Hlen.
Qed.

Lemma draw_spec (acc : TrafficMaster * list Event) (dl : Arm * Lane) :
  _queue (fst (Master.draw acc dl)) = _queue (fst acc)
  /\ _t (fst (Master.draw acc dl)) = _t (fst acc)
  /\ (snd (Master.draw acc dl) = snd acc ++ [mkEvent (fst dl) (snd dl)]
      \/ snd (Master.draw acc dl) = snd acc).
Proof.
  unfold Master.draw, Master._rng. cbn [fst snd].
  destruct (Qlt_bool _ CONFIG.SPAWN_RATE); cbn [fst snd _queue _t]; auto.
Qed.

Lemma draws_spec (sl : list (Arm * Lane)) :
  forall acc : TrafficMaster * list Event,
    _queue (fst (fold_left Master.draw sl acc)) = _queue (fst acc)
    /\ _t (fst (fold_left Master.draw sl acc)) = _t (fst acc)
    /\ exists bg, snd (fold_left Master.draw sl acc) = snd acc ++ bg
                  /\ (length bg <= length sl)%nat
                  /\ sublist bg (map (fun dl => mkEvent (fst dl) (snd dl)) sl).
Proof.
  induction sl as [| dl sl IH]; intros acc; cbn [fold_left].
  - split; [reflexivity | split; [reflexivity |]].
    exists []. rewrite app_nil_r. repeat split; [cbn; lia | constructor].
  - destruct (IH (Master.draw acc dl)) as (Hq & Ht & bg & Hbg & Hlen & Hsub).
    destruct (draw_spec acc dl) as (Dq & Dt & [Ds | Ds]).
    + rewrite Hq, Ht, Dq, Dt. split; [reflexivity | split; [reflexivity |]].
      exists (mkEvent (fst dl) (snd dl) :: bg). split; [| split].
      * rewrite Hbg, Ds. now rewrite <- app_assoc.
      * cbn [length]. lia.
      * cbn [map]. now constructor.
    + rewrite Hq, Ht, Dq, Dt. split; [reflexivity | split; [reflexivity |]].
      exists bg. split; [| split].
      * now rewrite Hbg, Ds.
      * cbn [length]. lia.
      * cbn [map]. now constructor.
Qed.

Lemma drain_spec (now : Q) (q : list Sched) :
  exists k : nat,
    fst (Master.drain now q) = map toEvent (take k q)
    /\ snd (Master.drain now q) = drop k q
    /\ List.Forall (fun e => time e <= now) (take k q)
    /\ match drop k q with [] => True | e :: _ => now < time e end.
Proof.
  induction q as [| e q IH]; cbn [Master.drain].
  - exists 0%nat. repeat split. constructor.
  - destruct (Qle_bool (time e) now) eqn:E.
    + destruct IH as (k & Hf & Hs & Hd & Hh). exists (S k). cbn [fst snd take drop map].
      rewrite Hf, Hs. repeat split; [| exact Hh].
      constructor; [now apply Qle_bool_iff | exact Hd].
    + exists 0%nat. cbn [fst snd take drop map]. repeat split; [constructor |].
      now apply Qle_bool_false.
Qed.

(** X4.  A tick advances the clock by [dt], emits first the scheduled
    entries whose time has come, in schedule order, and removes exactly
    those from the schedule; the first entry left, if any, is not yet
    due.  It then emits background arrivals: at most twelve, at most
    one per (arm, lane) and in the order north, south, east, west,
    lanes 0 to 2. *)
Theorem tick_drains_due_then_background (m : TrafficMaster) (dt : Q) :
  let m' := fst (Master.tick m dt) in
  exists (k : nat) (bg : list Event),
    snd (Master.tick m dt) = map toEvent (take k (_queue m)) ++ bg
    /\ _queue m' = drop k (_queue m)
    /\ _t m' = _t m + dt
    /\ List.Forall (fun e => time e <= _t m') (take k (_queue m))
    /\ match _queue m' with [] => True | e :: _ => _t m' < time e end
    /\ (length bg <= 12)%nat
    /\ sublist bg (map (fun dl => mkEvent (fst dl) (snd dl)) Master.slots).
Proof.
  intros m'. unfold m', Master.tick.
  destruct (drain_spec (_t m + dt) (_queue m)) as (k & Hf & Hs & Hd & Hh).
  destruct (draws_spec Master.slots
              (mkMaster (_seed m) (snd (Master.drain (_t m + dt) (_queue m))) (_t m + dt),
               fst (Master.drain (_t m + dt) (_queue m))))
    as (Hq & Ht & bg & Hbg & Hlen & Hsub).
  cbn [fst snd _queue _t] in Hq, Ht, Hbg.
  exists k, bg. rewrite Hq, Ht, Hbg, Hf, Hs.
  repeat split; try assumption.
Qed.

Lemma drain_sorted (now : Q) (q : list Sched) :
  StronglySorted time_le q ->
  StronglySorted time_le (snd (Master.drain now q))
  /\ List.Forall (fun e => now < time e) (snd (Master.drain now q)).
Proof.
  induction 1 as [| e q Hs IH Hh]; cbn [Master.drain].
  - split; constructor.
  - destruct (Qle_bool (time e) now) eqn:E; cbn [snd]; [exact IH |].
    apply Qle_bool_false in E. split; [now constructor |].
    constructor; [exact E |].
    eapply List.Forall_impl; [| exact Hh]. unfold time_le. intros a Ha. lra.
Qed.

Lemma masterExec_sorted (m : TrafficMaster) (c : Master.Call) :
  StronglySorted time_le (_queue m) -> StronglySorted time_le (_queue (masterExec m c)).
Proof.
  intros Hs. destruct c as [dt | d | tg n]; cbn [masterExec].
  - unfold Master.tick.
    destruct (draws_spec Master.slots
                (mkMaster (_seed m) (snd (Master.drain (_t m + dt) (_queue m))) (_t m + dt),
                 fst (Master.drain (_t m + dt) (_queue m)))) as (Hq & _).
    rewrite Hq. cbn [fst _queue]. now apply drain_sorted.
  - unfold Master.injectDir, Master._sort. cbn [_queue]. apply sort_by_time_spec.
  - unfold Master.bulkAdd, Master._sort. cbn [_queue]. apply sort_by_time_spec.
Qed.

(** X5.  Whatever calls a spawner has received since construction, its
    schedule is in ascending order of time, and after a tick every
    entry still scheduled lies strictly in the future of the clock: a
    tick never leaves a due entry behind. *)
Theorem schedule_sorted_and_future (seed : Z) (cs : list Master.Call) (dt : Q) :
  let m := masterRun (Master.new seed) cs in
  StronglySorted time_le (_queue m)
  /\ List.Forall (fun e => _t (fst (Master.tick m dt)) < time e)
                 (_queue (fst (Master.tick m dt))).
Proof.
  intros m.
  assert (StronglySorted time_le (_queue m)) as Hs.
  { unfold m, masterRun.
    assert (forall m0, StronglySorted time_le (_queue m0) ->
                       StronglySorted time_le (_queue (fold_left masterExec cs m0))) as H.
    { induction cs as [| c cs IH]; intros m0 H0; cbn [fold_left]; [exact H0 |].
      apply IH. now apply masterExec_sorted. }
    apply H. constructor. }
  split; [exact Hs |]. unfold Master.tick.
  destruct (draws_spec Master.slots
              (mkMaster (_seed m) (snd (Master.drain (_t m + dt) (_queue m))) (_t m + dt),
               fst (Master.drain (_t m + dt) (_queue m)))) as (Hq & Ht & _).
  rewrite Hq, Ht. cbn [fst _queue _t]. now apply drain_sorted.
Qed.

(* ================================================================= *)
(** ** TrafficLight: signal state, timer and rotation *)

(** [stateFor] and [canGo] agree: a movement may go exactly when
    its signal shows green; the signal is red exactly when the phase
    does not allow the movement or the sub-phase is all-red, and yellow
    exactly when the phase allows it and the sub-phase is yellow. *)
Theorem stateFor_agrees_with_canGo (l : TrafficLight) (d : Arm) (mv : Movement) :
  (Light.canGo l d mv = true <-> Light.stateFor l d mv = sigGreen)
  /\ (Light.stateFor l d mv = sigRed
      <-> phaseAllows (_phaseKey l) d mv = false \/ subPhase l = allred)
  /\ (Light.stateFor l d mv = sigYellow
      <-> phaseAllows (_phaseKey l) d mv = true /\ subPhase l = yellow).
Proof.
  unfold Light.canGo, Light.stateFor.
  destruct (phaseAllows (_phaseKey l) d mv), (subPhase l); cbn;
    repeat split; intros; try discriminate; try tauto;
    match goal with
    | H : _ \/ _ |- _ => destruct H; discriminate
    | H : _ /\ _ |- _ => destruct H; discriminate
    end.
Qed.

Lemma light_tick_cases (l : TrafficLight) (dt : Q) :
  let l' := fst (Light.tick l dt) in
  greenDur l' = greenDur l /\ l_mode l' = l_mode l /\ onPhaseEnd l' = onPhaseEnd l
  /\ ((Light.timer_lt (timer l + dt) (Light.dur l) = true
       /\ subPhase l' = subPhase l /\ _phaseKey l' = _phaseKey l
       /\ _seqIdx l' = _seqIdx l /\ _nextOverride l' = _nextOverride l
       /\ timer l' = timer l + dt)
      \/ (Light.timer_lt (timer l + dt) (Light.dur l) = false /\ timer l' = 0
          /\ ((subPhase l = green /\ subPhase l' = yellow /\ _phaseKey l' = _phaseKey l
               /\ _seqIdx l' = _seqIdx l /\ _nextOverride l' = _nextOverride l)
              \/ (subPhase l = yellow /\ subPhase l' = allred /\ _phaseKey l' = _phaseKey l
                  /\ _seqIdx l' = _seqIdx l /\ _nextOverride l' = _nextOverride l)
              \/ (subPhase l = allred /\ subPhase l' = green /\ _nextOverride l' = None)))).
Proof.
  unfold Light.tick.
  destruct (Light.timer_lt (timer l + dt) (Light.dur l)) eqn:E.
  - cbn. repeat split. left. repeat split.
  - destruct (subPhase l) eqn:Hs.
    + cbn. repeat split. right. repeat split. left. repeat split.
    + cbn. repeat split. right. repeat split. right. left. repeat split.
    + destruct (_nextOverride l); cbn; repeat split; right; repeat split;
        right; right; repeat split.
Qed.

(** X6.  A tick either only adds [dt] to the timer, or resets the timer
    and moves the sub-phase one step along green, yellow, all-red,
    green, never skipping one.  The current phase can change only on
    the step from all-red to green, which also clears the pending
    override; the stored green durations never change. *)
Theorem tick_follows_cycle (l : TrafficLight) (dt : Q) :
  let l' := fst (Light.tick l dt) in
  greenDur l' = greenDur l
  /\ (subPhase l' = subPhase l -> _phaseKey l' = _phaseKey l /\ timer l' = timer l + dt)
  /\ (subPhase l' <> subPhase l ->
      timer l' = 0
      /\ subPhase l' = match subPhase l with
                       | green => yellow | yellow => allred | allred => green
                       end)
  /\ (_phaseKey l' <> _phaseKey l ->
      subPhase l = allred /\ subPhase l' = green /\ _nextOverride l' = None).
Proof.
  intros l'. destruct (light_tick_cases l dt) as (Hg & _ & _ & Hc). fold l' in Hg, Hc.
  split; [exact Hg |].
  destruct Hc as [(_ & Hs & Hk & _ & _ & Ht)
                 | (_ & Ht & [(Ha & Hb & Hk & _) | [(Ha & Hb & Hk & _) | (Ha & Hb & Ho)]])].
  - repeat split; try assumption; intros; congruence.
  - rewrite Ha, Hb. repeat split; try assumption; intros; congruence.
  - rewrite Ha, Hb. repeat split; try assumption; intros; congruence.
  - rewrite Ha, Hb. repeat split; try assumption; intros; congruence.
Qed.

Lemma fixed_seq_lookup (i : nat) (k : string) :
  Light._seq !! i = Some k -> Light.indexOf Light._seq k = Some i.
Proof.
  unfold Light._seq, FIXED_PHASE_SEQ.
  destruct i as [| [| [| [| i]]]]; cbn; intros [= <-]; reflexivity.
Qed.

Lemma indexOf_lookup (l : list string) (k : string) (i : nat) :
  Light.indexOf l k = Some i -> l !! i = Some k.
Proof.
  revert i. induction l as [| h tl IH]; intros i; cbn [Light.indexOf]; [discriminate |].
  destruct (String.eqb_spec h k) as [-> | Hne].
  - now intros [= <-].
  - destruct (Light.indexOf tl k) as [j |]; cbn; [| discriminate].
    intros [= <-]. cbn. now apply IH.
Qed.

Lemma indexOf_None (l : list string) (k : string) :
  Light.indexOf l k = None -> ~ In k l.
Proof.
  intros H Hin. apply includes_In in Hin. unfold Light.includes in Hin.
  now rewrite H in Hin.
Qed.

Lemma pointer_ok_tick (l : TrafficLight) (dt : Q) :
  pointer_ok l -> pointer_ok (fst (Light.tick l dt)).
Proof.
  intros [Hlt Hsync]. unfold Light.tick.
  destruct (Light.timer_lt (timer l + dt) (Light.dur l)); [split; assumption |].
  destruct (subPhase l); [split; assumption | split; assumption |].
  destruct (_nextOverride l) as [k |]; cbn [fst].
  - unfold pointer_ok. cbn [_seqIdx _phaseKey].
    destruct (Light.indexOf Light._seq k) as [i |] eqn:E.
    + apply indexOf_lookup in E. split; [| intros _; exact E].
      now apply lookup_lt_Some in E.
    + split; [exact Hlt |]. intros Hin. now apply indexOf_None in E.
  - unfold pointer_ok. cbn [_seqIdx _phaseKey].
    assert ((_seqIdx l + 1) mod length Light._seq < length Light._seq)%nat as Hm.
    { apply Nat.mod_upper_bound. discriminate. }
    split; [exact Hm |]. intros _.
    change (length Light._seq) with 4%nat in *.
    destruct ((_seqIdx l + 1) mod 4)%nat as [| [| [| [| i]]]]; try reflexivity; lia.
Qed.

Lemma pointer_ok_reachable (S2N : string -> JsNum) (ops : list LightOp) :
  forall l, pointer_ok l -> pointer_ok (fold_left (lightExec S2N) ops l).
Proof.
  induction ops as [| op ops IH]; intros l Hl; cbn [fold_left]; [exact Hl |].
  apply IH. destruct op as [dt | id d]; cbn [lightExec].
  - now apply pointer_ok_tick.
  - destruct (setNextPhase_cases S2N l id d) as [-> | (k & _ & ->)]; exact Hl.
Qed.

(** X7.  After any sequence of [tick] and [setNextPhase] calls since
    construction the rotation index is a valid index of the rotation,
    and whenever the current phase belongs to the rotation the index
    points at it: an override inside the rotation realigns the
    pointer, an override outside it leaves the pointer where it was. *)
Theorem rotation_pointer_in_sync (S2N : string -> JsNum) (m : Mode) (ops : list LightOp) :
  let l := fold_left (lightExec S2N) ops (Light.new m) in
  (_seqIdx l < 4)%nat
  /\ (In (_phaseKey l) FIXED_PHASE_SEQ -> FIXED_PHASE_SEQ !! _seqIdx l = Some (_phaseKey l)).
Proof.
  intros l.
  assert (pointer_ok l) as [H1 H2].
  { apply pointer_ok_reachable. split; [cbn; lia | intros _; reflexivity]. }
  split; [exact H1 | exact H2].
Qed.

Lemma allred_dur (l : TrafficLight) :
  subPhase l = allred -> Light.dur l = Some (Fin CONFIG.ALL_RED_DUR).
Proof. unfold Light.dur. now intros ->. Qed.

(** X8.  When the all-red sub-phase expires in a state reached since
    construction, the light turns green with the timer at 0 and no
    override pending.  A pending override is adopted as the new phase,
    and the green duration stored for it is a finite number in
    [5, 60]; without one the light moves to the clockwise successor of
    the current phase in the rotation N, E, S, W. *)
Theorem allred_expiry_selects_phase (S2N : string -> JsNum) (m : Mode)
        (ops : list LightOp) (dt : Q) :
  let l := fold_left (lightExec S2N) ops (Light.new m) in
  let l' := fst (Light.tick l dt) in
  subPhase l = allred ->
  CONFIG.ALL_RED_DUR <= timer l + dt ->
  subPhase l' = green /\ timer l' = 0 /\ _nextOverride l' = None
  /\ (forall k, _nextOverride l = Some k ->
                _phaseKey l' = k
                /\ exists q, Light.dur l' = Some (Fin q) /\ 5 <= q <= 60)
  /\ (forall succ, _nextOverride l = None ->
                   cwSuccessor (_phaseKey l) = Some succ -> _phaseKey l' = succ).
Proof.
  intros l l' Hs Hexp.
  assert (durations_ok l) as (Hall & Hkeys & _ & Hov).
  { apply durations_ok_reachable, durations_ok_new. }
  assert (pointer_ok l) as [Hlt Hsync].
  { apply pointer_ok_reachable. split; [cbn; lia | intros _; reflexivity]. }
  assert (Light.timer_lt (timer l + dt) (Light.dur l) = false) as Hno.
  { rewrite (allred_dur l Hs). cbn. now apply Qlt_bool_false. }
  unfold l', Light.tick. rewrite Hno, Hs.
  destruct (_nextOverride l) as [k0 |] eqn:E; cbn [fst subPhase timer _nextOverride _phaseKey].
  - split; [reflexivity | split; [reflexivity | split; [reflexivity | split]]].
    + intros k [= <-]. split; [reflexivity |].
      unfold Light.dur. cbn [subPhase greenDur _phaseKey].
      destruct (Hkeys k0 (Hov k0 eq_refl)) as (d & Hd).
      destruct (Hall _ _ Hd) as (q & -> & Hq). now exists q.
    + discriminate.
  - split; [reflexivity | split; [reflexivity | split; [reflexivity | split]]].
    + discriminate.
    + intros succ _ Hsucc. unfold cwSuccessor in Hsucc.
      destruct (Light.indexOf FIXED_PHASE_SEQ (_phaseKey l)) as [i |] eqn:Ei;
        [| discriminate].
      pose proof (indexOf_lookup _ _ _ Ei) as Hi.
      assert (In (_phaseKey l) Light._seq) as Hin.
      { apply list_elem_of_In. eapply list_elem_of_lookup_2. exact Hi. }
      specialize (Hsync Hin). apply fixed_seq_lookup in Hsync.
      unfold Light._seq in Hsync. rewrite Ei in Hsync. injection Hsync as ->.
      unfold Light._seq in *. change (length FIXED_PHASE_SEQ) with 4%nat in *.
      assert ((_seqIdx l + 1) mod 4 < 4)%nat as Hm by (apply Nat.mod_upper_bound; lia).
      destruct ((_seqIdx l + 1) mod 4)%nat as [| [| [| [| j]]]]; try lia;
        cbn in Hsucc |- *; congruence.
Qed.

Lemma allred_expiry_selects_phase_witness :
  _phaseKey (fst (Light.tick
                    (fold_left (lightExec (fun _ => NaN))
                               [LTick 15; LSetNextPhase (VNumber (Fin 3)) (VNumber (Fin 70));
                                LTick 3]
                               (Light.new ai)) 1)) = PH.S.
Proof.
  assert (subPhase (fold_left (lightExec (fun _ => NaN))
                      [LTick 15; LSetNextPhase (VNumber (Fin 3)) (VNumber (Fin 70)); LTick 3]
                      (Light.new ai)) = allred) as Hs by reflexivity.
  assert (CONFIG.ALL_RED_DUR
          <= timer (fold_left (lightExec (fun _ => NaN))
                      [LTick 15; LSetNextPhase (VNumber (Fin 3)) (VNumber (Fin 70)); LTick 3]
                      (Light.new ai)) + 1) as He by (vm_compute; discriminate).
  pose proof (allred_expiry_selects_phase
                (fun _ => NaN) ai
                [LTick 15; LSetNextPhase (VNumber (Fin 3)) (VNumber (Fin 70)); LTick 3]
                1 Hs He) as (_ & _ & _ & Hov & _).
  exact (proj1 (Hov PH.S eq_refl)).
Defined.

(** X9.  Right after any tick of a light reached since construction,
    [remaining()] is a finite, strictly positive number of seconds; it
    is at most 60 when the timer is not negative. *)
Theorem remaining_positive_after_tick (S2N : string -> JsNum) (m : Mode)
        (ops : list LightOp) (dt : Q) :
  let l := fst (Light.tick (fold_left (lightExec S2N) ops (Light.new m)) dt) in
  exists r, remaining l = Fin r /\ 0 < r /\ (0 <= timer l -> r <= 60).
Proof.
  set (l0 := fold_left (lightExec S2N) ops (Light.new m)). intros l.
  assert (durations_ok l0) as Hok0.
  { apply durations_ok_reachable, durations_ok_new. }
  assert (durations_ok l) as Hok by now apply durations_ok_tick.
  assert (exists q, Light.dur l = Some (Fin q) /\ timer l < q /\ q <= 60) as (q & Hq & Hlt & H60).
  { destruct (dur_positive l Hok) as (q & Hq & Hpos).
    assert (q <= 60) as H60.
    { destruct Hok as (Hall & Hkeys & Hcur & _). unfold Light.dur in Hq.
      destruct (subPhase l).
      - destruct (Hall _ _ Hq) as (q' & [= <-] & Hq'). lra.
      - injection Hq as <-. unfold CONFIG.YELLOW_DUR. lra.
      - injection Hq as <-. unfold CONFIG.ALL_RED_DUR. lra. }
    exists q. split; [exact Hq | split; [| exact H60]].
    destruct (light_tick_cases l0 dt) as (Hg & _ & _ & Hc). fold l in Hg, Hc.
    destruct Hc as [(Hlt & Hs & Hk & _ & _ & Ht) | (_ & Ht & _)].
    - assert (Light.dur l = Light.dur l0) as Hd.
      { unfold Light.dur. now rewrite Hs, Hk, Hg. }
      rewrite Hd in Hq. rewrite Hq in Hlt. cbn in Hlt.
      apply Qlt_bool_true in Hlt. now rewrite Ht.
    - now rewrite Ht. }
  unfold remaining. rewrite Hq. cbn [Js.sub Js.max].
  destruct (Qle_bool 0 (q - timer l)) eqn:E.
  - exists (q - timer l). split; [reflexivity | split; [lra | intros; lra]].
  - apply Qle_bool_false in E. lra.
Qed.

(** X10.  [setNextPhase] is idempotent, and of two calls naming phases
    the later one decides the pending override, while the duration
    stored by the earlier call for a different phase stays. *)
Theorem setNextPhase_last_call_wins (S2N : string -> JsNum) (l : TrafficLight)
        (id1 d1 id2 d2 : JsVal) (k1 k2 : string) :
  names_phase id1 k1 -> names_phase id2 k2 ->
  let l1 := setNextPhase S2N l id1 d1 in
  let l2 := setNextPhase S2N l1 id2 d2 in
  setNextPhase S2N l1 id1 d1 = l1
  /\ _nextOverride l2 = Some k2
  /\ (k1 <> k2 -> greenDur l2 !! k1 = greenDur l1 !! k1)
  /\ (k1 = k2 -> greenDur l2 = greenDur (setNextPhase S2N l id2 d2)).
Proof.
  intros H1 H2 l1 l2. unfold l2, l1.
  rewrite (setNextPhase_known S2N _ id2 d2 k2 H2).
  rewrite !(setNextPhase_known S2N _ id1 d1 k1 H1).
  rewrite (setNextPhase_known S2N l id2 d2 k2 H2).
  cbn [greenDur _nextOverride l_mode subPhase timer _seqIdx _phaseKey onPhaseEnd].
  split; [| split; [reflexivity | split]].
  - f_equal. apply insert_insert_eq.
  - intros Hne. now rewrite lookup_insert_ne by auto.
  - intros ->. apply insert_insert_eq.
Qed.

Lemma setNextPhase_last_call_wins_witness :
  _nextOverride (setNextPhase (fun _ => NaN)
                   (setNextPhase (fun _ => NaN) (Light.new ai)
                                 (VNumber (Fin 2)) (VNumber (Fin 30)))
                   (VString PH.W) (VNumber (Fin 9))) = Some PH.W.
Proof.
  assert (names_phase (VNumber (Fin 2)) PH.E) as H1.
  { left. exists 2, 2%Z. repeat split. unfold PHASE_NUM_ENTRIES; simpl; tauto. }
  assert (names_phase (VString PH.W) PH.W) as H2.
  { right. split; [reflexivity | unfold ALL_PHASES; simpl; tauto]. }
  exact (proj1 (proj2 (setNextPhase_last_call_wins
                         (fun _ => NaN) (Light.new ai) (VNumber (Fin 2)) (VNumber (Fin 30))
                         (VString PH.W) (VNumber (Fin 9)) PH.E PH.W H1 H2))).
Defined.

(* ================================================================= *)
(** ** Geometry and turn paths *)

Lemma MID_value : MID == 260.
Proof. reflexivity. Qed.

Lemma laneOff_values (l : Lane) :
  laneOff l == match l with lane0 => 50 | lane1 => 30 | lane2 => 10 end.
Proof. destruct l; reflexivity. Qed.

(** X11.  Every approach lane lies strictly inside the half of the road
    of its arm (north and east below the centre line coordinate, south
    and west above it, within the road half-width of 60 px), two
    different lanes of an arm are at least a lane width apart, and a
    vehicle is spawned on its lane, 30 px outside the canvas and 214 px
    short of its stop coordinate. *)
Theorem approach_lanes_inside_road (d : Arm) (l l' : Lane) :
  (match d with
   | north | east => MID - RH < laneCoord d l /\ laneCoord d l < MID
   | south | west => MID < laneCoord d l /\ laneCoord d l < MID + RH
   end)
  /\ (l <> l' -> CONFIG.LANE_W <= Qabs (laneCoord d l - laneCoord d l'))
  /\ lateral d (spawnPos d l) = laneCoord d l
  /\ (along d (spawnPos d l) == -30 \/ along d (spawnPos d l) == W + 30)
  /\ overshoot (Vehicle_new d l) == -214.
Proof.
  split; [| split; [| split; [| split]]].
  - destruct d, l; vm_compute; split; reflexivity.
  - intros Hne. destruct d, l, l'; try contradiction; vm_compute; discriminate.
  - destruct d; reflexivity.
  - destruct d; [right | left | left | right]; reflexivity.
  - destruct d, l; reflexivity.
Qed.

(** X12.  The exit lane that [buildPath] stores puts the vehicle on the
    line of the approach lane with its own lane index on the road
    heading in the exit direction: a vehicle leaves the intersection in
    the lane it entered in, and the exit-lane indices 3, 4, 5 name the
    same positions as 0, 1, 2. *)
Theorem exit_on_same_lane_index (d : Arm) (l : Lane) (k : Z) :
  exitCoord (exitDirMap d l) (exitLaneMap d l) == laneCoord (exitDirMap d l) l
  /\ ((0 <= k < 3)%Z ->
      exitLaneX d (k + 3) = exitLaneX d k /\ exitLaneY d (k + 3) = exitLaneY d k).
Proof.
  split.
  - destruct d, l; reflexivity.
  - intros Hk. unfold exitLaneX, exitLaneY, exitOff.
    change (Z.of_nat CONFIG.N_LANES) with 3%Z.
    destruct (Z.leb_spec 3 (k + 3)) as [_ | H]; [| lia].
    destruct (Z.leb_spec 3 k) as [H | _]; [lia |].
    replace (k + 3 - 3)%Z with k by lia. split; reflexivity.
Qed.

Lemma exit_on_same_lane_index_witness :
  exitLaneX north (2 + 3) = exitLaneX north 2.
Proof.
  assert (0 <= 2 < 3)%Z as Hk by lia.
  exact (proj1 (proj2 (exit_on_same_lane_index north lane0 2) Hk)).
Defined.

Lemma bezAt_ends (path : Bezier) :
  px (bezAt path 0) == px (p0 path) /\ py (bezAt path 0) == py (p0 path)
  /\ px (bezAt path 1) == px (p3 path) /\ py (bezAt path 1) == py (p3 path).
Proof.
  unfold bezAt. cbn [px py]. repeat split; ring.
Qed.

Lemma buildPath_start (v : Vehicle) : p0 (snd (buildPath v)) = mkPoint (x v) (y v).
Proof.
  unfold buildPath. destruct v as [d l mv ? ? ? ? ? ? ? ? ? ? ? ?]. cbn.
  destruct mv, d; reflexivity.
Qed.

Lemma buildPath_end_along (v : Vehicle) :
  along (exitDirMap (dir v) (lane v)) (p3 (snd (buildPath v)))
  = match exitDirMap (dir v) (lane v) with
    | north | west => MID - (CONFIG.BOX_HALF + 1)
    | south | east => MID + (CONFIG.BOX_HALF + 1)
    end.
Proof.
  unfold buildPath. destruct v as [d l mv ? ? ? ? ? ? ? ? ? ? ? ?]. cbn.
  destruct mv, d, l; reflexivity.
Qed.

(** X13.  The turn path returned by [buildPath] starts exactly at the
    vehicle's position ([bezAt] at 0) and ends ([bezAt] at 1) on the
    stored exit lane, 1 px beyond the edge of the intersection box on
    the side the exit direction leads to. *)
Theorem turn_path_endpoints (v : Vehicle) :
  let path := snd (buildPath v) in
  let e := exitDirMap (dir v) (lane v) in
  px (bezAt path 0) == x v /\ py (bezAt path 0) == y v
  /\ lateral e (bezAt path 1) == exitCoord e (exitLaneMap (dir v) (lane v))
  /\ along e (bezAt path 1) == match e with
                               | north | west => MID - (CONFIG.BOX_HALF + 1)
                               | south | east => MID + (CONFIG.BOX_HALF + 1)
                               end.
Proof.
  intros path e.
  destruct (bezAt_ends path) as (H0x & H0y & H1x & H1y).
  pose proof (buildPath_start v) as Hs. fold path in Hs.
  pose proof (buildPath_end v) as He. fold path e in He.
  pose proof (buildPath_end_along v) as Ha. fold path e in Ha.
  rewrite Hs in H0x, H0y. cbn [px py] in H0x, H0y.
  split; [exact H0x | split; [exact H0y | split]].
  - rewrite <- He. unfold lateral. destruct e; assumption.
  - rewrite <- Ha. unfold along. destruct e; assumption.
Qed.

Lemma bezier_constant (a b c d k t : Q) :
  a == k -> b == k -> c == k -> d == k ->
  (1 - t) * (1 - t) * (1 - t) * a + 3 * (1 - t) * (1 - t) * t * b
  + 3 * (1 - t) * t * t * c + t * t * t * d == k.
Proof.
  intros Ha Hb Hc Hd. rewrite Ha, Hb, Hc, Hd. ring.
Qed.

(** X14.  The path of a straight-through vehicle that stands on its
    lane line is a straight segment: every point of the curve has the
    lane's coordinate across the road. *)
Theorem straight_path_stays_on_lane (v : Vehicle) (t : Q) :
  lane v = lane1 -> move v = straight ->
  lateral (dir v) (mkPoint (x v) (y v)) == laneCoord (dir v) lane1 ->
  lateral (dir v) (bezAt (snd (buildPath v)) t) == laneCoord (dir v) lane1.
Proof.
  intros Hl Hm Hon. unfold buildPath. rewrite Hm, Hl.
  destruct v as [d l mv vx vy ? ? ? ? ? ? ? ? ? ?]. cbn in Hl, Hm, Hon |- *.
  destruct d; cbn in Hon |- *; unfold bezAt; cbn [px py p0 p1 p2 p3 lateral];
    apply bezier_constant; first [exact Hon | reflexivity].
Qed.

Lemma straight_path_stays_on_lane_witness :
  lateral north (bezAt (snd (buildPath (Vehicle_new north lane1))) (1 # 3))
  == laneCoord north lane1.
Proof.
  apply (straight_path_stays_on_lane (Vehicle_new north lane1) (1 # 3));
    reflexivity.
Defined.

(* ================================================================= *)
(** ** Vehicles: life cycle, conservation and following distance *)

Lemma bezLen_ge_1 (sq : Q -> Q) (path : Bezier) : 1 <= bezLen sq path.
Proof.
  unfold bezLen.
  match goal with |- context [if Qle_bool 1 ?a then _ else _] =>
    destruct (Qle_bool 1 a) eqn:E end.
  - now apply Qle_bool_iff.
  - lra.
Qed.

(** The four ways [_approach] can end. *)
Lemma approach_cases (sq : Q -> Q) (l : TrafficLight) (others : list Vehicle)
      (v : Vehicle) (dt : Q) :
  let v1 := Sim.advance (set_flags v false false) (dir v) in
  let bp := buildPath v1 in
  _approach sq l others v dt = set_waitSec (set_flags v true true) (waitSec v + dt)
  \/ _approach sq l others v dt = set_flags v true false
  \/ (_approach sq l others v dt = v1
      /\ Js.lt (Sim._gap others v) (Fin CONFIG.CAR_GAP) = false)
  \/ (_approach sq l others v dt
      = set_pos (set_turnT (set_turnPath (set_phase (fst bp) turning) (snd bp)
                                         (bezLen sq (snd bp))) 0)
                (px (bezAt (snd bp) 0)) (py (bezAt (snd bp) 0))
      /\ Js.lt (Sim._gap others v) (Fin CONFIG.CAR_GAP) = false).
Proof.
  intros v1 bp. unfold _approach. fold v1. fold bp.
  destruct (pastStop v && negb (Light.canGo l (dir v) (move v))); [now left |].
  destruct (Js.lt (Sim._gap others v) (Fin CONFIG.CAR_GAP)); [right; now left |].
  destruct (pastStop v1 && Light.canGo l (dir v) (move v)).
  - right; right; right. split; reflexivity.
  - right; right; left. split; reflexivity.
Qed.

Lemma advance_lateral (v : Vehicle) (d : Arm) :
  lateral d (mkPoint (x (Sim.advance v d)) (y (Sim.advance v d)))
  = lateral d (mkPoint (x v) (y v)).
Proof. destruct d; reflexivity. Qed.

Lemma lifecycle_ok_approach (sq : Q -> Q) (l : TrafficLight) (others : list Vehicle)
      (v : Vehicle) (dt : Q) :
  phase v = approach -> lifecycle_ok v -> lifecycle_ok (_approach sq l others v dt).
Proof.
  intros Hph [Hmv Hlat]. rewrite Hph in Hlat.
  destruct (advance_fields (set_flags v false false) (dir v))
    as (Ad & Al & Am & Ap & _).
  pose proof (advance_lateral (set_flags v false false) (dir v)) as Alat.
  set (v1 := Sim.advance (set_flags v false false) (dir v)) in *.
  cbn [dir lane move phase set_flags] in Ad, Al, Am, Ap.
  cbn [x y set_flags] in Alat.
  destruct (approach_cases sq l others v dt) as [-> | [-> | [[-> _] | [-> _]]]].
  - split; [exact Hmv |]. cbn. now rewrite Hph.
  - split; [exact Hmv |]. cbn. now rewrite Hph.
  - fold v1. unfold lifecycle_ok. rewrite Ap, Hph, Ad, Al, Am.
    split; [exact Hmv |]. rewrite <- Hlat. exact Alat.
  - fold v1. destruct (buildPath_exit v1) as (He & Hk & Hd & Hl & Hm & _).
    unfold lifecycle_ok.
    cbn [move lane dir phase turnPath _pLen turnT exitDir exitLane
         set_pos set_turnT set_turnPath set_phase].
    rewrite Hm, Hl, Hd, He, Hk, Am, Al, Ad.
    split; [exact Hmv |].
    split; [eexists; reflexivity |].
    split; [apply bezLen_ge_1 |].
    repeat split; lra.
Qed.

Lemma lifecycle_ok_turn (v : Vehicle) :
  phase v = turning -> lifecycle_ok v -> lifecycle_ok (_turn v).
Proof.
  intros Hph [Hmv Hrest]. rewrite Hph in Hrest.
  destruct Hrest as ((p & Hp) & Hlen & Ht0 & Ht1 & He & Hk).
  unfold _turn. rewrite Hp, He, Hk.
  assert (0 <= CONFIG.CAR_SPD / _pLen v) as Hstep.
  { apply Qle_shift_div_l; [lra |]. unfold CONFIG.CAR_SPD. lra. }
  set (step := CONFIG.CAR_SPD / _pLen v) in *.
  assert (exists t0, t0 = turnT v + step /\ 0 <= t0) as (t0 & Et0 & Hpos).
  { eexists. split; [reflexivity | lra]. }
  rewrite <- Et0. clearbody step.
  destruct (Qle_bool 1 t0) eqn:E0.
  - assert (Qle_bool 1 1 = true) as -> by reflexivity.
    unfold lifecycle_ok.
    destruct (exitDirMap (dir v) (lane v)) eqn:Ee;
      cbn [move lane dir phase exitDir exitLane x y set_pos set_turnT set_phase];
      rewrite ?Ee, He, Hk; cbn [lateral px py exitCoord];
      (split; [exact Hmv | repeat split; now rewrite Ee]).
  - rewrite E0. apply Qle_bool_false in E0.
    unfold lifecycle_ok.
    cbn [move lane dir phase turnPath _pLen turnT exitDir exitLane set_pos set_turnT].
    rewrite Hph. split; [exact Hmv |].
    split; [now exists p |]. repeat split; assumption.
Qed.

Lemma lifecycle_ok_exit (s : Simulation) (v : Vehicle) :
  phase v = exit -> lifecycle_ok v -> lifecycle_ok (snd (_exit s v)).
Proof.
  intros Hph [Hmv Hrest]. rewrite Hph in Hrest. destruct Hrest as (He & Hk & Hlat).
  unfold _exit. rewrite He.
  destruct (advance_fields v (exitDirMap (dir v) (lane v)))
    as (Ad & Al & Am & Ap & _ & _ & Ae & Ak).
  pose proof (advance_lateral v (exitDirMap (dir v) (lane v))) as Alat.
  set (v1 := Sim.advance v (exitDirMap (dir v) (lane v))) in *.
  assert (lifecycle_ok v1) as H1.
  { unfold lifecycle_ok. rewrite Am, Al, Ap, Hph, Ae, Ak, Ad, He, Hk.
    split; [exact Hmv |]. repeat split. now rewrite Alat. }
  match goal with |- context [if ?c then _ else _] => destruct c end; cbn [snd];
    [| exact H1].
  destruct H1 as [G1 G2]. split; [exact G1 | exact G2].
Qed.

Lemma lifecycle_ok_move (sq : Q -> Q) (s : Simulation) (others : list Vehicle)
      (v : Vehicle) (dt : Q) :
  lifecycle_ok v -> lifecycle_ok (snd (_move sq s others v dt)).
Proof.
  intros H. unfold _move. destruct (phase v) eqn:Hph; cbn [snd].
  - now apply lifecycle_ok_approach.
  - now apply lifecycle_ok_turn.
  - now apply lifecycle_ok_exit.
Qed.

(** An invariant of single vehicles that [_move] keeps and fresh
    vehicles have holds of every vehicle of every reachable state. *)
Lemma vehicles_invariant (P : Vehicle -> Prop) (sq : Q -> Q)
      (S2N : string -> JsNum) (url : string) :
  (forall d l, P (Vehicle_new d l)) ->
  (forall s others v dt, P v -> P (snd (_move sq s others v dt))) ->
  forall cs s, List.Forall P (vehicles s) ->
               List.Forall P (vehicles (run sq S2N url s cs)).
Proof.
  intros Hnew Hmove.
  assert (forall dt rest s before,
            List.Forall P before -> List.Forall P rest ->
            List.Forall P (snd (moveEach sq s before rest dt))) as Hloop.
  { intros dt rest. induction rest as [| v rest IH]; intros s before Hb Hr;
      cbn [moveEach]; [exact Hb |].
    apply List.Forall_cons_iff in Hr. destruct Hr as [Hv Hr].
    apply IH; [| exact Hr]. apply List.Forall_app. split; [exact Hb |].
    constructor; [| constructor].
    destruct (done v); cbn [snd]; [exact Hv | now apply Hmove]. }
  unfold run. induction cs as [| c cs IH]; intros s H; cbn [fold_left]; [exact H |].
  apply IH. destruct c as [d l | dt | ctx | r]; cbn [exec].
  - unfold Sim.spawn. cbn [vehicles set_vehicles].
    apply List.Forall_app. split; [exact H | constructor; [apply Hnew | constructor]].
  - destruct (tick_unfold sq S2N url s dt) as (s3 & _ & _ & _ & ->).
    cbn [vehicles set_vehicles].
    apply List.Forall_forall. intros v Hin.
    apply List.filter_In in Hin. destruct Hin as [Hin _].
    pose proof (Hloop dt (vehicles s) s3 [] ltac:(constructor) H) as Hall.
    rewrite List.Forall_forall in Hall. now apply Hall.
  - destruct (callAI_begin_keeps S2N url s ctx) as (-> & _). exact H.
  - destruct (callAI_end_keeps S2N s r) as (-> & _). exact H.
Qed.

(** X15.  In every state a simulation reaches, each vehicle has the
    movement of its lane; an approaching vehicle is on its lane line; a
    turning vehicle has a turn path (so [_turn] never meets a [null]
    path), a path length of at least 1, a progress in [0, 1) and the
    exit arm and lane of the fixed table; an exiting vehicle has them
    too and travels on the line of its exit lane. *)
Theorem vehicles_follow_life_cycle (sq : Q -> Q) (S2N : string -> JsNum) (url : string)
        (m : Mode) (cs : list Cmd) :
  List.Forall lifecycle_ok (vehicles (run sq S2N url (Sim.new m) cs)).
Proof.
  apply vehicles_invariant.
  - intros d l. split; [reflexivity |]. destruct d; reflexivity.
  - intros s others v dt. apply lifecycle_ok_move.
  - constructor.
Qed.

Lemma turn_fields (v : Vehicle) :
  dir (_turn v) = dir v /\ lane (_turn v) = lane v /\ move (_turn v) = move v
  /\ waitSec (_turn v) = waitSec v.
Proof.
  unfold _turn. destruct (turnPath v); [| repeat split].
  repeat match goal with
         | |- context [match ?e with Some _ => _ | None => _ end] => destruct e
         | |- context [match ?e with north => _ | south => _ | east => _ | west => _ end]
           => destruct e
         | |- context [if ?c then _ else _] => destruct c
         end; repeat split.
Qed.

(** X16.  One call of [_move] never changes a vehicle's arm, lane or
    movement; its phase stays or moves one step forward along approach,
    turning, exit, never back; and its accumulated wait changes only
    when an approaching vehicle is halted by the signal, by exactly the
    tick's [dt]. *)
Theorem move_keeps_identity (sq : Q -> Q) (s : Simulation) (others : list Vehicle)
        (v : Vehicle) (dt : Q) :
  let v' := snd (_move sq s others v dt) in
  dir v' = dir v /\ lane v' = lane v /\ move v' = move v
  /\ (phase v' = phase v
      \/ (phase v = approach /\ phase v' = turning)
      \/ (phase v = turning /\ phase v' = exit))
  /\ (waitSec v' = waitSec v
      \/ (phase v = approach /\ phase v' = approach /\ pastStop v = true
          /\ Light.canGo (light s) (dir v) (move v) = false
          /\ waiting v' = true /\ waitSec v' = waitSec v + dt)).
Proof.
  intros v'. unfold v', _move. destruct (phase v) eqn:Hph; cbn [snd].
  - destruct (advance_fields (set_flags v false false) (dir v))
      as (Ad & Al & Am & Ap & Aw & _).
    cbn [dir lane move phase waitSec set_flags] in Ad, Al, Am, Ap, Aw.
    unfold _approach.
    destruct (pastStop v && negb (Light.canGo (light s) (dir v) (move v))) eqn:Hred.
    { apply andb_true_iff in Hred. destruct Hred as [Hp Hg].
      apply negb_true_iff in Hg. cbn. rewrite Hph.
      repeat split; auto. right. repeat split; assumption. }
    destruct (Js.lt (Sim._gap others v) (Fin CONFIG.CAR_GAP)).
    { cbn. rewrite Hph. repeat split; auto. }
    set (v1 := Sim.advance (set_flags v false false) (dir v)) in *.
    destruct (pastStop v1 && Light.canGo (light s) (dir v) (move v)).
    + destruct (buildPath_exit v1) as (_ & _ & Hd & Hl & Hm & _).
      destruct (buildPath_keeps v1) as (_ & Hw & _).
      cbn [dir lane move phase waitSec set_pos set_turnT set_turnPath set_phase].
      rewrite Hd, Hl, Hm, Hw, Ad, Al, Am, Aw. repeat split; auto.
    + rewrite Ad, Al, Am, Ap, Aw, Hph. repeat split; auto.
  - destruct (turn_fields v) as (Hd & Hl & Hm & Hw).
    rewrite Hd, Hl, Hm, Hw. repeat split; auto.
    destruct (turn_phase v Hph) as [-> | ->]; auto.
  - unfold _exit.
    destruct (advance_fields v match exitDir v with Some d => d | None => west end)
      as (Ad & Al & Am & Ap & Aw & _).
    match goal with |- context [if ?c then _ else _] => destruct c end; cbn [snd];
      cbn [dir lane move phase waitSec set_done];
      rewrite Ad, Al, Am, Ap, Aw, Hph; repeat split; auto.
Qed.

Lemma moveEach_lengths (sq : Q -> Q) (dt : Q) (rest : list Vehicle) :
  forall (s : Simulation) (before : list Vehicle),
    List.Forall (fun v => done v = false) rest ->
    let r := moveEach sq s before rest dt in
    length (snd r) = (length before + length rest)%nat
    /\ length (List.filter done (snd r))
       = (length (List.filter done before)
          + length (List.filter leavesBounds rest))%nat
    /\ totalPassed (fst r) = (totalPassed s + length (List.filter leavesBounds rest))%nat.
Proof.
  induction rest as [| v rest IH]; intros s before Hnd; cbn [moveEach List.filter].
  - cbn. repeat split; lia.
  - apply List.Forall_cons_iff in Hnd. destruct Hnd as [Hv Hnd].
    rewrite Hv.
    destruct (move_accounting sq s (before ++ rest) v dt Hv) as (Hdone & Ht & Hf).
    specialize (IH (fst (_move sq s (before ++ rest) v dt))
                   (before ++ [snd (_move sq s (before ++ rest) v dt)]) Hnd).
    destruct IH as (L1 & L2 & L3). cbv zeta. rewrite L1, L2, L3.
    rewrite List.filter_app, !length_app. cbn [List.filter length].
    rewrite Hdone.
    destruct (leavesBounds v) eqn:El.
    + rewrite (Ht eq_refl). cbn [length totalPassed count_passed]. repeat split; lia.
    + rewrite (Hf eq_refl). cbn [length]. repeat split; lia.
Qed.

Lemma filter_negb_length {A : Type} (f : A -> bool) (l : list A) :
  (length (List.filter (fun a => negb (f a)) l) + length (List.filter f l)
   = length l)%nat.
Proof.
  induction l as [| a l IH]; [reflexivity |].
  cbn [List.filter]. destruct (f a); cbn [negb length]; lia.
Qed.

Lemma not_done_exec (sq : Q -> Q) (S2N : string -> JsNum) (url : string)
      (s : Simulation) (c : Cmd) :
  List.Forall (fun v => done v = false) (vehicles s) ->
  List.Forall (fun v => done v = false) (vehicles (exec sq S2N url s c)).
Proof.
  intros H. destruct c as [d l | dt | ctx | r]; cbn [exec].
  - unfold Sim.spawn. cbn [vehicles set_vehicles].
    apply List.Forall_app. split; [exact H | repeat constructor].
  - destruct (tick_unfold sq S2N url s dt) as (s3 & _ & _ & _ & ->).
    cbn [vehicles set_vehicles]. apply List.Forall_forall. intros v Hin.
    apply List.filter_In in Hin. destruct Hin as [_ Hnd]. now destruct (done v).
  - destruct (callAI_begin_keeps S2N url s ctx) as (-> & _). exact H.
  - destruct (callAI_end_keeps S2N s r) as (-> & _). exact H.
Qed.

Lemma tick_unfold_total (sq : Q -> Q) (S2N : string -> JsNum) (url : string)
      (s : Simulation) (dt : Q) :
  exists s3,
    vehicles s3 = vehicles s /\ passedCount s3 = passedCount s
    /\ totalPassed s3 = totalPassed s
    /\ tick sq S2N url s dt =
       set_vehicles (fst (moveEach sq s3 [] (vehicles s) dt))
                    (List.filter (fun v => negb (done v))
                                 (snd (moveEach sq s3 [] (vehicles s) dt))).
Proof.
  unfold tick.
  set (s1 := set_simTime s (simTime s + dt)).
  set (s2 := set_light s1 (fst (Light.tick (light s1) dt))).
  destruct (snd (Light.tick (light s1) dt)) as [ph |].
  - exists (callAI_begin S2N url s2 (Some ph)).
    destruct (callAI_begin_keeps S2N url s2 (Some ph)) as (Hv & Hc & _).
    rewrite Hv. repeat split; try assumption.
    unfold callAI_begin. destruct (aiPending s2); [reflexivity |].
    destruct (negb (urlReady url)); reflexivity.
  - exists s2. repeat split; reflexivity.
Qed.

Lemma conservation_exec (sq : Q -> Q) (S2N : string -> JsNum) (url : string)
      (s : Simulation) (c : Cmd) (n : nat) :
  List.Forall (fun v => done v = false) (vehicles s) ->
  (passedCount s + length (vehicles s) = n)%nat /\ totalPassed s = passedCount s ->
  (passedCount (exec sq S2N url s c) + length (vehicles (exec sq S2N url s c))
   = n + match c with Spawn _ _ => 1 | _ => 0 end)%nat
  /\ totalPassed (exec sq S2N url s c) = passedCount (exec sq S2N url s c).
Proof.
  intros Hnd [Hsum Htot]. destruct c as [d l | dt | ctx | r]; cbn [exec].
  - unfold Sim.spawn.
    cbn [vehicles passedCount totalPassed set_vehicles]. rewrite length_app. cbn. lia.
  - destruct (tick_unfold_total sq S2N url s dt) as (s3 & Hv & Hc & Ht & ->).
    cbn [vehicles passedCount totalPassed set_vehicles].
    destruct (moveEach_accounting sq dt (vehicles s) s3 []) as (Mc & _).
    destruct (moveEach_lengths sq dt (vehicles s) s3 [] Hnd) as (L1 & L2 & L3).
    cbv zeta in Mc, L1, L2, L3. cbn [length List.filter] in L1, L2.
    pose proof (filter_negb_length done (snd (moveEach sq s3 [] (vehicles s) dt))) as Hf.
    rewrite Mc, L3, Hc, Ht. lia.
  - unfold callAI_begin. destruct (aiPending s); [cbn; lia |].
    destruct (negb (urlReady url)); cbn; lia.
  - unfold callAI_end. destruct (inflight s); cbn; lia.
Qed.

(** X17.  No vehicle is lost or invented: in every state a simulation
    reaches, the vehicles counted as passed plus the vehicles still in
    the list are exactly the vehicles spawned; [totalPassed] and
    [passedCount] are equal, and no vehicle in the list is marked
    done. *)
Theorem vehicles_conserved (sq : Q -> Q) (S2N : string -> JsNum) (url : string)
        (m : Mode) (cs : list Cmd) :
  let s := run sq S2N url (Sim.new m) cs in
  (passedCount s + length (vehicles s) = spawnCount cs)%nat
  /\ totalPassed s = passedCount s
  /\ List.Forall (fun v => done v = false) (vehicles s).
Proof.
  assert (forall cs s n,
            List.Forall (fun v => done v = false) (vehicles s) ->
            (passedCount s + length (vehicles s) = n)%nat /\ totalPassed s = passedCount s ->
            let s' := run sq S2N url s cs in
            (passedCount s' + length (vehicles s') = n + spawnCount cs)%nat
            /\ totalPassed s' = passedCount s'
            /\ List.Forall (fun v => done v = false) (vehicles s')) as H.
  { clear cs. unfold run. induction cs as [| c cs IH]; intros s n Hnd Hc; cbn [fold_left].
    - unfold spawnCount. cbn. destruct Hc as [Hc1 Hc2]. repeat split; [lia | | ]; assumption.
    - pose proof (conservation_exec sq S2N url s c n Hnd Hc) as Hc'.
      pose proof (not_done_exec sq S2N url s c Hnd) as Hnd'.
      destruct (IH _ _ Hnd' Hc') as (I1 & I2 & I3).
      split; [| split; assumption].
      rewrite I1. unfold spawnCount. cbn [List.filter].
      destruct c; cbn [length]; lia. }
  intros s. destruct (H cs (Sim.new m) 0%nat) as (H1 & H2 & H3).
  - destruct m; constructor.
  - destruct m; split; reflexivity.
  - split; [exact H1 | split; assumption].
Qed.

Lemma gap_fold_bound (v : Vehicle) (others : list Vehicle) :
  forall acc : JsNum,
    (acc = PInf \/ exists q, acc = Fin q) ->
    let r := fold_left
               (fun (mn : JsNum) (o : Vehicle) =>
                  if negb (Arm_eqb (dir o) (dir v)) || negb (Lane_eqb (lane o) (lane v))
                     || negb (VPhase_eqb (phase o) approach)
                  then mn
                  else if Qle_bool 0 (gapTo v o) && Js.lt (Fin (gapTo v o)) mn
                       then Fin (gapTo v o) else mn)
               others acc in
    (forall g, atMost acc g -> atMost r g)
    /\ (forall o, In o others -> sameQueue v o = true -> 0 <= gapTo v o ->
                  atMost r (gapTo v o)).
Proof.
  induction others as [| o others IH]; intros acc Hacc; cbn [fold_left].
  - split; [auto | intros o []].
  - set (acc' := if negb (Arm_eqb (dir o) (dir v)) || negb (Lane_eqb (lane o) (lane v))
                    || negb (VPhase_eqb (phase o) approach)
                 then acc
                 else if Qle_bool 0 (gapTo v o) && Js.lt (Fin (gapTo v o)) acc
                      then Fin (gapTo v o) else acc).
    assert ((acc' = PInf \/ exists q, acc' = Fin q)
            /\ (forall g, atMost acc g -> atMost acc' g)
            /\ (sameQueue v o = true -> 0 <= gapTo v o -> atMost acc' (gapTo v o)))
      as (Hgood & Hmono & Hhere).
    { unfold acc', sameQueue.
      destruct (Arm_eqb (dir o) (dir v)), (Lane_eqb (lane o) (lane v)),
        (VPhase_eqb (phase o) approach); cbn [negb orb andb];
        try (split; [exact Hacc | split; [auto | discriminate]]).
      destruct (Qle_bool 0 (gapTo v o)) eqn:E0; cbn [andb].
      - destruct Hacc as [-> | [q ->]]; cbn [Js.lt].
        + split; [right; eauto | split; [intros g [] | intros _ _; cbn; lra]].
        + destruct (Qlt_bool (gapTo v o) q) eqn:E1.
          * apply Qlt_bool_true in E1.
            split; [right; eauto | split; [| intros _ _; cbn; lra]].
            intros g Hg. cbn in Hg |- *. lra.
          * apply Qlt_bool_false in E1.
            split; [right; eauto | split; [auto | intros _ _; exact E1]].
      - apply Qle_bool_false in E0.
        split; [exact Hacc | split; [auto | intros _ H; lra]]. }
    destruct (IH acc' Hgood) as [IHm IHb]. split.
    + intros g Hg. apply IHm. now apply Hmono.
    + intros o' [<- | Hin] Hq Hg.
      * apply IHm. now apply Hhere.
      * now apply IHb.
Qed.

Lemma gap_not_below (v o : Vehicle) (others : list Vehicle) (g : Q) :
  Js.lt (Sim._gap others v) (Fin g) = false ->
  In o others -> sameQueue v o = true -> 0 <= gapTo v o -> g <= gapTo v o.
Proof.
  intros Hlt Hin Hq Hg.
  destruct (gap_fold_bound v others PInf (or_introl eq_refl)) as [_ Hb].
  specialize (Hb o Hin Hq Hg). unfold Sim._gap in Hlt. unfold gapTo in Hb.
  match type of Hb with atMost ?r _ => destruct r as [q | | |] eqn:Er end;
    cbn in Hb; try contradiction.
  unfold gapTo. cbn [Js.lt] in Hlt. apply Qlt_bool_false in Hlt. lra.
Qed.

(** X18.  Car following: whenever a vehicle is still approaching after
    [_approach], it has not run into a vehicle ahead of it in its lane:
    with respect to every approaching vehicle of its arm and lane that
    was ahead of it with a non-negative gap, it either stood still or
    kept a gap of at least [CAR_GAP - CAR_SPD] = 3.4 px. *)
Theorem no_contact_with_vehicle_ahead (sq : Q -> Q) (l : TrafficLight)
        (others : list Vehicle) (v o : Vehicle) (dt : Q) :
  In o others -> sameQueue v o = true -> 0 <= gapTo v o ->
  let v' := _approach sq l others v dt in
  phase v' = approach ->
  0 <= gapTo v' o
  /\ ((x v' = x v /\ y v' = y v) \/ CONFIG.CAR_GAP - CONFIG.CAR_SPD <= gapTo v' o).
Proof.
  intros Hin Hq Hg v' Hph. unfold v' in *.
  destruct (approach_cases sq l others v dt) as [E | [E | [[E Hgap] | [E _]]]];
    rewrite E in Hph |- *.
  - split; [exact Hg | left; split; reflexivity].
  - split; [exact Hg | left; split; reflexivity].
  - pose proof (gap_not_below v o others CONFIG.CAR_GAP Hgap Hin Hq Hg) as Hbig.
    assert (gapTo (Sim.advance (set_flags v false false) (dir v)) o
            == gapTo v o - CONFIG.CAR_SPD) as Hadv.
    { unfold gapTo, Sim.advance. destruct v as [d ? ? vx vy ? ? ? ? ? ? ? ? ? ?].
      cbn. destruct d; cbn; ring. }
    rewrite Hadv. unfold CONFIG.CAR_GAP, CONFIG.CAR_SPD in *. split; [lra | right; lra].
  - cbn in Hph. discriminate.
Qed.

Lemma no_contact_with_vehicle_ahead_witness :
  let o := set_pos (Vehicle_new north lane1) 230 300 in
  let v := set_pos (Vehicle_new north lane1) 230 340 in
  0 <= gapTo (_approach (fun q => q) (Light.new baseline) [o] v (1 # 60)) o.
Proof.
  intros o v.
  assert (In o [o]) as Hin by (left; reflexivity).
  assert (sameQueue v o = true) as Hq by reflexivity.
  assert (0 <= gapTo v o) as Hg by (vm_compute; discriminate).
  assert (phase (_approach (fun q => q) (Light.new baseline) [o] v (1 # 60)) = approach)
    as Hph by reflexivity.
  exact (proj1 (no_contact_with_vehicle_ahead
                  (fun q => q) (Light.new baseline) [o] v o (1 # 60) Hin Hq Hg Hph)).
Defined.

Lemma filter_length_split {A : Type} (f g h k : A -> bool) (l : list A) :
  (forall a, (if f a then 1 else 0)
             = (if g a then 1 else 0) + (if h a then 1 else 0) + (if k a then 1 else 0))%nat ->
  (length (List.filter f l)
   = length (List.filter g l) + length (List.filter h l) + length (List.filter k l))%nat.
Proof.
  intros H. induction l as [| a l IH]; [reflexivity |].
  cbn [List.filter]. specialize (H a).
  destruct (f a), (g a), (h a), (k a); cbn [length] in *; lia.
Qed.

(** X19.  The queue of an arm is the sum of the queues of its three
    movements; both count approaching vehicles only, and [spawn] adds
    one vehicle to the queue of its arm and of its lane's movement and
    to no other. *)
Theorem queue_counts (s : Simulation) (d d' : Arm) (l : Lane) (mv : Movement) :
  Sim.dirQueues s d
  = (Sim.laneQueues s d left + Sim.laneQueues s d straight + Sim.laneQueues s d right)%nat
  /\ (Sim.dirQueues s d
      <= length (List.filter (fun v => VPhase_eqb (phase v) approach) (vehicles s)))%nat
  /\ Sim.laneQueues (Sim.spawn s d' l) d mv
     = (Sim.laneQueues s d mv
        + if Arm_eqb d' d && Movement_eqb (LANE_MOVE l) mv then 1 else 0)%nat
  /\ Sim.dirQueues (Sim.spawn s d' l) d
     = (Sim.dirQueues s d + if Arm_eqb d' d then 1 else 0)%nat.
Proof.
  unfold Sim.dirQueues, Sim.laneQueues, Sim.spawn. cbn [vehicles set_vehicles].
  split; [| split; [| split]].
  - apply filter_length_split. intros v.
    destruct (VPhase_eqb (phase v) approach), (Arm_eqb (dir v) d), (move v); reflexivity.
  - induction (vehicles s) as [| v vs IH]; [cbn; lia |].
    cbn [List.filter].
    destruct (VPhase_eqb (phase v) approach), (Arm_eqb (dir v) d); cbn [andb length]; lia.
  - rewrite List.filter_app, length_app. f_equal. cbn.
    destruct d', d, l, mv; reflexivity.
  - rewrite List.filter_app, length_app. f_equal. cbn.
    destruct d', d; reflexivity.
Qed.

(* ================================================================= *)
(** ** Adaptive timing: admissible decisions *)

Lemma clamp_round_fin (q : Q) :
  clamp (Js.round (Fin q)) (Fin 5) (Fin 45)
  = Fin (inject_Z (Z.max 5 (Z.min 45 (Qfloor (q + (1 # 2)))))).
Proof.
  unfold clamp. cbn [Js.round].
  set (r := Qfloor (q + (1 # 2))).
  cbn [Js.min].
  destruct (Qle_bool 45 (inject_Z r)) eqn:E45.
  - apply Qle_bool_iff in E45. change 45 with (inject_Z 45) in E45.
    rewrite <- Zle_Qle in E45.
    rewrite (Z.min_l 45 r) by lia. reflexivity.
  - apply Qle_bool_false in E45. change 45 with (inject_Z 45) in E45.
    rewrite <- Zlt_Qlt in E45.
    rewrite (Z.min_r 45 r) by lia. cbn [Js.max].
    destruct (Qle_bool 5 (inject_Z r)) eqn:E5.
    + apply Qle_bool_iff in E5. change 5 with (inject_Z 5) in E5.
      rewrite <- Zle_Qle in E5. rewrite (Z.max_r 5 r) by lia. reflexivity.
    + apply Qle_bool_false in E5. change 5 with (inject_Z 5) in E5.
      rewrite <- Zlt_Qlt in E5. rewrite (Z.max_l 5 r) by lia. reflexivity.
Qed.

Lemma aiDur_integral (n : JsNum) :
  exists z, clamp (Js.round (Js.or n (Fin CONFIG.FIXED_GREEN))) (Fin 5) (Fin 45)
            = Fin (inject_Z z) /\ (5 <= z <= 45)%Z.
Proof.
  unfold Js.or, Js.truthy. destruct n as [q | | |].
  - destruct (Qeq_bool q 0); cbn [negb].
    + exists 15%Z. split; [reflexivity | lia].
    + rewrite clamp_round_fin. eexists. split; [reflexivity | lia].
  - exists 15%Z. split; [reflexivity | lia].
  - exists 45%Z. split; [reflexivity | lia].
  - exists 5%Z. split; [reflexivity | lia].
Qed.

Lemma resolve_duration (S2N : string -> JsNum) (s : Simulation) (ctx : option string)
      (r : FetchResult) :
  exists z, d_dur (resolve S2N (prepare s ctx) r) = Fin (inject_Z z) /\ (5 <= z <= 45)%Z.
Proof.
  assert (exists z, targetDur (prepare s ctx) = Fin (inject_Z z) /\ (5 <= z <= 45)%Z) as Ht.
  { eexists. split; [apply heuristicDur_spec | apply spec_target_range]. }
  unfold resolve. destruct r as [| [data |]]; try exact Ht.
  destruct (Js.isFinite (Number S2N (duration data))); cbn [andb].
  - match goal with |- context [if ?c then _ else _] => destruct c end; cbn [d_dur].
    + apply aiDur_integral.
    + exists 15%Z. split; [reflexivity | lia].
  - exact Ht.
Qed.

(** X20.  Whatever the endpoint returns, the decision an invocation
    takes names a phase of the rotation and a whole number of seconds
    between 5 and 45, and when the request settles the controller
    stores exactly that duration for that phase and holds the phase as
    pending override: no reply can push a green time outside 5..45 s. *)
Theorem decision_always_admissible (S2N : string -> JsNum) (s s' : Simulation)
        (ctx : option string) (r : FetchResult) :
  let p := prepare s ctx in
  exists (k : string) (z : Z),
    PHASE_NUM_MAP (d_next (resolve S2N p r)) = Some k /\ In k FIXED_PHASE_SEQ
    /\ d_dur (resolve S2N p r) = Fin (inject_Z z) /\ (5 <= z <= 45)%Z
    /\ (inflight s' = Some p ->
        greenDur (light (callAI_end S2N s' r)) !! k = Some (Fin (inject_Z z))
        /\ _nextOverride (light (callAI_end S2N s' r)) = Some k
        /\ aiPending (callAI_end S2N s' r) = false).
Proof.
  intros p.
  destruct (cw_phase (fixedNextId p) (nextClockwise_in_cw _)) as (k & Hk & Hin).
  destruct (resolve_duration S2N s ctx r) as (z & Hz & Hr). fold p in Hz.
  exists k, z. rewrite resolve_next.
  split; [exact Hk | split; [exact Hin | split; [exact Hz | split; [exact Hr |]]]].
  intros Hfl. unfold callAI_end. rewrite Hfl. cbn [light aiPending set_ai].
  destruct (applyDecision_override S2N s' (resolve S2N p r) k) as [Ho Hg];
    [now rewrite resolve_next |].
  rewrite Hg, Ho, Hz. rewrite stored_duration_integral by lia.
  repeat split.
Qed.

(** X21.  When the reply carries no boolean [improved_over_fixed], the
    duration the advisor decides on is never farther from the heuristic
    target than the fixed 15 s are. *)
Theorem decision_no_farther_than_fixed (S2N : string -> JsNum) (s : Simulation)
        (ctx : option string) (r : FetchResult) :
  no_flag r ->
  let p := prepare s ctx in
  exists d t, d_dur (resolve S2N p r) = Fin d /\ targetDur p = Fin t
              /\ Qabs (d - t) <= Qabs (CONFIG.FIXED_GREEN - t).
Proof.
  intros Hnf p.
  assert (exists t, targetDur p = Fin t) as (t & Ht).
  { eexists. apply heuristicDur_spec. }
  assert (Qabs (t - t) <= Qabs (CONFIG.FIXED_GREEN - t)) as Hself.
  { assert (t - t == 0) as E by ring. rewrite E. apply Qabs_nonneg. }
  unfold resolve. destruct r as [| [data |]];
    try (exists t, t; cbn [d_dur heuristic]; repeat split; assumption).
  cbn [no_flag] in Hnf.
  destruct (aiDur_integral (Number S2N (duration data))) as (z & Hz & _).
  rewrite Hz, Ht.
  destruct (Js.isFinite (Number S2N (duration data))); cbn [andb];
    [| exists t, t; cbn [d_dur heuristic]; repeat split; assumption].
  assert (exists d, d_dur (if Qlt_bool (Qabs (inject_Z z - t)) (Qabs (CONFIG.FIXED_GREEN - t))
                           then mkDecision (fixedNextId p) (Fin (inject_Z z)) Accepted
                           else mkDecision (fixedNextId p) (Fin CONFIG.FIXED_GREEN) Rejected)
                    = Fin d
                    /\ Qabs (d - t) <= Qabs (CONFIG.FIXED_GREEN - t)) as (d & Hd & Hle).
  { destruct (Qlt_bool (Qabs (inject_Z z - t)) (Qabs (CONFIG.FIXED_GREEN - t))) eqn:E.
    - apply Qlt_bool_true in E. exists (inject_Z z). split; [reflexivity | lra].
    - exists CONFIG.FIXED_GREEN. split; [reflexivity | lra]. }
  destruct (improved_over_fixed data); try contradiction; cbn [Js.sub Js.abs Js.lt];
    (exists d, t; split; [exact Hd | split; [first [exact Ht | reflexivity] | exact Hle]]).
Qed.

Lemma decision_no_farther_than_fixed_witness :
  exists d t,
    d_dur (resolve (fun _ => NaN) (prepare (Sim.new ai) (Some PH.N))
                   (Replied (Some (mkReply (VNumber (Fin 9)) VUndefined VUndefined
                                           VUndefined)))) = Fin d
    /\ targetDur (prepare (Sim.new ai) (Some PH.N)) = Fin t
    /\ Qabs (d - t) <= Qabs (CONFIG.FIXED_GREEN - t).
Proof.
  apply (decision_no_farther_than_fixed (fun _ => NaN) (Sim.new ai) (Some PH.N)).
  exact I.
Defined.

(** X22.  The heuristic target grows with the demand: it is 8 s for an
    empty queue, never below 8 s for a non-negative demand, weakly
    increasing in the demand, and 45 s from a demand of 365/18 (about
    20.3) vehicles on. *)
Theorem heuristic_monotone (a b : Q) :
  a <= b ->
  exists ta tb, heuristicDur a = Fin (inject_Z ta) /\ heuristicDur b = Fin (inject_Z tb)
                /\ (ta <= tb)%Z
                /\ heuristicDur 0 = Fin 8
                /\ (0 <= a -> (8 <= ta)%Z)
                /\ ((365 # 18) <= a -> ta = 45%Z).
Proof.
  intros Hab. exists (spec_target a), (spec_target b).
  split; [apply heuristicDur_spec | split; [apply heuristicDur_spec |]].
  assert (forall u v, u <= v ->
            (Qfloor (8 + u * (18 # 10) + (1 # 2)) <= Qfloor (8 + v * (18 # 10) + (1 # 2)))%Z)
    as Hmono.
  { intros u v Huv. apply Qfloor_resp_le. lra. }
  split; [unfold spec_target; pose proof (Hmono a b Hab); lia |].
  split; [reflexivity |]. split.
  - intros Ha. pose proof (Hmono 0 a Ha) as H0.
    change (Qfloor (8 + 0 * (18 # 10) + (1 # 2))) with 8%Z in H0.
    unfold spec_target. lia.
  - intros Ha. pose proof (Hmono (365 # 18) a Ha) as H0.
    change (Qfloor (8 + (365 # 18) * (18 # 10) + (1 # 2))) with 45%Z in H0.
    unfold spec_target. lia.
Qed.

Lemma heuristic_monotone_witness :
  exists ta tb, heuristicDur 2 = Fin (inject_Z ta) /\ heuristicDur 10 = Fin (inject_Z tb)
                /\ (ta <= tb)%Z
                /\ heuristicDur 0 = Fin 8
                /\ (0 <= 2 -> (8 <= ta)%Z)
                /\ ((365 # 18) <= 2 -> ta = 45%Z).
Proof.
  apply (heuristic_monotone 2 10). vm_compute. discriminate.
Defined.

(* ================================================================= *)
(** ** Simulation: the tick loop and the controller *)

Lemma move_only_counts (sq : Q -> Q) (s : Simulation) (others : list Vehicle)
      (v : Vehicle) (dt : Q) :
  exists tp tw pc,
    fst (_move sq s others v dt)
    = mkSim (mode s) (light s) (vehicles s) (simTime s) tp tw pc
            (aiPending s) (aiReason s) (inflight s).
Proof.
  unfold _move. destruct s as [md lg vs st tp tw pc ap ar fl].
  destruct (phase v); cbn [fst]; try (now exists tp, tw, pc).
  unfold _exit. match goal with |- context [if ?c then _ else _] => destruct c end;
    cbn; eauto.
Qed.

Lemma moveEach_only_counts (sq : Q -> Q) (dt : Q) (rest : list Vehicle) :
  forall (s : Simulation) (before : list Vehicle),
  exists tp tw pc,
    fst (moveEach sq s before rest dt)
    = mkSim (mode s) (light s) (vehicles s) (simTime s) tp tw pc
            (aiPending s) (aiReason s) (inflight s).
Proof.
  induction rest as [| v rest IH]; intros s before; cbn [moveEach].
  - destruct s. cbn. eauto.
  - destruct (done v); cbn [fst snd]; [apply IH |].
    destruct (move_only_counts sq s (before ++ rest) v dt) as (tp & tw & pc & E).
    destruct (IH (fst (_move sq s (before ++ rest) v dt))
                 (before ++ [snd (_move sq s (before ++ rest) v dt)]))
      as (tp' & tw' & pc' & E').
    rewrite E'. rewrite E. cbn. eauto.
Qed.

Lemma tick_note_needs_callback (l : TrafficLight) (dt : Q) (k : string) :
  snd (Light.tick l dt) = Some k -> onPhaseEnd l = true.
Proof.
  unfold Light.tick.
  destruct (Light.timer_lt (timer l + dt) (Light.dur l)); [discriminate |].
  destruct (subPhase l); [discriminate | | destruct (_nextOverride l); discriminate].
  cbn [snd]. destruct (onPhaseEnd l); [reflexivity | discriminate].
Qed.

Lemma tick_light_alone (sq : Q -> Q) (S2N : string -> JsNum) (url : string)
      (s : Simulation) (dt : Q) :
  aiPending s = true \/ onPhaseEnd (light s) = false ->
  light (tick sq S2N url s dt) = fst (Light.tick (light s) dt)
  /\ aiPending (tick sq S2N url s dt) = aiPending s
  /\ inflight (tick sq S2N url s dt) = inflight s
  /\ simTime (tick sq S2N url s dt) = simTime s + dt.
Proof.
  intros Hcase. unfold tick.
  set (s1 := set_simTime s (simTime s + dt)).
  set (s2 := set_light s1 (fst (Light.tick (light s1) dt))).
  assert (match snd (Light.tick (light s1) dt) with
          | Some ph => callAI_begin S2N url s2 (Some ph)
          | None => s2
          end = s2) as ->.
  { destruct (snd (Light.tick (light s1) dt)) as [ph |] eqn:E; [| reflexivity].
    destruct Hcase as [Hp | Hc].
    - unfold callAI_begin. cbn [aiPending s2 s1 set_light set_simTime]. now rewrite Hp.
    - apply tick_note_needs_callback in E. cbn [light s1 set_simTime] in E. congruence. }
  destruct (moveEach_only_counts sq dt (vehicles s2) s2 []) as (tp & tw & pc & ->).
  cbn. repeat split.
Qed.

(** X23.  While a request is outstanding, and in a simulation without
    a phase-end callback, a tick drives the controller exactly as
    [TrafficLight.tick] alone: the advisor neither delays nor alters
    it, no second request is started, and the simulation clock advances
    by [dt]. *)
Theorem tick_unaffected_by_pending_request (sq : Q -> Q) (S2N : string -> JsNum)
        (url : string) (s : Simulation) (dt : Q) :
  aiPending s = true \/ onPhaseEnd (light s) = false ->
  light (tick sq S2N url s dt) = fst (Light.tick (light s) dt)
  /\ aiPending (tick sq S2N url s dt) = aiPending s
  /\ inflight (tick sq S2N url s dt) = inflight s
  /\ simTime (tick sq S2N url s dt) = simTime s + dt.
Proof.
  apply tick_light_alone.
Qed.

Lemma tick_unaffected_by_pending_request_witness :
  let s := callAI_begin (fun _ => NaN) "https://example.invalid/fn" (Sim.new ai) None in
  light (tick (fun q => q) (fun _ => NaN) "https://example.invalid/fn" s (1 # 60))
  = fst (Light.tick (light s) (1 # 60)).
Proof.
  intros s.
  assert (aiPending s = true \/ onPhaseEnd (light s) = false) as H by (left; reflexivity).
  exact (proj1 (tick_unaffected_by_pending_request
                  (fun q => q) (fun _ => NaN) "https://example.invalid/fn" s (1 # 60) H)).
Defined.

(** X24.  The baseline controller does not depend on the traffic: after
    any sequence of [spawn] and [tick] calls on a baseline simulation
    its light is the light that the same time steps alone produce from
    a fresh baseline light, and no request is ever pending. *)
Theorem baseline_light_independent_of_traffic (sq : Q -> Q) (S2N : string -> JsNum)
        (url : string) (cs : list Cmd) :
  List.Forall plain cs ->
  let s := run sq S2N url (Sim.new baseline) cs in
  light s = fold_left (fun l dt => fst (Light.tick l dt)) (tickSteps cs) (Light.new baseline)
  /\ aiPending s = false /\ inflight s = None.
Proof.
  intros Hplain.
  assert (forall s0,
            onPhaseEnd (light s0) = false ->
            let s := run sq S2N url s0 cs in
            light s = fold_left (fun l dt => fst (Light.tick l dt)) (tickSteps cs) (light s0)
            /\ aiPending s = aiPending s0 /\ inflight s = inflight s0) as H.
  { unfold run. induction Hplain as [| c cs Hc Hcs IH]; intros s0 H0; cbn [fold_left].
    - repeat split.
    - destruct c as [d l | dt | ctx | r]; cbn [plain] in Hc; try contradiction;
        cbn [exec tickSteps flat_map app].
      + apply (IH (Sim.spawn s0 d l)). exact H0.
      + destruct (tick_light_alone sq S2N url s0 dt (or_intror H0)) as (Hl & Hp & Hi & _).
        destruct (IH (tick sq S2N url s0 dt)) as (I1 & I2 & I3).
        { rewrite Hl. destruct (light_tick_cases (light s0) dt) as (_ & _ & Hcb & _).
          now rewrite Hcb. }
        cbv zeta in I1, I2, I3. rewrite I1, I2, I3, Hl, Hp, Hi.
        cbn [fold_left]. repeat split. }
  intros s. apply (H (Sim.new baseline)). reflexivity.
Qed.

Lemma baseline_light_independent_of_traffic_witness :
  light (run (fun q => q) (fun _ => NaN) ""
             (Sim.new baseline) [Spawn north lane1; Tick 15; Spawn east lane0; Tick 3])
  = fold_left (fun l dt => fst (Light.tick l dt)) [15; 3] (Light.new baseline).
Proof.
  assert (List.Forall plain [Spawn north lane1; Tick 15; Spawn east lane0; Tick 3]) as H
      by (repeat constructor).
  exact (proj1 (baseline_light_independent_of_traffic
                  (fun q => q) (fun _ => NaN) "" _ H)).
Defined.

(** X25.  [_detectJams] flags an arm only if it has an approaching
    vehicle, and it flags the arm of every vehicle that has just been
    spawned: the spawn point lies 30 px outside the canvas, within the
    40 px threshold. *)
Theorem detectJams_flags_fresh_spawn (s : Simulation) (d : Arm) (l : Lane) :
  _detectJams (Sim.spawn s d l) d = true
  /\ (_detectJams s d = true -> (0 < Sim.dirQueues s d)%nat)
  /\ (vehicles s = [] -> _detectJams s d = false).
Proof.
  split; [| split].
  - unfold _detectJams, Sim.spawn. cbn [vehicles set_vehicles].
    rewrite existsb_app. apply orb_true_iff. right.
    destruct d, l; reflexivity.
  - unfold _detectJams, Sim.dirQueues. intros H.
    apply existsb_exists in H. destruct H as (v & Hin & Hv).
    apply andb_true_iff in Hv. destruct Hv as [Hv _].
    assert (In v (List.filter (fun v => VPhase_eqb (phase v) approach && Arm_eqb (dir v) d)
                              (vehicles s))) as Hf.
    { apply List.filter_In. split; assumption. }
    destruct (List.filter _ (vehicles s)); [contradiction | cbn; lia].
  - intros E. unfold _detectJams. now rewrite E.
Qed.

(* ================================================================= *)
(** ** The advisory endpoint and the client together *)

Lemma Qeq_bool_inject (a b : Z) : Qeq_bool (inject_Z a) (inject_Z b) = Z.eqb a b.
Proof.
  destruct (Z.eqb_spec a b) as [-> | Hne].
  - apply Qeq_bool_iff. reflexivity.
  - destruct (Qeq_bool (inject_Z a) (inject_Z b)) eqn:E; [| reflexivity].
    apply Qeq_bool_iff in E. unfold Qeq in E. simpl in E. lia.
Qed.

Lemma indexOfNum_integer (l : list Z) (z : Z) :
  indexOfNum l (Fin (inject_Z z)) = indexOfZ l z.
Proof.
  induction l as [| h tl IH]; [reflexivity |].
  cbn [indexOfNum indexOfZ]. rewrite Qeq_bool_inject, IH, (Z.eqb_sym z h). reflexivity.
Qed.

(** X26.  The endpoint and the client agree on the next phase: for
    every integer id the client sends as [current_phase_id] (and no
    legacy field), the endpoint computes the same clockwise successor as
    the client does, so the [next_phase] of a reply always equals the
    phase the client enforces. *)
Theorem endpoint_and_client_same_next_phase (S2N : string -> JsNum) (z : Z)
        (s : Simulation) (ctx : option string) :
  serverNextId (currentPhaseId S2N (VNumber (Fin (inject_Z z))) VUndefined VUndefined)
  = nextClockwise z
  /\ serverNextId (currentPhaseId S2N (VNumber (Fin (inject_Z (curIdOf ctx))))
                                  VUndefined VUndefined)
     = fixedNextId (prepare s ctx).
Proof.
  assert (forall c, serverNextId (currentPhaseId S2N (VNumber (Fin (inject_Z c)))
                                                 VUndefined VUndefined)
                    = nextClockwise c) as H.
  { intros c.
    assert (currentPhaseId S2N (VNumber (Fin (inject_Z c))) VUndefined VUndefined
            = Fin (inject_Z c)) as ->.
    { destruct (Z.eqb_spec c 0) as [-> | Hc]; [reflexivity |].
      assert (truthyV (VNumber (Fin (inject_Z c))) = true) as Ht.
      { cbn [truthyV Js.truthy]. change 0 with (inject_Z 0).
        rewrite Qeq_bool_inject. now destruct (Z.eqb_spec c 0). }
      unfold currentPhaseId, orV. rewrite !Ht. reflexivity. }
    unfold serverNextId, nextClockwise. rewrite indexOfNum_integer.
    destruct (indexOfZ cw c) as [i |] eqn:E.
    - rewrite indexOfNum_integer, E. reflexivity.
    - change (Fin 1) with (Fin (inject_Z 1)). rewrite indexOfNum_integer. reflexivity. }
  split; [apply H | apply H].
Qed.

Lemma clamp15_integral (n : JsNum) :
  n <> NaN ->
  exists z, clamp (Js.round n) (Fin FN_CONFIG.MIN_GREEN) (Fin FN_CONFIG.MAX_GREEN)
            = Fin (inject_Z z) /\ (5 <= z <= 15)%Z.
Proof.
  intros Hn. unfold clamp, FN_CONFIG.MIN_GREEN, FN_CONFIG.MAX_GREEN.
  destruct n as [q | | |]; try contradiction.
  - cbn [Js.round Js.min]. set (r := Qfloor (q + (1 # 2))).
    destruct (Qle_bool 15 (inject_Z r)) eqn:E15.
    + exists 15%Z. split; [reflexivity | lia].
    + apply Qle_bool_false in E15. change 15 with (inject_Z 15) in E15.
      rewrite <- Zlt_Qlt in E15. cbn [Js.max].
      destruct (Qle_bool 5 (inject_Z r)) eqn:E5.
      * apply Qle_bool_iff in E5. change 5 with (inject_Z 5) in E5.
        rewrite <- Zle_Qle in E5. exists r. split; [reflexivity | lia].
      * exists 5%Z. split; [reflexivity | lia].
  - exists 15%Z. split; [reflexivity | lia].
  - exists 5%Z. split; [reflexivity | lia].
Qed.

Lemma or_not_NaN (a b : JsNum) : b <> NaN -> Js.or a b <> NaN.
Proof.
  unfold Js.or, Js.truthy. destruct a as [q | | |]; try (intros; discriminate); auto.
  destruct (Qeq_bool q 0); cbn [negb]; [auto | intros; discriminate].
Qed.

Lemma serverFixedGreen_integral (S2N : string -> JsNum) (fg : JsVal) :
  exists g, serverFixedGreen S2N fg = Fin (inject_Z g) /\ (5 <= g <= 15)%Z.
Proof.
  unfold serverFixedGreen. apply clamp15_integral. apply or_not_NaN. discriminate.
Qed.

Lemma serverNextId_in_cw (n : JsNum) : In (serverNextId n) cw.
Proof.
  unfold serverNextId.
  match goal with |- context [indexOfNum cw ?c] =>
    destruct (indexOfNum cw c) as [i |] end; [| cbn; tauto].
  pose proof (Nat.mod_upper_bound (i + 1) 4 ltac:(lia)) as Hlt.
  destruct ((i + 1) mod 4)%nat as [| [| [| [| j]]]]; try lia; cbn; tauto.
Qed.

Lemma server_reply_duration (S2N : string -> JsNum) (sr : ServerReply) :
  server_reply S2N sr ->
  In (r_next sr) cw
  /\ exists z, r_duration sr = Fin (inject_Z z) /\ (5 <= z <= 15)%Z.
Proof.
  intros (cur & fg & [(duration & ->) | (dm & ->)]).
  - cbn [r_next r_duration serverSuccess]. split; [apply serverNextId_in_cw |].
    apply clamp15_integral. apply or_not_NaN.
    destruct (serverFixedGreen_integral S2N fg) as (g & -> & _). discriminate.
  - cbn [r_next r_duration serverFallback]. split; [apply serverNextId_in_cw |].
    apply clamp15_integral.
    assert (Js.or dm (Fin 0) <> NaN) as Hl by (apply or_not_NaN; discriminate).
    destruct (Js.or dm (Fin 0)) as [q | | |]; try contradiction; cbn; discriminate.
Qed.

(** X27.  Every reply of the endpoint, on the success path and on the
    fallback path alike and whatever the request body and the model's
    output, names a phase of the rotation 1..4 and a whole number of
    seconds between 5 and 15. *)
Theorem endpoint_reply_admissible (S2N : string -> JsNum) (sr : ServerReply) :
  server_reply S2N sr ->
  In (r_next sr) cw
  /\ exists z, r_duration sr = Fin (inject_Z z) /\ (5 <= z <= 15)%Z.
Proof.
  apply server_reply_duration.
Qed.

Lemma endpoint_reply_admissible_witness :
  In (r_next (serverSuccess (fun _ => NaN) (serverNextId (Fin 4))
                            (serverFixedGreen (fun _ => NaN) VUndefined)
                            (VNumber (Fin 99)))) cw
  /\ exists z, r_duration (serverSuccess (fun _ => NaN) (serverNextId (Fin 4))
                                         (serverFixedGreen (fun _ => NaN) VUndefined)
                                         (VNumber (Fin 99)))
               = Fin (inject_Z z) /\ (5 <= z <= 15)%Z.
Proof.
  apply (endpoint_reply_admissible (fun _ => NaN)).
  exists (Fin 4), VUndefined. left. exists (VNumber (Fin 99)). reflexivity.
Defined.

(** X28.  With this endpoint answering, the client never meets a bad
    response: it accepts or rejects the reply, and the green time it
    hands to the controller is a whole number of seconds between 5 and
    15, never above the fixed 15 s. *)
Theorem endpoint_reply_keeps_green_within_fixed (S2N : string -> JsNum)
        (sr : ServerReply) (why : string) (s : Simulation) (ctx : option string) :
  server_reply S2N sr ->
  let d := resolve S2N (prepare s ctx) (Replied (Some (asReply sr why))) in
  (d_why d = Accepted \/ d_why d = Rejected)
  /\ exists z, d_dur d = Fin (inject_Z z) /\ (5 <= z <= 15)%Z.
Proof.
  intros Hsr d. destruct (server_reply_duration S2N sr Hsr) as (_ & z & Hz & Hr).
  unfold d, resolve, asReply. cbn [duration improved_over_fixed Number]. rewrite Hz.
  cbn [Js.isFinite andb].
  assert (clamp (Js.round (Js.or (Fin (inject_Z z)) (Fin CONFIG.FIXED_GREEN)))
                (Fin 5) (Fin 45) = Fin (inject_Z z)) as ->.
  { unfold Js.or, Js.truthy. change 0 with (inject_Z 0). rewrite Qeq_bool_inject.
    destruct (Z.eqb_spec z 0) as [-> | _]; [lia |]. cbn [negb].
    rewrite clamp_round_fin, Qfloor_half. f_equal. f_equal. lia. }
  match goal with |- context [if ?c then _ else _] => destruct c end; cbn [d_why d_dur].
  - split; [now left | exists z; split; [reflexivity | exact Hr]].
  - split; [now right | exists 15%Z; split; [reflexivity | lia]].
Qed.

Lemma endpoint_reply_keeps_green_within_fixed_witness :
  let sr := serverFallback (serverNextId (Fin 1)) (serverFixedGreen (fun _ => NaN) VUndefined)
                           (Fin 30) in
  exists z, d_dur (resolve (fun _ => NaN) (prepare (Sim.new ai) (Some PH.N))
                           (Replied (Some (asReply sr "heuristic"))))
            = Fin (inject_Z z) /\ (5 <= z <= 15)%Z.
Proof.
  intros sr.
  assert (server_reply (fun _ => NaN) sr) as H.
  { exists (Fin 1), VUndefined. right. exists (Fin 30). reflexivity. }
  exact (proj2 (endpoint_reply_keeps_green_within_fixed
                  (fun _ => NaN) sr "heuristic" (Sim.new ai) (Some PH.N) H)).
Defined.

(* ================================================================= *)
(** ** Vehicles: a turn always completes *)

Lemma turn_step (v : Vehicle) (p : Bezier) :
  turnPath v = Some p ->
  (1 <= turnT v + CONFIG.CAR_SPD / _pLen v -> phase (_turn v) = exit)
  /\ (turnT v + CONFIG.CAR_SPD / _pLen v < 1 ->
      phase (_turn v) = phase v
      /\ turnT (_turn v) = turnT v + CONFIG.CAR_SPD / _pLen v
      /\ _pLen (_turn v) = _pLen v /\ turnPath (_turn v) = Some p
      /\ done (_turn v) = done v).
Proof.
  intros Hp. unfold _turn. rewrite Hp. cbv zeta.
  destruct (Qle_bool 1 (turnT v + CONFIG.CAR_SPD / _pLen v)) eqn:E.
  - change (Qle_bool 1 1) with true. cbv iota.
    split.
    + intros _. destruct (exitDir v) as [[] |]; reflexivity.
    + intros H. apply Qle_bool_iff in E. lra.
  - rewrite E. split.
    + intros H. apply Qle_bool_iff in H. congruence.
    + intros _. destruct v; cbn in *. repeat split; assumption.
Qed.

Lemma moveSteps_S (sq : Q -> Q) (s : Simulation) (others : list Vehicle) (dt : Q)
      (n : nat) (v : Vehicle) :
  moveSteps sq s others dt (S n) v
  = snd (_move sq s others (moveSteps sq s others dt n v) dt).
Proof. reflexivity. Qed.

Lemma turning_progress (sq : Q -> Q) (s : Simulation) (others : list Vehicle) (dt : Q)
      (v : Vehicle) (p : Bezier) (n : nat) :
  phase v = turning -> turnPath v = Some p -> turnT v < 1 ->
  (exists k, (1 <= k <= n)%nat
             /\ phase (moveSteps sq s others dt k v) = exit
             /\ forall j, (j < k)%nat ->
                  phase (moveSteps sq s others dt j v) = turning
                  /\ done (moveSteps sq s others dt j v) = done v)
  \/ (let u := moveSteps sq s others dt n v in
      phase u = turning /\ turnPath u = Some p /\ _pLen u = _pLen v
      /\ turnT u < 1
      /\ turnT u == turnT v + inject_Z (Z.of_nat n) * (CONFIG.CAR_SPD / _pLen v)
      /\ forall j, (j <= n)%nat ->
           phase (moveSteps sq s others dt j v) = turning
           /\ done (moveSteps sq s others dt j v) = done v).
Proof.
  intros Hph Hp Ht. induction n as [| n IH].
  - right. cbn. repeat split; try assumption.
    + ring.
    + assert (j = 0)%nat as -> by lia. exact Hph.
    + assert (j = 0)%nat as -> by lia. reflexivity.
  - destruct IH as [(k & Hk & Hex & Hbefore) | IH].
    + left. exists k. split; [lia | split; assumption].
    + cbv zeta in IH. destruct IH as (Hu & Hpu & Hlu & Htu & Heq & Hall).
      rewrite moveSteps_S. set (u := moveSteps sq s others dt n v) in *.
      unfold _move. rewrite Hu. cbn [snd].
      destruct (turn_step u p Hpu) as [Hdone Hgo].
      destruct (Qlt_le_dec (turnT u + CONFIG.CAR_SPD / _pLen u) 1) as [Hlt | Hge].
      * right. destruct (Hgo Hlt) as (H1 & H2 & H3 & H4 & H5).
        cbv zeta.
        assert (Hstep : phase (moveSteps sq s others dt (S n) v) = turning
                        /\ done (moveSteps sq s others dt (S n) v) = done v).
        { rewrite moveSteps_S. fold u. unfold _move. rewrite Hu. cbn [snd].
          split; [congruence |]. rewrite H5. apply (Hall n). lia. }
        split; [congruence |]. split; [assumption |].
        split; [congruence |]. split; [rewrite H2; exact Hlt |].
        split.
        -- rewrite H2, Heq, Hlu, Nat2Z.inj_succ. unfold Z.succ.
           rewrite inject_Z_plus. ring.
        -- intros j Hj. destruct (Nat.eq_dec j (S n)) as [-> | Hne].
           ++ exact Hstep.
           ++ apply Hall. lia.
      * left. exists (S n). split; [lia |]. split.
        -- rewrite moveSteps_S. fold u. unfold _move. rewrite Hu. cbn [snd].
           exact (Hdone Hge).
        -- intros j Hj. apply Hall. lia.
Qed.

(** X29.  A vehicle inside the junction always gets out of it.  For a
    turning vehicle with a path length between 1 and 1000 px (the paths
    of [buildPath] are a few hundred pixels long at most) and a
    progress in [0, 1), if [n - 1] steps of [CAR_SPD] cover what is
    left of the path, then one of the first [n] calls of [_move] puts
    it in the exit phase; up to that call it is turning and its done
    flag is untouched, whatever the light shows and whatever the other
    vehicles do.  The bound leaves one step of margin: it does not rest
    on the sum of the steps reaching 1 exactly. *)
Theorem turn_completes (sq : Q -> Q) (s : Simulation) (others : list Vehicle) (dt : Q)
        (v : Vehicle) (p : Bezier) (n : nat) :
  phase v = turning -> turnPath v = Some p ->
  1 <= _pLen v <= 1000 -> 0 <= turnT v < 1 ->
  (1 - turnT v) * _pLen v + CONFIG.CAR_SPD <= inject_Z (Z.of_nat n) * CONFIG.CAR_SPD ->
  exists k, (1 <= k <= n)%nat
            /\ phase (moveSteps sq s others dt k v) = exit
            /\ forall j, (j < k)%nat ->
                 phase (moveSteps sq s others dt j v) = turning
                 /\ done (moveSteps sq s others dt j v) = done v.
Proof.
  intros Hph Hp [Hlen _] [_ Ht] Hn.
  destruct (turning_progress sq s others dt v p n Hph Hp Ht) as [H | H];
    [exact H | exfalso].
  cbv zeta in H. destruct H as (_ & _ & _ & Hlt & Heq & _).
  rewrite Heq in Hlt.
  assert (0 < _pLen v) as Hpos by lra.
  assert (E : inject_Z (Z.of_nat n) * (CONFIG.CAR_SPD / _pLen v)
              == inject_Z (Z.of_nat n) * CONFIG.CAR_SPD / _pLen v).
  { field. intros H0. rewrite H0 in Hpos. now apply Qlt_irrefl in Hpos. }
  rewrite E in Hlt.
  assert (1 - turnT v <= inject_Z (Z.of_nat n) * CONFIG.CAR_SPD / _pLen v).
  { apply Qle_shift_div_l; [exact Hpos |]. unfold CONFIG.CAR_SPD in *. lra. }
  lra.
Qed.

Lemma turn_completes_witness :
  let bp := buildPath (Vehicle_new north lane1) in
  let v := set_turnPath (set_phase (fst bp) turning) (snd bp) 80 in
  exists k, (1 <= k <= 51)%nat
            /\ phase (moveSteps (fun q => q) (Sim.new baseline) [] (1 # 60) k v) = exit
            /\ forall j, (j < k)%nat ->
                 phase (moveSteps (fun q => q) (Sim.new baseline) [] (1 # 60) j v) = turning
                 /\ done (moveSteps (fun q => q) (Sim.new baseline) [] (1 # 60) j v) = done v.
Proof.
  intros bp v.
  apply (turn_completes (fun q => q) (Sim.new baseline) [] (1 # 60) v (snd bp) 51).
  - reflexivity.
  - reflexivity.
  - split; vm_compute; discriminate.
  - split; vm_compute; [discriminate | reflexivity].
  - vm_compute. discriminate.
Defined.
